(** * IntegralRange: a range-encoded container of unsigned integers and
      its N-ary intersection and union.

    Shallow embedding of [IntegralRangeVector.h] and [RangeMerger.h].

    - The element type [T] is one of the fixed-width unsigned types; a
      value of type [T] is a [Z] in [[0, 2^bits)], conversions to [T]
      are written [to_T], and the usual arithmetic conversions are
      written out ([sub_T], [add_T]).
    - An assertion that fails, or a loop that exhausts its fuel, is
      [None]; everything else is [Some].
    - The two function templates of the merger are written once, over
      the class [RangeContainer] of what they use of a container, and
      instantiated at [std::vector<T>] and [IntegralRangeVector<T>]. *)

From Stdlib Require Import ZArith List Bool Lia Permutation.
Import ListNotations.
Local Open Scope Z_scope.

(* ================================================================== *)
(** ** The error monad of assertion-checked code *)

Definition bind {A B : Type} (m : option A) (k : A -> option B) : option B :=
  match m with
  | Some a => k a
  | None => None
  end.

Definition assert (b : bool) : option unit := if b then Some tt else None.

Notation "x <- m ;; k" := (bind m (fun x => k))
  (at level 61, m at next level, right associativity).
Notation "'check' b ;; k" := (bind (assert b) (fun _ => k))
  (at level 61, b at next level, right associativity).

(* ================================================================== *)
(** ** Fixed-width unsigned integers *)

Inductive width : Type := W8 | W16 | W32 | W64.

Definition bits (t : width) : Z :=
  match t with W8 => 8 | W16 => 16 | W32 => 32 | W64 => 64 end.

Definition modulus (t : width) : Z := 2 ^ bits t.

(** [std::numeric_limits<T>::max()] *)
Definition numeric_max (t : width) : Z := modulus t - 1.

(** Conversion of an integer result to [T]. *)
Definition to_T (t : width) (x : Z) : Z := x mod modulus t.

(** Operands narrower than [int] (32 bits) are promoted to [int], so
    their sums and differences are computed without wrap-around; the
    wider types wrap. *)
Definition promoted (t : width) : bool := bits t <? 32.

Definition sub_T (t : width) (a b : Z) : Z :=
  if promoted t then a - b else (a - b) mod modulus t.

Definition add_T (t : width) (a b : Z) : Z :=
  if promoted t then a + b else (a + b) mod modulus t.

(** [std::size_t] is taken to have 64 bits. *)
Definition to_size (x : Z) : Z := x mod 2 ^ 64.

(** [mask = max ^ (max >> 1)] *)
Definition mask (t : width) : Z :=
  Z.lxor (numeric_max t) (Z.shiftr (numeric_max t) 1).

(** [x & mask], [x | mask], [x & ~mask] *)
Definition and_mask (t : width) (x : Z) : Z := Z.land x (mask t).
Definition or_mask (t : width) (x : Z) : Z := Z.lor x (mask t).
Definition unmask (t : width) (x : Z) : Z := Z.land x (Z.lnot (mask t)).

Definition typed (t : width) (x : Z) : Prop := 0 <= x < modulus t.

(* ------------------------------------------------------------------ *)
(** *** Facts on the tag bit *)

Lemma mask_eq (t : width) : mask t = 2 ^ (bits t - 1).
Proof. destruct t; reflexivity. Qed.

Lemma modulus_eq (t : width) : modulus t = 2 * mask t.
Proof. destruct t; reflexivity. Qed.

Lemma mask_ge (t : width) : 128 <= mask t.
Proof. destruct t; vm_compute; discriminate. Qed.

Lemma bits_pos (t : width) : 0 <= bits t - 1.
Proof. destruct t; simpl; lia. Qed.

Lemma testbit_small (k x : Z) :
  0 <= k -> 0 <= x < 2 ^ k -> Z.testbit x k = false.
Proof.
  intros Hk Hx.
  rewrite <- (Z.mod_small x (2 ^ k)) by assumption.
  apply Z.mod_pow2_bits_high. lia.
Qed.

Lemma land_pow2_small (k x : Z) :
  0 <= k -> 0 <= x < 2 ^ k -> Z.land x (2 ^ k) = 0.
Proof.
  intros Hk Hx. apply Z.bits_inj'. intros n Hn.
  rewrite Z.land_spec, Z.bits_0, Z.pow2_bits_eqb by assumption.
  destruct (Z.eqb_spec k n) as [<- | _].
  - rewrite testbit_small by assumption. reflexivity.
  - apply andb_false_r.
Qed.

Lemma lor_pow2_small (k x : Z) :
  0 <= k -> 0 <= x < 2 ^ k -> Z.lor x (2 ^ k) = x + 2 ^ k.
Proof.
  intros Hk Hx.
  pose proof (land_pow2_small k x Hk Hx) as H0.
  rewrite <- (Z.lxor_lor _ _ H0).
  symmetry. apply Z.add_nocarry_lxor. exact H0.
Qed.

Lemma ldiff_pow2_small (k x : Z) :
  0 <= k -> 0 <= x < 2 ^ k -> Z.ldiff x (2 ^ k) = x.
Proof.
  intros Hk Hx.
  pose proof (Z.lor_ldiff_and x (2 ^ k)) as H.
  rewrite (land_pow2_small k x Hk Hx), Z.lor_0_r in H. exact H.
Qed.

Lemma land_pow2_big (k y : Z) :
  0 <= k -> 0 <= y < 2 ^ k -> Z.land (y + 2 ^ k) (2 ^ k) = 2 ^ k.
Proof.
  intros Hk Hy.
  rewrite <- (lor_pow2_small k y Hk Hy).
  rewrite Z.land_lor_distr_l, (land_pow2_small k y Hk Hy), Z.land_diag.
  apply Z.lor_0_l.
Qed.

Lemma lor_pow2_big (k y : Z) :
  0 <= k -> 0 <= y < 2 ^ k -> Z.lor (y + 2 ^ k) (2 ^ k) = y + 2 ^ k.
Proof.
  intros Hk Hy.
  rewrite <- (lor_pow2_small k y Hk Hy).
  rewrite <- Z.lor_assoc, Z.lor_diag. reflexivity.
Qed.

Lemma ldiff_pow2_big (k y : Z) :
  0 <= k -> 0 <= y < 2 ^ k -> Z.ldiff (y + 2 ^ k) (2 ^ k) = y.
Proof.
  intros Hk Hy.
  rewrite <- (lor_pow2_small k y Hk Hy).
  apply Z.bits_inj'. intros n Hn.
  rewrite Z.ldiff_spec, Z.lor_spec, Z.pow2_bits_eqb by assumption.
  destruct (Z.eqb_spec k n) as [<- | _].
  - rewrite testbit_small by assumption. reflexivity.
  - simpl. rewrite orb_false_r, andb_true_r. reflexivity.
Qed.

Section TagBit.
Variable t : width.

Lemma and_mask_low (x : Z) : 0 <= x < mask t -> and_mask t x = 0.
Proof.
  unfold and_mask. rewrite mask_eq.
  apply land_pow2_small, bits_pos.
Qed.

Lemma and_mask_high (x : Z) :
  mask t <= x < modulus t -> and_mask t x = mask t.
Proof.
  unfold and_mask. rewrite modulus_eq, mask_eq. intros Hx.
  replace x with ((x - 2 ^ (bits t - 1)) + 2 ^ (bits t - 1)) by lia.
  apply land_pow2_big; [apply bits_pos | lia].
Qed.

Lemma or_mask_low (x : Z) : 0 <= x < mask t -> or_mask t x = x + mask t.
Proof.
  unfold or_mask. rewrite mask_eq.
  apply lor_pow2_small, bits_pos.
Qed.

Lemma or_mask_high (x : Z) : mask t <= x < modulus t -> or_mask t x = x.
Proof.
  unfold or_mask. rewrite modulus_eq, mask_eq. intros Hx.
  replace x with ((x - 2 ^ (bits t - 1)) + 2 ^ (bits t - 1)) at 1 by lia.
  rewrite lor_pow2_big; [lia | apply bits_pos | lia].
Qed.

Lemma unmask_low (x : Z) : 0 <= x < mask t -> unmask t x = x.
Proof.
  unfold unmask. rewrite <- Z.ldiff_land, mask_eq.
  apply ldiff_pow2_small, bits_pos.
Qed.

Lemma unmask_high (x : Z) :
  mask t <= x < modulus t -> unmask t x = x - mask t.
Proof.
  unfold unmask. rewrite <- Z.ldiff_land, modulus_eq, mask_eq. intros Hx.
  replace x with ((x - 2 ^ (bits t - 1)) + 2 ^ (bits t - 1)) at 1 by lia.
  apply ldiff_pow2_big; [apply bits_pos | lia].
Qed.

Lemma to_T_small (x : Z) : 0 <= x < modulus t -> to_T t x = x.
Proof. apply Z.mod_small. Qed.

Lemma mask_pos : 0 < mask t.
Proof. pose proof (mask_ge t). lia. Qed.

Lemma sub_T_le (a b : Z) : 0 <= b <= a -> a < modulus t -> sub_T t a b = a - b.
Proof.
  intros H1 H2. unfold sub_T. destruct (promoted t); [reflexivity|].
  apply Z.mod_small. lia.
Qed.

Lemma add_T_small (a b : Z) : 0 <= a + b < modulus t -> add_T t a b = a + b.
Proof.
  intros H. unfold add_T. destruct (promoted t); [reflexivity|].
  apply Z.mod_small. lia.
Qed.

(** [first - 1] never equals a payload below [mask] when [first = 0]. *)
Lemma sub_T_zero_one : sub_T t 0 1 < 0 \/ mask t <= sub_T t 0 1.
Proof. destruct t; vm_compute; intuition discriminate. Qed.

End TagBit.

(* ================================================================== *)
(** ** IntegralRangeVector<T> *)

(** [std::vector] primitives used by the container.  The source reads
    [back()] only of a non-empty vector, and a word past the end only
    when the last word is a lone tagged word; such reads have no
    defined value there and give 0 here. *)
Definition back (ws : list Z) : Z := last ws 0.
Definition set_back (ws : list Z) (x : Z) : list Z := removelast ws ++ [x].
Definition word_at (ws : list Z) (i : nat) : Z := nth i ws 0.
Definition is_empty (ws : list Z) : bool :=
  match ws with [] => true | _ => false end.

Definition vector_eqb (a b : list Z) : bool :=
  if list_eq_dec Z.eq_dec a b then true else false.

(** The values [first, first+1, ..., last-1] a counting loop
    [for (i = first; i < last; i++)] visits. *)
Definition values_between (first last : Z) : list Z :=
  map (fun k => first + Z.of_nat k) (seq 0 (Z.to_nat (last - first))).

Record IntegralRangeVector : Type := mkIRV {
  _rangeVect : list Z;
  _length : option Z
}.

(** An iterator holds two positions into the word vector and the
    decoded current range; [_store] is the vector the positions
    refer to. *)
Record const_iterator : Type := mkIter {
  _store : list Z;
  _base_iter : nat;
  _end_iter : nat;
  _current_value : Z * Z
}.

Section Container.
Variable t : width.

Definition tagged (x : Z) : bool := negb (and_mask t x =? 0).

(** [calculate_value] *)
Definition calculate_value (ws : list Z) (base end_ : nat) : Z * Z :=
  if (end_ <=? base)%nat then (0, 0)
  else if tagged (word_at ws base) then
    (to_T t (unmask t (word_at ws base)),
     to_T t (unmask t (word_at ws (base + 1))))
  else
    (word_at ws base, to_T t (add_T t (word_at ws base) 1)).

Definition make_iterator (ws : list Z) (base end_ : nat) : const_iterator :=
  mkIter ws base end_ (calculate_value ws base end_).

(** Comparison operators: positions only. *)
Definition iter_eq (a b : const_iterator) : bool :=
  (_base_iter a =? _base_iter b)%nat.
Definition iter_ne (a b : const_iterator) : bool :=
  negb (_base_iter a =? _base_iter b)%nat.
Definition iter_lt (a b : const_iterator) : bool :=
  (_base_iter a <? _base_iter b)%nat.
Definition iter_gt (a b : const_iterator) : bool :=
  (_base_iter b <? _base_iter a)%nat.
Definition iter_le (a b : const_iterator) : bool :=
  (_base_iter a <=? _base_iter b)%nat.
Definition iter_ge (a b : const_iterator) : bool :=
  (_base_iter b <=? _base_iter a)%nat.

(** [operator*] and [operator->] *)
Definition deref (it : const_iterator) : option (Z * Z) :=
  check (_base_iter it <? _end_iter it)%nat ;;
  Some (_current_value it).

Definition arrow (it : const_iterator) : option (Z * Z) :=
  check (_base_iter it <? _end_iter it)%nat ;;
  Some (_current_value it).

(** The body shared by both increments. *)
Definition advance (it : const_iterator) : const_iterator :=
  let base :=
    if (_base_iter it <? _end_iter it)%nat
       && tagged (word_at (_store it) (_base_iter it))
    then S (_base_iter it) else _base_iter it in
  make_iterator (_store it) (S base) (_end_iter it).

(** Postfix increment: the returned copy and the advanced iterator. *)
Definition post_increment (it : const_iterator)
  : option (const_iterator * const_iterator) :=
  Some (it, advance it).

(** Prefix increment. *)
Definition pre_increment (it : const_iterator) : option const_iterator :=
  Some (advance it).

(** Constructors. *)
Definition IRV_from_vector (ws : list Z) : IntegralRangeVector :=
  mkIRV ws None.
Definition IRV_empty : IntegralRangeVector := mkIRV [] (Some 0).

(** [std::vector<T>::max_size()] with [std::allocator] on a 64-bit
    platform: [PTRDIFF_MAX / sizeof(T)].  A capacity request above it
    throws [std::length_error]; the model has no other memory limit: a
    request within it is taken to succeed. *)
Definition vector_max_size : Z := (2 ^ 63 - 1) / (bits t / 8).

(** [reserve]: the assertion, then [_rangeVect.reserve(2 * size)],
    which leaves the words as they are or throws. *)
Definition reserve (c : IntegralRangeVector) (size : Z)
  : option IntegralRangeVector :=
  check (size <? Z.shiftr (2 ^ 64 - 1) 1) ;;
  check (2 * size <=? vector_max_size) ;;
  Some c.

(** [push_back(value_type val)] *)
Definition push_back (c : IntegralRangeVector) (val : Z * Z)
  : option IntegralRangeVector :=
  let first := fst val in
  let second := snd val in
  check (and_mask t first =? 0) ;;
  check (and_mask t second =? 0) ;;
  let len := option_map (fun n => to_size (n + sub_T t second first))
                        (_length c) in
  let ws := _rangeVect c in
  let fresh :=
    match sub_T t second first with
    | 0 => ws
    | 1 => ws ++ [first]
    | _ => ws ++ [to_T t (or_mask t first); to_T t (or_mask t second)]
    end in
  if negb (is_empty ws) && (0 <? sub_T t second first) then
    if (0 <? and_mask t (back ws)) && (unmask t (back ws) =? first) then
      Some (mkIRV (set_back ws (to_T t (or_mask t second))) len)
    else if (and_mask t (back ws) =? 0)
            && (unmask t (back ws) =? sub_T t first 1) then
      Some (mkIRV (set_back ws (to_T t (or_mask t (back ws)))
                     ++ [to_T t (or_mask t second)]) len)
    else Some (mkIRV fresh len)
  else Some (mkIRV fresh len).

(** [push_back(T val)] *)
Definition push_back_value (c : IntegralRangeVector) (val : Z)
  : option IntegralRangeVector :=
  check (and_mask t val =? 0) ;;
  let len := option_map (fun n => to_size (n + 1)) (_length c) in
  let ws := _rangeVect c in
  if negb (is_empty ws) then
    if (0 <? and_mask t (back ws)) && (unmask t (back ws) =? val) then
      Some (mkIRV (set_back ws (to_T t (or_mask t (add_T t val 1)))) len)
    else if (and_mask t (back ws) =? 0)
            && (unmask t (back ws) =? sub_T t val 1) then
      Some (mkIRV (set_back ws (to_T t (or_mask t (back ws)))
                     ++ [to_T t (or_mask t (add_T t val 1))]) len)
    else Some (mkIRV (ws ++ [val]) len)
  else Some (mkIRV (ws ++ [val]) len).

(** [operator==], [getBase], [empty] *)
Definition IRV_eqb (a b : IntegralRangeVector) : bool :=
  vector_eqb (_rangeVect a) (_rangeVect b).
Definition getBase (c : IntegralRangeVector) : list Z := _rangeVect c.
Definition empty (c : IntegralRangeVector) : bool := is_empty (_rangeVect c).

(** [cbegin]/[begin] and [cend]/[end] *)
Definition cbegin (c : IntegralRangeVector) : const_iterator :=
  make_iterator (_rangeVect c) 0 (length (_rangeVect c)).
Definition cend (c : IntegralRangeVector) : const_iterator :=
  make_iterator (_rangeVect c) (length (_rangeVect c)) (length (_rangeVect c)).

(** The range-based loop [for (const auto &range : *this) body]:
    [for (it = begin(); it != end(); ++it) { range = *it; body }]. *)
Fixpoint for_ranges {A : Type} (fuel : nat) (it end_ : const_iterator)
         (body : A -> Z * Z -> A) (acc : A) : option A :=
  match fuel with
  | O => None
  | S fuel' =>
      if iter_ne it end_ then
        range <- deref it ;;
        it' <- pre_increment it ;;
        for_ranges fuel' it' end_ body (body acc range)
      else Some acc
  end.

(** Every step of the loop moves the position by at least one word,
    so it visits at most [size + 1] positions. *)
Definition loop_bound (c : IntegralRangeVector) : nat :=
  S (length (_rangeVect c)).

(** [toVector].  The capacity requests [result.reserve(...)] do not
    change what is returned and are left out with every allocation of
    the result: the enumeration is that of a machine with memory for
    it.  Where a request cannot be met the code throws and has no
    result; a request above [max_size()] arises from a range whose
    last endpoint is below its first, which no well-formed container
    holds. *)
Definition toVector (c : IntegralRangeVector) : option (list Z) :=
  for_ranges (loop_bound c) (cbegin c) (cend c)
    (fun result range =>
       result ++ values_between (fst range) (snd range))
    [].

(** [length]: the value returned and the container with its cache. *)
Definition length_ (c : IntegralRangeVector)
  : option (Z * IntegralRangeVector) :=
  match _length c with
  | Some n => Some (n, c)
  | None =>
      n <- for_ranges (loop_bound c) (cbegin c) (cend c)
             (fun len range =>
                to_size (len + sub_T t (snd range) (fst range)))
             0 ;;
      Some (n, mkIRV (_rangeVect c) (Some n))
  end.

End Container.

(** The containers of the tests, built by repeated [push_back]. *)
Definition push_all (t : width) (vals : list (Z * Z))
  : option IntegralRangeVector :=
  fold_left (fun acc val => c <- acc ;; push_back t c val) vals (Some IRV_empty).

Definition push_all_values (t : width) (vals : list Z)
  : option IntegralRangeVector :=
  fold_left (fun acc val => c <- acc ;; push_back_value t c val) vals
            (Some IRV_empty).

(** "Insert concatenate single value": the values [0 .. 1023] on
    [uint32_t] become the one range [(0, 1024)]. *)
Example test_insert_concatenate_single :
  (c <- push_all_values W32 (values_between 0 1024) ;;
   r <- length_ W32 c ;;
   Some (getBase c, fst r))
  = Some ([mask W32; 1024 + mask W32], 1024).
Proof. vm_compute. reflexivity. Qed.

(** "Insert concatenate": the ranges [(i*i, (i+1)*(i+1))]. *)
Example test_insert_concatenate :
  (c <- push_all W32 (map (fun i => (i * i, (i + 1) * (i + 1)))
                          (values_between 0 1024)) ;;
   r <- length_ W32 c ;;
   Some (getBase c, fst r))
  = Some ([mask W32; 1024 * 1024 + mask W32], 1024 * 1024).
Proof. vm_compute. reflexivity. Qed.

(** "Insert single value": the even values stay single words. *)
Example test_insert_single :
  option_map getBase
    (push_all_values W32 (map (fun i => i * 2) (values_between 0 1024)))
  = Some (map (fun i => i * 2) (values_between 0 1024)).
Proof. vm_compute. reflexivity. Qed.

(** "Comparators", on an empty [uint8_t] container. *)
Example test_comparators_empty :
  (iter_eq (cbegin W8 (IRV_from_vector [])) (cend W8 (IRV_from_vector []))
   = true) /\
  (option_map (fun r => iter_eq (fst r) (cend W8 (IRV_from_vector [])))
              (post_increment W8 (cbegin W8 (IRV_from_vector [])))
   = Some true) /\
  (option_map (fun it => iter_gt it (cend W8 (IRV_from_vector [])))
              (pre_increment W8 (cbegin W8 (IRV_from_vector [])))
   = Some true).
Proof. repeat split. Qed.


(* ================================================================== *)
(** ** Ranges and the sets they denote *)

(** [x] lies in one of the half-open ranges of [rs]. *)
Fixpoint contains (rs : list (Z * Z)) (x : Z) : Prop :=
  match rs with
  | [] => False
  | r :: rest => (fst r <= x < snd r) \/ contains rest x
  end.

(** Every range is non-empty and starts strictly after the previous
    endpoint [prev]: strictly ascending and non-touching. *)
Fixpoint canon_from (prev : Z) (rs : list (Z * Z)) : Prop :=
  match rs with
  | [] => True
  | r :: rest => prev < fst r /\ fst r < snd r /\ canon_from (snd r) rest
  end.

Definition canonical (rs : list (Z * Z)) : Prop := canon_from (-1) rs.

(** Every range is non-empty and starts at or after the previous
    endpoint: ascending and non-overlapping, touching allowed. *)
Fixpoint sorted_from (prev : Z) (rs : list (Z * Z)) : Prop :=
  match rs with
  | [] => True
  | r :: rest => prev <= fst r /\ fst r < snd r /\ sorted_from (snd r) rest
  end.

Definition sorted_ranges (rs : list (Z * Z)) : Prop := sorted_from 0 rs.

(** The last endpoint of the last range; [prev] when there is none. *)
Fixpoint last_end (prev : Z) (rs : list (Z * Z)) : Z :=
  match rs with
  | [] => prev
  | r :: rest => last_end (snd r) rest
  end.

(** Sum of [last - first] over the ranges. *)
Fixpoint total_length (rs : list (Z * Z)) : Z :=
  match rs with
  | [] => 0
  | r :: rest => (snd r - fst r) + total_length rest
  end.

(** All the values of the ranges, in order. *)
Definition expand (rs : list (Z * Z)) : list Z :=
  flat_map (fun r => values_between (fst r) (snd r)) rs.

(** What appending [first, last) to a coalesced sequence must give:
    nothing for an empty range, a longer tail when it abuts the tail, a
    new range otherwise. *)
Fixpoint append_range (rs : list (Z * Z)) (first last : Z) : list (Z * Z) :=
  match rs with
  | [] => [(first, last)]
  | [r] => if snd r =? first then [(fst r, last)] else [r; (first, last)]
  | r :: rest => r :: append_range rest first last
  end.

Section Decoding.
Variable t : width.

(** The ranges an iteration from [begin] to [end] yields. *)
Fixpoint decode (ws : list Z) : list (Z * Z) :=
  match ws with
  | [] => []
  | x :: rest =>
      if tagged t x then
        match rest with
        | y :: rest' =>
            (to_T t (unmask t x), to_T t (unmask t y)) :: decode rest'
        | [] => []
        end
      else (x, to_T t (add_T t x 1)) :: decode rest
  end.

(** Tagged words occur in consecutive pairs. *)
Fixpoint paired (ws : list Z) : bool :=
  match ws with
  | [] => true
  | x :: rest =>
      if tagged t x then
        match rest with
        | y :: rest' => tagged t y && paired rest'
        | [] => false
        end
      else paired rest
  end.

(** The invariants of a stored word sequence. *)
Definition wf_words (ws : list Z) : Prop :=
  Forall (typed t) ws /\
  paired ws = true /\
  canonical (decode ws) /\
  Forall (fun r => snd r < mask t) (decode ws).

Definition wf (c : IntegralRangeVector) : Prop := wf_words (_rangeVect c).

(** The stored form of one range: a plain word for a singleton, two
    tagged words otherwise. *)
Definition encode_range (r : Z * Z) : list Z :=
  if snd r - fst r =? 1 then [fst r]
  else [fst r + mask t; snd r + mask t].

Definition encode (rs : list (Z * Z)) : list Z := flat_map encode_range rs.

(** The append precondition of [push_back] for the range
    [[first, last)]: [first <= last], both endpoints below [mask], and
    [first] not before the last stored endpoint. *)
Definition push_pre (c : IntegralRangeVector) (first last : Z) : Prop :=
  0 <= first <= last /\ last < mask t /\
  last_end 0 (decode (_rangeVect c)) <= first.

End Decoding.

(* ------------------------------------------------------------------ *)
(** *** Range lists *)

Lemma canon_from_weaken (p q : Z) (rs : list (Z * Z)) :
  q <= p -> canon_from p rs -> canon_from q rs.
Proof. destruct rs; simpl; intuition lia. Qed.

Lemma canon_from_lower (p : Z) (rs : list (Z * Z)) (x : Z) :
  canon_from p rs -> contains rs x -> p < x.
Proof.
  revert p. induction rs as [|r rs IH]; simpl; intros p Hc Hx; [tauto|].
  destruct Hc as (H1 & H2 & H3). destruct Hx as [Hx | Hx]; [lia|].
  specialize (IH _ H3 Hx). lia.
Qed.

Lemma canon_from_app (p : Z) (rs : list (Z * Z)) (f l : Z) :
  canon_from p (rs ++ [(f, l)]) <->
  canon_from p rs /\ last_end p rs < f /\ f < l.
Proof.
  revert p. induction rs as [|r rs IH]; simpl; intros p.
  - tauto.
  - rewrite IH. tauto.
Qed.

Lemma canon_sorted (p : Z) (rs : list (Z * Z)) :
  canon_from p rs -> sorted_from (p + 1) rs.
Proof.
  revert p. induction rs as [|r rs IH]; simpl; intros p; [tauto|].
  intros (H1 & H2 & H3). repeat split; try lia.
  apply IH in H3. destruct rs; simpl in *; intuition lia.
Qed.

Lemma sorted_from_weaken (p q : Z) (rs : list (Z * Z)) :
  q <= p -> sorted_from p rs -> sorted_from q rs.
Proof. destruct rs; simpl; intuition lia. Qed.

Lemma sorted_from_lower (p : Z) (rs : list (Z * Z)) (x : Z) :
  sorted_from p rs -> contains rs x -> p <= x.
Proof.
  revert p. induction rs as [|r rs IH]; simpl; intros p Hc Hx; [tauto|].
  destruct Hc as (H1 & H2 & H3). destruct Hx as [Hx | Hx]; [lia|].
  specialize (IH _ H3 Hx). lia.
Qed.

Lemma last_end_app (p : Z) (rs : list (Z * Z)) (f l : Z) :
  last_end p (rs ++ [(f, l)]) = l.
Proof. revert p. induction rs; simpl; auto. Qed.

Lemma contains_app (rs qs : list (Z * Z)) (x : Z) :
  contains (rs ++ qs) x <-> contains rs x \/ contains qs x.
Proof. induction rs; simpl; tauto. Qed.

Lemma total_length_app (rs qs : list (Z * Z)) :
  total_length (rs ++ qs) = total_length rs + total_length qs.
Proof. induction rs; simpl; lia. Qed.

Lemma last_end_le (p : Z) (rs : list (Z * Z)) :
  sorted_from p rs -> p <= last_end p rs.
Proof.
  revert p. induction rs as [|r rs IH]; simpl; intros p; [lia|].
  intros (H1 & H2 & H3). specialize (IH _ H3). lia.
Qed.

(** Two coalesced sequences denoting the same set are the same
    sequence. *)
Lemma canonical_unique (rs qs : list (Z * Z)) (p : Z) :
  canon_from p rs -> canon_from p qs ->
  (forall x, contains rs x <-> contains qs x) ->
  rs = qs.
Proof.
  revert qs p. induction rs as [|[a b] rs IH]; intros [|[a' b'] qs] p Hr Hq Heq.
  - reflexivity.
  - simpl in Hq. exfalso. apply (Heq a'). simpl. lia.
  - simpl in Hr. exfalso. apply (Heq a). simpl. lia.
  - simpl in Hr, Hq.
    destruct Hr as (Hr1 & Hr2 & Hr3), Hq as (Hq1 & Hq2 & Hq3).
    assert (Ha : a = a').
    { assert (H1 : contains ((a, b) :: rs) a') by (apply Heq; simpl; lia).
      assert (H2 : contains ((a', b') :: qs) a) by (apply Heq; simpl; lia).
      simpl in H1, H2.
      destruct H1 as [H1 | H1]; [|apply (canon_from_lower _ _ _ Hr3) in H1];
      destruct H2 as [H2 | H2]; [|apply (canon_from_lower _ _ _ Hq3) in H2| |
                                  apply (canon_from_lower _ _ _ Hq3) in H2];
      lia. }
    subst a'.
    assert (Hb : b = b').
    { destruct (Z.lt_trichotomy b b') as [Hlt | [-> | Hlt]]; [|reflexivity|].
      - assert (H1 : contains ((a, b) :: rs) b) by (apply Heq; simpl; lia).
        simpl in H1. destruct H1 as [H1 | H1]; [lia|].
        apply (canon_from_lower _ _ _ Hr3) in H1. lia.
      - assert (H1 : contains ((a, b') :: qs) b') by (apply Heq; simpl; lia).
        simpl in H1. destruct H1 as [H1 | H1]; [lia|].
        apply (canon_from_lower _ _ _ Hq3) in H1. lia. }
    subst b'. f_equal.
    apply (IH qs b Hr3 Hq3). intros x. split; intros Hx.
    + pose proof (canon_from_lower _ _ _ Hr3 Hx).
      assert (H1 : contains ((a, b) :: qs) x) by (apply Heq; simpl; auto).
      simpl in H1. destruct H1 as [H1 | H1]; [lia | exact H1].
    + pose proof (canon_from_lower _ _ _ Hq3 Hx).
      assert (H1 : contains ((a, b) :: rs) x) by (apply Heq; simpl; auto).
      simpl in H1. destruct H1 as [H1 | H1]; [lia | exact H1].
Qed.

Lemma append_range_snoc (rs : list (Z * Z)) (a b f l : Z) :
  append_range (rs ++ [(a, b)]) f l =
  if b =? f then rs ++ [(a, l)] else rs ++ [(a, b); (f, l)].
Proof.
  induction rs as [|r rs IH]; simpl.
  - reflexivity.
  - destruct (rs ++ [(a, b)]) eqn:E.
    + destruct rs; discriminate.
    + rewrite IH. destruct (b =? f); reflexivity.
Qed.

Lemma contains_append_range (rs : list (Z * Z)) (f l x : Z) :
  sorted_from 0 rs -> last_end 0 rs <= f -> f < l ->
  (contains (append_range rs f l) x <-> contains rs x \/ f <= x < l).
Proof.
  revert f l. induction rs as [|[a b] rs IH] using rev_ind; intros f l Hs Hl Hfl.
  - simpl. tauto.
  - rewrite append_range_snoc. rewrite last_end_app in Hl.
    assert (Hab : a < b).
    { clear - Hs. revert Hs. generalize 0. induction rs as [|r rs IH']; simpl.
      - intros; lia.
      - intros z (_ & _ & H). eapply IH'; eauto. }
    destruct (Z.eqb_spec b f) as [-> | Hne];
      rewrite !contains_app; simpl; intuition lia.
Qed.

(* ------------------------------------------------------------------ *)
(** *** Decoding a word sequence *)

Section DecodingFacts.
Variable t : width.

Lemma tagged_true (x : Z) :
  typed t x -> tagged t x = true -> mask t <= x < modulus t.
Proof.
  unfold typed, tagged. intros Hx Ht.
  destruct (Z.lt_ge_cases x (mask t)) as [Hlt | Hge]; [|lia].
  rewrite and_mask_low in Ht by lia. discriminate.
Qed.

Lemma tagged_false (x : Z) :
  typed t x -> tagged t x = false -> 0 <= x < mask t.
Proof.
  unfold typed, tagged. intros Hx Ht.
  destruct (Z.lt_ge_cases x (mask t)) as [Hlt | Hge]; [lia|].
  rewrite and_mask_high in Ht by lia.
  pose proof (mask_pos t). destruct (Z.eqb_spec (mask t) 0); [lia | discriminate].
Qed.

Lemma tagged_low (x : Z) : 0 <= x < mask t -> tagged t x = false.
Proof. intros Hx. unfold tagged. rewrite and_mask_low by assumption. reflexivity. Qed.

Lemma tagged_high (x : Z) : mask t <= x < modulus t -> tagged t x = true.
Proof.
  intros Hx. unfold tagged. rewrite and_mask_high by assumption.
  pose proof (mask_pos t). destruct (Z.eqb_spec (mask t) 0); [lia | reflexivity].
Qed.

(** Induction following the pairing of tagged words. *)
Lemma paired_ind (P : list Z -> Prop) :
  P [] ->
  (forall x rest, tagged t x = false -> paired t rest = true ->
                  P rest -> P (x :: rest)) ->
  (forall x y rest, tagged t x = true -> tagged t y = true ->
                    paired t rest = true -> P rest -> P (x :: y :: rest)) ->
  forall ws, paired t ws = true -> P ws.
Proof.
  intros Hnil Hone Htwo ws.
  assert (H : forall n ws, (length ws <= n)%nat -> paired t ws = true -> P ws).
  { induction n as [|n IH]; intros [|x rest] Hlen Hp; simpl in *; auto; try lia.
    destruct (tagged t x) eqn:Hx.
    - destruct rest as [|y rest]; [discriminate|].
      apply andb_prop in Hp. destruct Hp as [Hy Hp].
      apply Htwo; auto. apply IH; auto. simpl in Hlen. lia.
    - apply Hone; auto. apply IH; auto. lia. }
  apply (H (length ws)). lia.
Qed.

Lemma paired_app (ws vs : list Z) :
  paired t ws = true -> paired t (ws ++ vs) = paired t vs.
Proof.
  revert ws.
  apply (paired_ind (fun ws => paired t (ws ++ vs) = paired t vs)).
  - reflexivity.
  - intros x rest Hx _ IH. simpl. rewrite Hx. assumption.
  - intros x y rest Hx Hy _ IH. simpl. rewrite Hx, Hy. assumption.
Qed.

Lemma decode_app (ws vs : list Z) :
  paired t ws = true -> decode t (ws ++ vs) = decode t ws ++ decode t vs.
Proof.
  revert ws.
  apply (paired_ind (fun ws => decode t (ws ++ vs) = decode t ws ++ decode t vs)).
  - reflexivity.
  - intros x rest Hx _ IH. simpl. rewrite Hx. simpl. rewrite <- IH. reflexivity.
  - intros x y rest Hx Hy _ IH. simpl. rewrite Hx. simpl. rewrite <- IH. reflexivity.
Qed.

(** The view of a paired sequence from its back. *)
Inductive back_view : list Z -> Prop :=
| bv_nil : back_view []
| bv_single ws x :
    paired t ws = true -> tagged t x = false -> back_view (ws ++ [x])
| bv_pair ws x y :
    paired t ws = true -> tagged t x = true -> tagged t y = true ->
    back_view (ws ++ [x; y]).

Lemma paired_back_view (ws : list Z) : paired t ws = true -> back_view ws.
Proof.
  revert ws. apply (paired_ind back_view).
  - constructor.
  - intros x rest Hx _ IH.
    inversion IH as [E | ws' x' Hp' Hx' E | ws' x' y' Hp' Hx' Hy' E].
    + apply (bv_single [] x); auto.
    + rewrite app_comm_cons. apply bv_single; auto. simpl. rewrite Hx. assumption.
    + rewrite app_comm_cons. apply bv_pair; auto. simpl. rewrite Hx. assumption.
  - intros x y rest Hx Hy _ IH.
    inversion IH as [E | ws' x' Hp' Hx' E | ws' x' y' Hp' Hx' Hy' E].
    + apply (bv_pair [] x y); auto.
    + change (x :: y :: ws' ++ [x']) with ((x :: y :: ws') ++ [x']).
      apply bv_single; auto. simpl. rewrite Hx, Hy. assumption.
    + change (x :: y :: ws' ++ [x'; y']) with ((x :: y :: ws') ++ [x'; y']).
      apply bv_pair; auto. simpl. rewrite Hx, Hy. assumption.
Qed.

Lemma decode_single (x : Z) :
  0 <= x < mask t -> decode t [x] = [(x, x + 1)].
Proof.
  intros Hx. simpl. rewrite tagged_low by assumption.
  pose proof (modulus_eq t).
  rewrite add_T_small, to_T_small by lia. reflexivity.
Qed.

Lemma decode_pair (a b : Z) :
  0 <= a < mask t -> 0 <= b < mask t ->
  decode t [a + mask t; b + mask t] = [(a, b)].
Proof.
  intros Ha Hb. simpl. pose proof (modulus_eq t).
  rewrite tagged_high by lia.
  rewrite !unmask_high by lia.
  rewrite !to_T_small by lia.
  repeat f_equal; lia.
Qed.

Lemma paired_single (x : Z) : 0 <= x < mask t -> paired t [x] = true.
Proof. intros Hx. simpl. rewrite tagged_low by assumption. reflexivity. Qed.

Lemma paired_pair (a b : Z) :
  0 <= a < mask t -> 0 <= b < mask t ->
  paired t [a + mask t; b + mask t] = true.
Proof.
  intros Ha Hb. simpl. pose proof (modulus_eq t).
  rewrite !tagged_high by lia. reflexivity.
Qed.

Lemma back_snoc (ws : list Z) (x : Z) : back (ws ++ [x]) = x.
Proof. unfold back. apply last_last. Qed.

Lemma set_back_snoc (ws : list Z) (x y : Z) : set_back (ws ++ [x]) y = ws ++ [y].
Proof. unfold set_back. rewrite removelast_last. reflexivity. Qed.

Lemma is_empty_snoc (ws : list Z) (x : Z) : is_empty (ws ++ [x]) = false.
Proof. destruct ws; reflexivity. Qed.

Lemma switch_eq {A : Type} (d : Z) (a b c : A) :
  match d with 0 => a | 1 => b | _ => c end =
  if d =? 0 then a else if d =? 1 then b else c.
Proof. destruct d as [|[p|p|]|p]; reflexivity. Qed.

End DecodingFacts.

(* ------------------------------------------------------------------ *)
(** *** Appending to the container *)

Section PushBack.
Variable t : width.

Lemma encode_app (rs qs : list (Z * Z)) :
  encode t (rs ++ qs) = encode t rs ++ encode t qs.
Proof. unfold encode. apply flat_map_app. Qed.

Lemma encode_range_facts (a b : Z) :
  0 <= a -> a < b -> b < mask t ->
  decode t (encode_range t (a, b)) = [(a, b)] /\
  paired t (encode_range t (a, b)) = true /\
  Forall (typed t) (encode_range t (a, b)).
Proof.
  intros Ha Hab Hb. unfold encode_range. simpl fst. simpl snd.
  pose proof (modulus_eq t).
  destruct (Z.eqb_spec (b - a) 1) as [E | E].
  - replace b with (a + 1) by lia.
    rewrite decode_single, paired_single by lia.
    repeat split. repeat constructor; unfold typed; lia.
  - rewrite decode_pair, paired_pair by lia.
    repeat split. repeat constructor; unfold typed; lia.
Qed.

Lemma wf_words_nil : wf_words t [].
Proof. repeat split; simpl; auto. Qed.

Lemma wf_words_app (ws vs : list Z) :
  paired t ws = true ->
  (wf_words t (ws ++ vs) <->
   Forall (typed t) ws /\ Forall (typed t) vs /\ paired t vs = true /\
   canonical (decode t ws ++ decode t vs) /\
   Forall (fun r => snd r < mask t) (decode t ws ++ decode t vs)).
Proof.
  intros Hp. unfold wf_words.
  rewrite paired_app, decode_app, Forall_app by assumption. tauto.
Qed.

(** What the stored words look like from the back. *)
Inductive tail_view (ws : list Z) : Prop :=
| tv_nil : ws = [] -> tail_view ws
| tv_single ws' x :
    ws = ws' ++ [x] -> paired t ws' = true -> 0 <= x < mask t ->
    decode t ws = decode t ws' ++ [(x, x + 1)] -> tail_view ws
| tv_pair ws' a b :
    ws = ws' ++ [a + mask t; b + mask t] -> paired t ws' = true ->
    0 <= a < mask t -> 0 <= b < mask t ->
    decode t ws = decode t ws' ++ [(a, b)] -> tail_view ws.

Lemma wf_tail_view (ws : list Z) : wf_words t ws -> tail_view ws.
Proof.
  intros (Hty & Hp & _ & _).
  destruct (paired_back_view t ws Hp) as [|ws' x Hp' Hx|ws' x y Hp' Hx Hy].
  - apply tv_nil. reflexivity.
  - apply Forall_app in Hty. destruct Hty as [_ Hty].
    inversion Hty as [|? ? Htx _]; subst.
    pose proof (tagged_false t x Htx Hx) as Hlow.
    apply (tv_single _ ws' x); auto.
    rewrite decode_app, decode_single by assumption. reflexivity.
  - apply Forall_app in Hty. destruct Hty as [_ Hty].
    inversion Hty as [|? ? Htx Hty']; subst.
    inversion Hty' as [|? ? Hty'' _]; subst.
    pose proof (tagged_true t x Htx Hx) as Hhx.
    pose proof (tagged_true t y Hty'' Hy) as Hhy.
    pose proof (modulus_eq t).
    apply (tv_pair _ ws' (x - mask t) (y - mask t)); auto; try lia.
    + repeat f_equal; lia.
    + rewrite decode_app by assumption.
      replace x with ((x - mask t) + mask t) at 1 by lia.
      replace y with ((y - mask t) + mask t) at 1 by lia.
      rewrite decode_pair by lia. reflexivity.
Qed.

(** The stored words are the stored form of the ranges they decode
    to: no singleton is stored as a tagged pair. *)
Definition compact (ws : list Z) : Prop := ws = encode t (decode t ws).

Lemma fresh_words (ws : list Z) (f l : Z) :
  0 <= f -> f < l -> l < mask t ->
  match l - f with
  | 0 => ws
  | 1 => ws ++ [f]
  | _ => ws ++ [to_T t (or_mask t f); to_T t (or_mask t l)]
  end = ws ++ encode_range t (f, l).
Proof.
  intros Hf Hfl Hl. rewrite switch_eq. unfold encode_range. simpl fst; simpl snd.
  pose proof (modulus_eq t).
  destruct (Z.eqb_spec (l - f) 0); [lia|].
  destruct (Z.eqb_spec (l - f) 1); [reflexivity|].
  rewrite !or_mask_low, !to_T_small by lia. reflexivity.
Qed.

End PushBack.

Section PushBackSpec.
Variable t : width.

Lemma compact_snoc_single (ws : list Z) (x : Z) :
  paired t ws = true -> 0 <= x < mask t ->
  compact t (ws ++ [x]) -> compact t ws.
Proof.
  unfold compact. intros Hp Hx H.
  rewrite decode_app, decode_single, encode_app in H by assumption.
  simpl in H. unfold encode_range in H. simpl in H.
  replace (x + 1 - x) with 1 in H by lia. simpl in H.
  apply app_inj_tail in H. tauto.
Qed.

Lemma compact_snoc_pair (ws : list Z) (a b : Z) :
  paired t ws = true -> 0 <= a < mask t -> 0 <= b < mask t ->
  compact t (ws ++ [a + mask t; b + mask t]) ->
  compact t ws /\ b - a <> 1.
Proof.
  unfold compact. intros Hp Ha Hb H.
  rewrite decode_app, decode_pair, encode_app in H by assumption.
  simpl in H. unfold encode_range in H. simpl in H.
  destruct (Z.eqb_spec (b - a) 1) as [E | E]; simpl in H.
  - change (ws ++ [a + mask t; b + mask t])
      with (ws ++ [a + mask t] ++ [b + mask t]) in H.
    rewrite app_assoc in H. apply app_inj_tail in H. lia.
  - split; [|assumption].
    apply app_inv_tail in H. assumption.
Qed.

Lemma compact_app_range (ws : list Z) (a b : Z) :
  paired t ws = true -> 0 <= a -> a < b -> b < mask t ->
  compact t ws -> compact t (ws ++ encode_range t (a, b)).
Proof.
  unfold compact. intros Hp Ha Hab Hb H.
  destruct (encode_range_facts t a b Ha Hab Hb) as (Hd & _ & _).
  rewrite decode_app, Hd, encode_app by assumption.
  simpl. rewrite app_nil_r. rewrite <- H. reflexivity.
Qed.

Lemma compact_merge (ws : list Z) (a l : Z) :
  paired t ws = true -> 0 <= a -> a + 1 < l -> l < mask t ->
  compact t ws -> compact t (ws ++ [a + mask t; l + mask t]).
Proof.
  unfold compact. intros Hp Ha Hal Hl H.
  rewrite decode_app, decode_pair, encode_app by (assumption || lia).
  simpl. unfold encode_range. simpl.
  destruct (Z.eqb_spec (l - a) 1); [lia|].
  simpl. rewrite <- H. reflexivity.
Qed.

Lemma push_back_spec (c : IntegralRangeVector) (f l : Z) :
  wf t c -> push_pre t c f l ->
  exists ws',
    push_back t c (f, l) =
      Some (mkIRV ws' (option_map (fun n => to_size (n + (l - f))) (_length c)))
    /\ wf_words t ws'
    /\ decode t ws' = (if f =? l then decode t (_rangeVect c)
                       else append_range (decode t (_rangeVect c)) f l)
    /\ (compact t (_rangeVect c) -> compact t ws').
Proof.
  destruct c as [ws len]. unfold wf, push_pre. simpl.
  intros Hwf (Hfl & Hl & Hlast).
  pose proof (modulus_eq t) as Hmod. pose proof (mask_pos t) as Hmp.
  unfold push_back. simpl.
  rewrite (and_mask_low t f), (and_mask_low t l) by lia. simpl.
  rewrite (sub_T_le t l f) by lia.
  destruct (Z.eqb_spec f l) as [-> | Hne].
  - replace (l - l) with 0 by lia. rewrite andb_false_r. simpl.
    exists ws. auto.
  - assert (Hlt : f < l) by lia.
    assert (Hd : (0 <? l - f) = true) by (apply Z.ltb_lt; lia).
    rewrite Hd, andb_true_r.
    rewrite fresh_words by lia.
    destruct (encode_range_facts t f l) as (Ed & Ep & Et); try lia.
    destruct (wf_tail_view t ws Hwf) as [E | ws' x E Hp Hx Hdec | ws' a b E Hp Ha Hb Hdec].
    + subst ws. simpl. exists (encode_range t (f, l)).
      split; [reflexivity|]. split; [|split].
      * unfold wf_words. rewrite Ed, Ep.
        repeat split; auto; simpl; try lia; repeat constructor; simpl; lia.
      * exact Ed.
      * intros _. unfold compact. rewrite Ed. simpl. rewrite app_nil_r. reflexivity.
    + rewrite Hdec in *. rewrite last_end_app in Hlast. subst ws.
      apply wf_words_app in Hwf; [|assumption].
      destruct Hwf as (Hty1 & Hty2 & _ & Hcan & Hbd).
      rewrite decode_single in Hcan, Hbd by assumption.
      apply canon_from_app in Hcan. destruct Hcan as (Hc1 & Hc2 & _).
      apply Forall_app in Hbd. destruct Hbd as [Hbd _].
      rewrite is_empty_snoc, back_snoc. simpl.
      rewrite (and_mask_low t x), (unmask_low t x) by lia. simpl.
      rewrite (sub_T_le t f 1) by lia.
      rewrite append_range_snoc.
      destruct (Z.eqb_spec x (f - 1)) as [Ex | Ex].
      * destruct (Z.eqb_spec (x + 1) f) as [_ | ?]; [|lia].
        rewrite set_back_snoc.
        rewrite (or_mask_low t x), (or_mask_low t l), !to_T_small by lia.
        rewrite <- app_assoc. simpl.
        exists (ws' ++ [x + mask t; l + mask t]).
        split; [reflexivity|]. split; [|split].
        -- apply wf_words_app; [assumption|].
           rewrite decode_pair, paired_pair by lia.
           split; [assumption|].
           split; [repeat constructor; unfold typed; lia|].
           split; [reflexivity|]. split.
           ++ apply canon_from_app. repeat split; auto; lia.
           ++ apply Forall_app; split; auto; repeat constructor; simpl; lia.
        -- rewrite decode_app, decode_pair by (assumption || lia). reflexivity.
        -- intros Hc. apply compact_snoc_single in Hc; try assumption.
           apply compact_merge; auto; lia.
      * destruct (Z.eqb_spec (x + 1) f) as [? | _]; [lia|].
        exists ((ws' ++ [x]) ++ encode_range t (f, l)).
        assert (Hp2 : paired t (ws' ++ [x]) = true).
        { rewrite paired_app by assumption. apply paired_single. assumption. }
        split; [reflexivity|]. split; [|split].
        -- apply wf_words_app; [assumption|].
           rewrite Ed, Ep, decode_app, decode_single by assumption.
           split; [apply Forall_app; split; assumption|].
           split; [assumption|]. split; [reflexivity|]. split.
           ++ apply canon_from_app. rewrite last_end_app.
              split; [|lia].
              apply canon_from_app. repeat split; auto; lia.
           ++ repeat (apply Forall_app; split); auto;
                repeat constructor; simpl; lia.
        -- rewrite decode_app, Ed, decode_app, decode_single by assumption.
           rewrite <- app_assoc. reflexivity.
        -- intros Hc. apply compact_app_range; auto; lia.
    + rewrite Hdec in *. rewrite last_end_app in Hlast. subst ws.
      apply wf_words_app in Hwf; [|assumption].
      destruct Hwf as (Hty1 & Hty2 & _ & Hcan & Hbd).
      rewrite decode_pair in Hcan, Hbd by assumption.
      apply canon_from_app in Hcan. destruct Hcan as (Hc1 & Hc2 & Hc3).
      apply Forall_app in Hbd. destruct Hbd as [Hbd _].
      change (ws' ++ [a + mask t; b + mask t])
        with (ws' ++ [a + mask t] ++ [b + mask t]).
      rewrite app_assoc.
      rewrite is_empty_snoc, back_snoc. simpl.
      rewrite (and_mask_high t (b + mask t)), (unmask_high t (b + mask t)) by lia.
      replace (0 <? mask t) with true by (symmetry; apply Z.ltb_lt; lia).
      replace (mask t =? 0) with false by (symmetry; apply Z.eqb_neq; lia).
      simpl. replace (b + mask t - mask t) with b by lia.
      rewrite append_range_snoc.
      destruct (Z.eqb_spec b f) as [Eb | Eb].
      * rewrite set_back_snoc.
        rewrite (or_mask_low t l), to_T_small by lia.
        rewrite <- app_assoc. simpl.
        exists (ws' ++ [a + mask t; l + mask t]).
        split; [reflexivity|]. split; [|split].
        -- apply wf_words_app; [assumption|].
           rewrite decode_pair, paired_pair by lia.
           split; [assumption|].
           split; [repeat constructor; unfold typed; lia|].
           split; [reflexivity|]. split.
           ++ apply canon_from_app. repeat split; auto; lia.
           ++ apply Forall_app; split; auto; repeat constructor; simpl; lia.
        -- rewrite decode_app, decode_pair by (assumption || lia). reflexivity.
        -- intros Hc. rewrite <- app_assoc in Hc. simpl in Hc.
           apply compact_snoc_pair in Hc; try assumption.
           apply compact_merge; auto; try lia. tauto.
      * rewrite <- (app_assoc ws' [a + mask t] [b + mask t]). simpl.
        exists ((ws' ++ [a + mask t; b + mask t]) ++ encode_range t (f, l)).
        assert (Hp2 : paired t (ws' ++ [a + mask t; b + mask t]) = true).
        { rewrite paired_app by assumption. apply paired_pair; assumption. }
        split; [reflexivity|]. split; [|split].
        -- apply wf_words_app; [assumption|].
           rewrite Ed, Ep, decode_app, decode_pair by assumption.
           split; [apply Forall_app; split; assumption|].
           split; [assumption|]. split; [reflexivity|]. split.
           ++ apply canon_from_app. rewrite last_end_app.
              split; [|lia].
              apply canon_from_app. repeat split; auto; lia.
           ++ repeat (apply Forall_app; split); auto;
                repeat constructor; simpl; lia.
        -- rewrite decode_app, Ed, decode_app, decode_pair by assumption.
           rewrite <- app_assoc. reflexivity.
        -- intros Hc. apply compact_app_range; auto; lia.
Qed.

End PushBackSpec.

(* ------------------------------------------------------------------ *)
(** *** Iterating over the container *)

Section Iteration.
Variable t : width.

(** The iterator standing at the start of [suf], after the words [pre]. *)
Definition iter_at (pre suf : list Z) : const_iterator :=
  make_iterator t (pre ++ suf) (length pre) (length (pre ++ suf)).

Lemma word_at_middle (pre : list Z) (x : Z) (rest : list Z) :
  word_at (pre ++ x :: rest) (length pre) = x.
Proof. unfold word_at. apply nth_middle. Qed.

Lemma word_at_next (pre : list Z) (x y : Z) (rest : list Z) :
  word_at (pre ++ x :: y :: rest) (length pre + 1) = y.
Proof. unfold word_at. rewrite app_nth2_plus. reflexivity. Qed.

Lemma iter_at_shift (pre mid suf : list Z) (n : nat) :
  n = length (pre ++ mid) ->
  make_iterator t (pre ++ mid ++ suf) n (length (pre ++ mid ++ suf))
  = iter_at (pre ++ mid) suf.
Proof. intros ->. unfold iter_at. rewrite <- app_assoc. reflexivity. Qed.

Lemma iter_at_base_lt (pre : list Z) (x : Z) (rest : list Z) :
  (length pre <? length (pre ++ x :: rest))%nat = true.
Proof. apply Nat.ltb_lt. rewrite length_app. simpl. lia. Qed.

Lemma iter_at_end_le (pre : list Z) (x : Z) (rest : list Z) :
  (length (pre ++ x :: rest) <=? length pre)%nat = false.
Proof. apply Nat.leb_gt. rewrite length_app. simpl. lia. Qed.

Lemma value_single (pre : list Z) (x : Z) (rest : list Z) :
  tagged t x = false ->
  calculate_value t (pre ++ x :: rest) (length pre) (length (pre ++ x :: rest))
  = (x, to_T t (add_T t x 1)).
Proof.
  intros Hx. unfold calculate_value.
  rewrite iter_at_end_le, word_at_middle, Hx. reflexivity.
Qed.

Lemma value_pair (pre : list Z) (x y : Z) (rest : list Z) :
  tagged t x = true ->
  calculate_value t (pre ++ x :: y :: rest) (length pre)
                  (length (pre ++ x :: y :: rest))
  = (to_T t (unmask t x), to_T t (unmask t y)).
Proof.
  intros Hx. unfold calculate_value.
  rewrite iter_at_end_le, word_at_middle, word_at_next, Hx. reflexivity.
Qed.

Lemma advance_single (pre : list Z) (x : Z) (rest : list Z) :
  tagged t x = false ->
  advance t (iter_at pre (x :: rest)) = iter_at (pre ++ [x]) rest.
Proof.
  intros Hx. unfold advance. unfold iter_at at 1 2 3 4 5. simpl.
  rewrite word_at_middle, Hx, andb_false_r.
  apply (iter_at_shift pre [x] rest).
  rewrite length_app. simpl. lia.
Qed.

Lemma advance_pair (pre : list Z) (x y : Z) (rest : list Z) :
  tagged t x = true ->
  advance t (iter_at pre (x :: y :: rest)) = iter_at (pre ++ [x; y]) rest.
Proof.
  intros Hx. unfold advance. unfold iter_at at 1 2 3 4 5. simpl.
  rewrite word_at_middle, Hx, iter_at_base_lt. simpl.
  apply (iter_at_shift pre [x; y] rest).
  rewrite length_app. simpl. lia.
Qed.

Lemma iter_ne_cons (pre : list Z) (x : Z) (rest : list Z) (e : const_iterator) :
  _base_iter e = length (pre ++ x :: rest) ->
  iter_ne (iter_at pre (x :: rest)) e = true.
Proof.
  intros He. unfold iter_ne. simpl. rewrite He.
  apply negb_true_iff, Nat.eqb_neq. rewrite length_app. simpl. lia.
Qed.

Lemma deref_cons (pre : list Z) (x : Z) (rest : list Z) :
  deref (iter_at pre (x :: rest))
  = Some (calculate_value t (pre ++ x :: rest) (length pre)
                          (length (pre ++ x :: rest))).
Proof. unfold deref. simpl. rewrite iter_at_base_lt. reflexivity. Qed.

(** On a paired word sequence the loop visits the decoded ranges. *)
Lemma for_ranges_decode {A : Type} (body : A -> Z * Z -> A) :
  forall (fuel : nat) (suf pre : list Z) (acc : A) (e : const_iterator),
    paired t suf = true ->
    (length suf < fuel)%nat ->
    _base_iter e = length (pre ++ suf) ->
    for_ranges t fuel (iter_at pre suf) e body acc
    = Some (fold_left body (decode t suf) acc).
Proof.
  induction fuel as [|fuel IH]; intros suf pre acc e Hp Hlen He; [lia|].
  destruct suf as [|x rest].
  - simpl. unfold iter_ne. simpl. rewrite He, app_nil_r, Nat.eqb_refl.
    reflexivity.
  - simpl for_ranges. rewrite iter_ne_cons, deref_cons by assumption.
    simpl bind. unfold pre_increment. simpl bind.
    simpl in Hp. simpl decode.
    destruct (tagged t x) eqn:Hx.
    + destruct rest as [|y rest]; [discriminate|].
      apply andb_prop in Hp. destruct Hp as [_ Hp].
      rewrite value_pair, advance_pair by assumption.
      simpl fold_left. apply IH; auto.
      * simpl in Hlen. lia.
      * rewrite He, <- app_assoc. reflexivity.
    + rewrite value_single, advance_single by assumption.
      simpl fold_left. apply IH; auto.
      * simpl in Hlen. lia.
      * rewrite He, <- app_assoc. reflexivity.
Qed.

Lemma for_ranges_container {A : Type} (body : A -> Z * Z -> A)
      (c : IntegralRangeVector) (acc : A) :
  paired t (_rangeVect c) = true ->
  for_ranges t (loop_bound c) (cbegin t c) (cend t c) body acc
  = Some (fold_left body (decode t (_rangeVect c)) acc).
Proof.
  intros Hp.
  apply (for_ranges_decode body (loop_bound c) (_rangeVect c) [] acc (cend t c)).
  - assumption.
  - unfold loop_bound. lia.
  - reflexivity.
Qed.

Lemma fold_expand (rs : list (Z * Z)) (acc : list Z) :
  fold_left (fun result range =>
               result ++ values_between (fst range) (snd range)) rs acc
  = acc ++ expand rs.
Proof.
  revert acc. induction rs as [|r rs IH]; intros acc; simpl.
  - rewrite app_nil_r. reflexivity.
  - rewrite IH, <- app_assoc. reflexivity.
Qed.

Lemma toVector_decode (c : IntegralRangeVector) :
  paired t (_rangeVect c) = true ->
  toVector t c = Some (expand (decode t (_rangeVect c))).
Proof.
  intros Hp. unfold toVector. rewrite for_ranges_container by assumption.
  rewrite fold_expand. reflexivity.
Qed.

End Iteration.

(* ------------------------------------------------------------------ *)
(** *** The two overloads of [push_back] *)

Section Overloads.
Variable t : width.

(** Below the boundary the single-value overload is the range overload
    at [[v, v+1)]. *)
Lemma push_back_value_as_range (c : IntegralRangeVector) (v : Z) :
  0 <= v -> v + 1 < mask t ->
  push_back_value t c v = push_back t c (v, v + 1).
Proof.
  intros Hv Hv1. pose proof (modulus_eq t) as Hmod.
  unfold push_back_value, push_back. simpl fst. simpl snd.
  rewrite (and_mask_low t v), (and_mask_low t (v + 1)) by lia.
  rewrite (sub_T_le t (v + 1) v) by lia.
  rewrite (add_T_small t v 1) by lia.
  replace (v + 1 - v) with 1 by lia.
  simpl. rewrite andb_true_r. reflexivity.
Qed.

Lemma push_back_value_spec (c : IntegralRangeVector) (v : Z) :
  wf t c -> push_pre t c v (v + 1) ->
  exists ws',
    push_back_value t c v =
      Some (mkIRV ws' (option_map (fun n => to_size (n + 1)) (_length c)))
    /\ wf_words t ws'
    /\ decode t ws' = append_range (decode t (_rangeVect c)) v (v + 1)
    /\ (compact t (_rangeVect c) -> compact t ws').
Proof.
  intros Hwf Hpre.
  destruct (push_back_spec t c v (v + 1) Hwf Hpre) as (ws' & H1 & H2 & H3 & H4).
  destruct Hpre as (Hv & Hv1 & _).
  exists ws'. rewrite push_back_value_as_range by lia.
  replace (v + 1 - v) with 1 in H1 by lia.
  destruct (Z.eqb_spec v (v + 1)); [lia|]. auto.
Qed.

End Overloads.

(** C4. An append that honours its precondition ([first <= last], both
    endpoints below [mask], [first] not before the last stored
    endpoint) keeps the stored words well formed: tagged words in
    consecutive pairs, decoded ranges non-empty, strictly ascending and
    pairwise non-touching, all endpoints below [mask].  This holds for
    every call of the range overload that honours the precondition,
    and for every call of the single-value overload that does, its
    range being [[v, v+1)]; each overload under its own precondition
    only. *)
Theorem push_back_preserves_wf (t : width) (c : IntegralRangeVector) :
  wf t c ->
  (forall first last,
      push_pre t c first last ->
      exists c', push_back t c (first, last) = Some c' /\ wf t c') /\
  (forall v,
      push_pre t c v (v + 1) ->
      exists c', push_back_value t c v = Some c' /\ wf t c').
Proof.
  intros Hwf. split.
  - intros first last Hr.
    destruct (push_back_spec t c first last Hwf Hr) as (ws' & H1 & H2 & _).
    eexists. split; [exact H1 | exact H2].
  - intros v Hv.
    destruct (push_back_value_spec t c v Hwf Hv) as (ws' & H1 & H2 & _).
    eexists. split; [exact H1 | exact H2].
Qed.

(** Closing goals on concrete containers. *)
Ltac by_computation :=
  repeat match goal with
         | |- _ /\ _ => split
         | |- Forall _ _ => constructor
         | |- True => exact I
         end;
  try reflexivity;
  try (unfold typed, modulus; simpl; lia);
  try (cbn; lia).

Lemma wf_sample : wf W8 (mkIRV [3; 133; 137] (Some 5)).
Proof. unfold wf, wf_words. by_computation. Qed.

(** A container on [uint8_t] whose last range ends at [mask - 1]:
    the range [[0, 127)]. *)
Definition full_container : IntegralRangeVector := mkIRV [128; 255] None.

Lemma wf_full : wf W8 full_container.
Proof. unfold wf, wf_words. by_computation. Qed.

Lemma push_back_preserves_wf_witness :
  (wf W8 (mkIRV [3; 133; 137] (Some 5)) /\
   push_pre W8 (mkIRV [3; 133; 137] (Some 5)) 9 20 /\
   push_pre W8 (mkIRV [3; 133; 137] (Some 5)) 12 (12 + 1) /\
   (exists c', push_back W8 (mkIRV [3; 133; 137] (Some 5)) (9, 20) = Some c'
               /\ wf W8 c') /\
   (exists c', push_back_value W8 (mkIRV [3; 133; 137] (Some 5)) 12 = Some c'
               /\ wf W8 c')) /\
  (wf W8 full_container /\
   push_pre W8 full_container 127 127 /\
   exists c', push_back W8 full_container (127, 127) = Some c' /\ wf W8 c').
Proof.
  assert (H1 : wf W8 (mkIRV [3; 133; 137] (Some 5))) by exact wf_sample.
  assert (H2 : push_pre W8 (mkIRV [3; 133; 137] (Some 5)) 9 20)
    by (unfold push_pre; by_computation).
  assert (H3 : push_pre W8 (mkIRV [3; 133; 137] (Some 5)) 12 (12 + 1))
    by (unfold push_pre; by_computation).
  assert (H4 : wf W8 full_container) by exact wf_full.
  assert (H5 : push_pre W8 full_container 127 127)
    by (unfold push_pre, full_container; by_computation).
  split.
  - split; [exact H1|]. split; [exact H2|]. split; [exact H3|].
    split.
    + exact (proj1 (push_back_preserves_wf W8 _ H1) 9 20 H2).
    + exact (proj2 (push_back_preserves_wf W8 _ H1) 12 H3).
  - split; [exact H4|]. split; [exact H5|].
    exact (proj1 (push_back_preserves_wf W8 _ H4) 127 127 H5).
Defined.

(* ------------------------------------------------------------------ *)
(** *** The cached length *)

Lemma total_length_append_range (rs : list (Z * Z)) (f l : Z) :
  total_length (append_range rs f l) = total_length rs + (l - f).
Proof.
  induction rs as [|[a b] rs _] using rev_ind.
  - simpl. lia.
  - rewrite append_range_snoc. destruct (b =? f) eqn:E.
    + apply Z.eqb_eq in E. rewrite !total_length_app. simpl. lia.
    + rewrite !total_length_app. simpl. lia.
Qed.

Lemma canon_total_bound (p : Z) (rs : list (Z * Z)) :
  canon_from p rs -> p + total_length rs <= last_end p rs.
Proof.
  revert p. induction rs as [|r rs IH]; simpl; intros p; [lia|].
  intros (H1 & H2 & H3). specialize (IH _ H3). lia.
Qed.

Lemma canon_from_each (p : Z) (rs : list (Z * Z)) :
  canon_from p rs -> Forall (fun r => p < fst r /\ fst r < snd r) rs.
Proof.
  revert p. induction rs as [|r rs IH]; simpl; intros p; [constructor|].
  intros (H1 & H2 & H3). constructor; [lia|].
  apply IH in H3. eapply Forall_impl; [|exact H3]. simpl. intros; lia.
Qed.

Lemma last_end_bounded (m p : Z) (rs : list (Z * Z)) :
  Forall (fun r => snd r < m) rs -> p < m -> last_end p rs < m.
Proof.
  revert p. induction rs as [|r rs IH]; simpl; intros p Hb Hp; [lia|].
  inversion Hb; subst. apply IH; assumption.
Qed.

Section CachedLength.
Variable t : width.

Lemma modulus_le_size : modulus t <= 2 ^ 64.
Proof. destruct t; vm_compute; discriminate. Qed.

Lemma wf_total_bound (ws : list Z) :
  wf_words t ws -> 0 <= total_length (decode t ws) <= mask t.
Proof.
  intros (_ & _ & Hc & Hb).
  pose proof (canon_total_bound _ _ Hc) as H1.
  pose proof (last_end_bounded (mask t) (-1) _ Hb) as H2.
  pose proof (mask_pos t).
  split; [|lia].
  apply canon_from_each in Hc. clear - Hc.
  induction Hc as [|r rs Hr _ IH]; simpl; lia.
Qed.

Lemma fold_length (rs : list (Z * Z)) (acc : Z) :
  Forall (fun r => 0 <= fst r <= snd r /\ snd r < modulus t) rs ->
  0 <= acc -> acc + total_length rs < 2 ^ 64 ->
  fold_left (fun len range =>
               to_size (len + sub_T t (snd range) (fst range))) rs acc
  = acc + total_length rs.
Proof.
  revert acc. induction rs as [|r rs IH]; simpl; intros acc Hr Hacc Hsum; [lia|].
  inversion Hr as [|? ? Hr1 Hr2]; subst.
  assert (H0 : 0 <= total_length rs).
  { clear - Hr2. induction Hr2; simpl; lia. }
  rewrite sub_T_le by lia.
  unfold to_size at 2. rewrite Z.mod_small by lia.
  rewrite IH; auto; lia.
Qed.

Lemma wf_ranges_typed (ws : list Z) :
  wf_words t ws ->
  Forall (fun r => 0 <= fst r <= snd r /\ snd r < modulus t) (decode t ws).
Proof.
  intros (_ & _ & Hc & Hb). apply canon_from_each in Hc.
  pose proof (modulus_eq t). pose proof (mask_pos t).
  rewrite Forall_forall in *. intros r Hr.
  specialize (Hc r Hr). specialize (Hb r Hr). lia.
Qed.

(** The loop of [length] on a well-formed container. *)
Lemma length_recomputed (ws : list Z) :
  wf_words t ws ->
  length_ t (mkIRV ws None)
  = Some (total_length (decode t ws),
          mkIRV ws (Some (total_length (decode t ws)))).
Proof.
  intros Hwf. unfold length_. simpl _length. cbv iota.
  rewrite for_ranges_container by (apply Hwf).
  simpl _rangeVect.
  pose proof (wf_total_bound ws Hwf) as Hb.
  pose proof (modulus_eq t). pose proof modulus_le_size.
  rewrite fold_length; [reflexivity | apply wf_ranges_typed; assumption | lia | lia].
Qed.

(** The containers the public interface can build. *)
Inductive reachable : IntegralRangeVector -> Prop :=
| reach_empty : reachable (IRV_empty)
| reach_vector ws : wf_words t ws -> reachable (IRV_from_vector ws)
| reach_push c first last c' :
    reachable c -> push_pre t c first last ->
    push_back t c (first, last) = Some c' -> reachable c'
| reach_push_value c v c' :
    reachable c -> push_pre t c v (v + 1) ->
    push_back_value t c v = Some c' -> reachable c'
| reach_reserve c size c' :
    reachable c -> reserve t c size = Some c' -> reachable c'
| reach_length c n c' :
    reachable c -> length_ t c = Some (n, c') -> reachable c'.

(** The cache, when present, holds the sum over the decoded ranges. *)
Definition cache_ok (c : IntegralRangeVector) : Prop :=
  forall n, _length c = Some n -> n = total_length (decode t (_rangeVect c)).

Lemma cache_after_push (c : IntegralRangeVector) (ws' : list Z) (d : Z) :
  wf t c -> cache_ok c -> wf_words t ws' ->
  total_length (decode t ws') = total_length (decode t (_rangeVect c)) + d ->
  cache_ok (mkIRV ws' (option_map (fun n => to_size (n + d)) (_length c))).
Proof.
  intros Hwf Hc Hwf' Ht n. simpl. destruct (_length c) as [m|] eqn:E; [|discriminate].
  simpl. intros [= <-]. rewrite (Hc m E), <- Ht.
  pose proof (wf_total_bound ws' Hwf'). pose proof (modulus_eq t).
  pose proof modulus_le_size.
  unfold to_size. apply Z.mod_small. lia.
Qed.

Lemma reachable_inv (c : IntegralRangeVector) :
  reachable c -> wf t c /\ cache_ok c.
Proof.
  induction 1 as [ | ws Hwf
                   | c f l c' Hr [IHw IHc] Hpre Hpush
                   | c v c' Hr [IHw IHc] Hpre Hpush
                   | c size c' Hr IH Hres
                   | c n c' Hr [IHw IHc] Hlen ].
  - split; [apply wf_words_nil|]. intros n [= <-]. reflexivity.
  - split; [exact Hwf|]. intros n. discriminate.
  - destruct (push_back_spec t c f l IHw Hpre) as (ws' & H1 & H2 & H3 & _).
    rewrite H1 in Hpush. injection Hpush as <-.
    split; [exact H2|].
    apply (cache_after_push c ws' (l - f)); auto.
    rewrite H3. destruct (Z.eqb_spec f l) as [-> | _]; [lia|].
    apply total_length_append_range.
  - destruct (push_back_value_spec t c v IHw Hpre) as (ws' & H1 & H2 & H3 & _).
    rewrite H1 in Hpush. injection Hpush as <-.
    split; [exact H2|].
    apply (cache_after_push c ws' 1); auto.
    rewrite H3, total_length_append_range. lia.
  - unfold reserve in Hres.
    destruct (size <? _); cbn [bind assert] in Hres; [|discriminate].
    destruct (2 * size <=? _); cbn [bind assert] in Hres; [|discriminate].
    injection Hres as <-. exact IH.
  - destruct c as [ws [m|]].
    + unfold length_ in Hlen. simpl in Hlen. injection Hlen as <- <-.
      split; assumption.
    + rewrite length_recomputed in Hlen by exact IHw.
      injection Hlen as <- <-. split; [exact IHw|].
      intros n. simpl. intros [= <-]. reflexivity.
Qed.

End CachedLength.

(** C5. For every container built through the public interface (empty,
    from a well-formed word sequence, by precondition-honouring
    [push_back] calls, [reserve] and [length] calls, in any order),
    [length] returns the sum of [last - first] over the decoded ranges:
    the incrementally maintained cache and the lazily recomputed value
    agree with that sum. *)
Theorem length_is_sum_of_ranges (t : width) (c : IntegralRangeVector) :
  reachable t c ->
  exists c',
    length_ t c = Some (total_length (decode t (_rangeVect c)), c') /\
    _rangeVect c' = _rangeVect c /\
    _length c' = Some (total_length (decode t (_rangeVect c))).
Proof.
  intros Hr. destruct (reachable_inv t c Hr) as [Hwf Hc].
  destruct c as [ws [m|]].
  - exists (mkIRV ws (Some m)). unfold length_. simpl.
    rewrite (Hc m eq_refl). simpl. auto.
  - rewrite length_recomputed by exact Hwf.
    eexists. split; [reflexivity|]. split; reflexivity.
Qed.

Lemma reachable_sample :
  reachable W8 (mkIRV [3; 133; 148] (Some 16)).
Proof.
  assert (H0 : reachable W8 (IRV_from_vector [3; 133; 137])).
  { apply reach_vector. unfold wf_words. by_computation. }
  assert (H1 : reachable W8 (mkIRV [3; 133; 137] (Some 5))).
  { apply (reach_length W8 _ 5 _ H0). reflexivity. }
  apply (reach_push W8 _ 9 20 _ H1).
  - unfold push_pre. by_computation.
  - reflexivity.
Qed.

Lemma length_is_sum_of_ranges_witness :
  reachable W8 (mkIRV [3; 133; 148] (Some 16)) /\
  exists c',
    length_ W8 (mkIRV [3; 133; 148] (Some 16))
    = Some (total_length (decode W8 [3; 133; 148]), c') /\
    _rangeVect c' = [3; 133; 148] /\
    _length c' = Some (total_length (decode W8 [3; 133; 148])).
Proof.
  split; [exact reachable_sample|].
  exact (length_is_sum_of_ranges W8 _ reachable_sample).
Defined.

(* ------------------------------------------------------------------ *)
(** *** Canonical stored form *)

(** One [push_back] call: either overload. *)
Inductive push_op : Type :=
| PushRange (first last : Z)
| PushValue (v : Z).

(** The range a call inserts. *)
Definition op_range (op : push_op) : Z * Z :=
  match op with
  | PushRange first last => (first, last)
  | PushValue v => (v, v + 1)
  end.

(** The integers a sequence of calls inserts. *)
Definition inserted (ops : list push_op) (x : Z) : Prop :=
  contains (map op_range ops) x.

Section Canonicalization.
Variable t : width.

Definition apply_push (c : IntegralRangeVector) (op : push_op)
  : option IntegralRangeVector :=
  match op with
  | PushRange first last => push_back t c (first, last)
  | PushValue v => push_back_value t c v
  end.

Fixpoint run_pushes (c : IntegralRangeVector) (ops : list push_op)
  : option IntegralRangeVector :=
  match ops with
  | [] => Some c
  | op :: rest => c' <- apply_push c op ;; run_pushes c' rest
  end.

(** Every call of the sequence honours the append precondition in the
    state it is made in. *)
Fixpoint honours (c : IntegralRangeVector) (ops : list push_op) : Prop :=
  match ops with
  | [] => True
  | op :: rest =>
      push_pre t c (fst (op_range op)) (snd (op_range op)) /\
      match apply_push c op with
      | Some c' => honours c' rest
      | None => False
      end
  end.

Lemma apply_push_spec (c : IntegralRangeVector) (op : push_op) :
  wf t c -> push_pre t c (fst (op_range op)) (snd (op_range op)) ->
  exists c',
    apply_push c op = Some c' /\ wf t c' /\
    (forall x, contains (decode t (_rangeVect c')) x <->
               contains (decode t (_rangeVect c)) x \/
               fst (op_range op) <= x < snd (op_range op)) /\
    (compact t (_rangeVect c) -> compact t (_rangeVect c')).
Proof.
  intros Hwf Hpre.
  assert (Hs : sorted_from 0 (decode t (_rangeVect c))).
  { destruct Hwf as (_ & _ & Hc & _). apply canon_sorted in Hc. exact Hc. }
  destruct op as [f l | v]; simpl in *.
  - destruct (push_back_spec t c f l Hwf Hpre) as (ws' & H1 & H2 & H3 & H4).
    eexists. split; [exact H1|]. split; [exact H2|]. split; [|exact H4].
    intros x. simpl. rewrite H3. destruct Hpre as (Hfl & _ & Hlast).
    destruct (Z.eqb_spec f l) as [-> | Hne]; [intuition lia|].
    apply contains_append_range; auto; lia.
  - destruct (push_back_value_spec t c v Hwf Hpre) as (ws' & H1 & H2 & H3 & H4).
    eexists. split; [exact H1|]. split; [exact H2|]. split; [|exact H4].
    intros x. simpl. rewrite H3. destruct Hpre as (Hfl & _ & Hlast).
    apply contains_append_range; auto; lia.
Qed.

Lemma run_pushes_spec (ops : list push_op) :
  forall c, wf t c -> compact t (_rangeVect c) -> honours c ops ->
  exists c',
    run_pushes c ops = Some c' /\ wf t c' /\ compact t (_rangeVect c') /\
    (forall x, contains (decode t (_rangeVect c')) x <->
               contains (decode t (_rangeVect c)) x \/ inserted ops x).
Proof.
  induction ops as [|op ops IH]; intros c Hwf Hc Hh.
  - exists c. simpl. unfold inserted. simpl. intuition.
  - simpl in Hh. destruct Hh as [Hpre Hh].
    destruct (apply_push_spec c op Hwf Hpre) as (c1 & H1 & H2 & H3 & H4).
    rewrite H1 in Hh.
    destruct (IH c1 H2 (H4 Hc) Hh) as (c' & R1 & R2 & R3 & R4).
    exists c'. simpl. rewrite H1. simpl.
    split; [exact R1|]. split; [exact R2|]. split; [exact R3|].
    intros x. rewrite R4, H3. unfold inserted. simpl. tauto.
Qed.

Lemma vector_eqb_refl (ws : list Z) : vector_eqb ws ws = true.
Proof. unfold vector_eqb. destruct (list_eq_dec Z.eq_dec ws ws); congruence. Qed.

End Canonicalization.

(** C3. Two sequences of [push_back] calls (either overload), each
    started on an empty container and each honouring the append
    precondition at every call, that insert the same set of integers
    leave the same stored words ([getBase]) and containers that
    compare equal with [operator==]. *)
Theorem push_back_canonical (t : width) (ops1 ops2 : list push_op) :
  honours t IRV_empty ops1 ->
  honours t IRV_empty ops2 ->
  (forall x, inserted ops1 x <-> inserted ops2 x) ->
  exists c1 c2,
    run_pushes t IRV_empty ops1 = Some c1 /\
    run_pushes t IRV_empty ops2 = Some c2 /\
    getBase c1 = getBase c2 /\
    IRV_eqb c1 c2 = true.
Proof.
  intros H1 H2 Hset.
  assert (Hc0 : compact t (_rangeVect IRV_empty)) by reflexivity.
  destruct (run_pushes_spec t ops1 IRV_empty (wf_words_nil t) Hc0 H1)
    as (c1 & R1 & W1 & C1 & S1).
  destruct (run_pushes_spec t ops2 IRV_empty (wf_words_nil t) Hc0 H2)
    as (c2 & R2 & W2 & C2 & S2).
  exists c1, c2. split; [exact R1|]. split; [exact R2|].
  assert (E : decode t (_rangeVect c1) = decode t (_rangeVect c2)).
  { apply (canonical_unique _ _ (-1)).
    - apply W1.
    - apply W2.
    - intros x. rewrite S1, S2. simpl. specialize (Hset x). tauto. }
  assert (Ew : _rangeVect c1 = _rangeVect c2).
  { rewrite C1, C2, E. reflexivity. }
  split; [exact Ew|].
  unfold IRV_eqb. rewrite Ew. apply vector_eqb_refl.
Qed.

Lemma push_back_canonical_witness :
  honours W8 IRV_empty [PushValue 4; PushValue 5; PushRange 6 9; PushValue 20] /\
  honours W8 IRV_empty [PushRange 4 7; PushRange 7 7; PushValue 7;
                        PushValue 8; PushRange 20 21] /\
  exists c1 c2,
    run_pushes W8 IRV_empty
      [PushValue 4; PushValue 5; PushRange 6 9; PushValue 20] = Some c1 /\
    run_pushes W8 IRV_empty
      [PushRange 4 7; PushRange 7 7; PushValue 7; PushValue 8; PushRange 20 21]
      = Some c2 /\
    getBase c1 = getBase c2 /\
    IRV_eqb c1 c2 = true.
Proof.
  assert (H1 : honours W8 IRV_empty
                 [PushValue 4; PushValue 5; PushRange 6 9; PushValue 20])
    by (simpl; unfold push_pre; by_computation).
  assert (H2 : honours W8 IRV_empty
                 [PushRange 4 7; PushRange 7 7; PushValue 7;
                  PushValue 8; PushRange 20 21])
    by (simpl; unfold push_pre; by_computation).
  split; [exact H1|]. split; [exact H2|].
  apply (push_back_canonical W8 _ _ H1 H2).
  intros x. unfold inserted. simpl. lia.
Defined.

(* ------------------------------------------------------------------ *)
(** *** The encoding boundary *)

Section Boundary.
Variable t : width.

(** The range overload fails exactly on its two assertions. *)
Lemma push_back_rejects (c : IntegralRangeVector) (x y : Z) :
  typed t x -> typed t y ->
  (push_back t c (x, y) = None <-> mask t <= x \/ mask t <= y).
Proof.
  unfold typed. intros Hx Hy. pose proof (mask_pos t) as Hm.
  unfold push_back. simpl fst. simpl snd.
  destruct (Z.lt_ge_cases x (mask t)) as [Hxl | Hxh].
  - rewrite (and_mask_low t x) by lia. simpl.
    destruct (Z.lt_ge_cases y (mask t)) as [Hyl | Hyh].
    + rewrite (and_mask_low t y) by lia. simpl.
      split; [|lia]. intros H. exfalso.
      repeat match type of H with
             | (if ?b then _ else _) = None => destruct b
             end; discriminate.
    + rewrite (and_mask_high t y) by lia.
      destruct (Z.eqb_spec (mask t) 0); [lia|]. simpl. tauto.
  - rewrite (and_mask_high t x) by lia.
    destruct (Z.eqb_spec (mask t) 0); [lia|]. simpl. tauto.
Qed.

(** The single-value overload fails exactly on its assertion. *)
Lemma push_back_value_rejects (c : IntegralRangeVector) (x : Z) :
  typed t x ->
  (push_back_value t c x = None <-> mask t <= x).
Proof.
  unfold typed. intros Hx. pose proof (mask_pos t) as Hm.
  unfold push_back_value.
  destruct (Z.lt_ge_cases x (mask t)) as [Hxl | Hxh].
  - rewrite (and_mask_low t x) by lia. simpl.
    split; [|lia]. intros H. exfalso.
    repeat match type of H with
           | (if ?b then _ else _) = None => destruct b
           end; discriminate.
  - rewrite (and_mask_high t x) by lia.
    destruct (Z.eqb_spec (mask t) 0); [lia|]. simpl. tauto.
Qed.

End Boundary.

(** C8. The single-value overload at the boundary, on [uint8_t]: the
    value [mask - 1 = 127] passes the assertion of [push_back(T)], and
    the overload then stores the endpoint [(127 + 1) | mask], whose
    payload is [0].  Appended after [126] the words decode to the
    inverted range [(126, 0)]; appended to the range [[0, 127)] they
    decode to the empty range [(0, 0)]; both containers were well
    formed and are not any more.  The range overload rejects the same
    range [[127, 128)] by its second assertion. *)
Theorem push_back_value_boundary_breaks :
  127 = mask W8 - 1 /\
  (wf W8 (mkIRV [126] (Some 1)) /\
   push_back_value W8 (mkIRV [126] (Some 1)) 127
     = Some (mkIRV [254; 128] (Some 2)) /\
   decode W8 [254; 128] = [(126, 0)] /\
   ~ wf W8 (mkIRV [254; 128] (Some 2))) /\
  (wf W8 (mkIRV [128; 255] None) /\
   push_back_value W8 (mkIRV [128; 255] None) 127
     = Some (mkIRV [128; 128] None) /\
   decode W8 [128; 128] = [(0, 0)] /\
   ~ wf W8 (mkIRV [128; 128] None)) /\
  push_back W8 (mkIRV [126] (Some 1)) (127, 128) = None /\
  push_back W8 (mkIRV [128; 255] None) (127, 128) = None.
Proof.
  split; [reflexivity|]. split; [|split; [|split; reflexivity]].
  - split; [unfold wf, wf_words; by_computation|].
    split; [reflexivity|]. split; [reflexivity|].
    intros (_ & _ & Hc & _). cbn in Hc. lia.
  - split; [unfold wf, wf_words; by_computation|].
    split; [reflexivity|]. split; [reflexivity|].
    intros (_ & _ & Hc & _). cbn in Hc. lia.
Qed.

(* ------------------------------------------------------------------ *)
(** *** Iterators at or past the end *)

(** C9, as the code has it.  On an iterator whose position is not
    before the end, [operator*] and [operator->] fail their assertion;
    the two increments carry no assertion and return. *)
Theorem past_end_access_asserts (t : width) (it : const_iterator) :
  (_end_iter it <= _base_iter it)%nat ->
  deref it = None /\
  arrow it = None /\
  pre_increment t it = Some (advance t it) /\
  post_increment t it = Some (it, advance t it).
Proof.
  intros H. unfold deref, arrow.
  assert (E : (_base_iter it <? _end_iter it)%nat = false)
    by (apply Nat.ltb_ge; exact H).
  rewrite E. simpl. repeat split; reflexivity.
Qed.

Lemma past_end_access_asserts_witness :
  (_end_iter (cend W8 (IRV_from_vector [1; 1]%Z))
   <= _base_iter (cend W8 (IRV_from_vector [1; 1]%Z)))%nat /\
  deref (cend W8 (IRV_from_vector [1; 1]%Z)) = None /\
  arrow (cend W8 (IRV_from_vector [1; 1]%Z)) = None /\
  pre_increment W8 (cend W8 (IRV_from_vector [1; 1]%Z))
    = Some (advance W8 (cend W8 (IRV_from_vector [1; 1]%Z))) /\
  post_increment W8 (cend W8 (IRV_from_vector [1; 1]%Z))
    = Some (cend W8 (IRV_from_vector [1; 1]%Z),
            advance W8 (cend W8 (IRV_from_vector [1; 1]%Z))).
Proof.
  assert (H : (_end_iter (cend W8 (IRV_from_vector [1; 1]%Z))
               <= _base_iter (cend W8 (IRV_from_vector [1; 1]%Z)))%nat)
    by (simpl; lia).
  split; [exact H|].
  exact (past_end_access_asserts W8 _ H).
Defined.

(** C9 as stated fails: the end iterator of an empty container is
    incremented, by either operator, without any assertion failing. *)
Lemma increment_at_end_unchecked :
  (_end_iter (cend W8 IRV_empty) <= _base_iter (cend W8 IRV_empty))%nat /\
  ~ (deref (cend W8 IRV_empty) = None /\
     arrow (cend W8 IRV_empty) = None /\
     pre_increment W8 (cend W8 IRV_empty) = None /\
     post_increment W8 (cend W8 IRV_empty) = None).
Proof.
  split; [simpl; lia|].
  intros (_ & _ & H & _). discriminate H.
Qed.

(** C10. Incrementing an iterator of a container that stands at or
    past the end fails no assertion and moves the position by exactly
    one word: the prefix-incremented iterator is greater than, and not
    equal to, [end()]; the postfix increment returns the iterator as it
    was.  On an empty container [cbegin()++] returns an iterator equal
    to [cend()]. *)
Theorem increment_past_end (t : width) (c : IntegralRangeVector)
        (it : const_iterator) (len : option Z) :
  _end_iter it = length (_rangeVect c) ->
  (_end_iter it <= _base_iter it)%nat ->
  (exists it',
     pre_increment t it = Some it' /\
     _base_iter it' = S (_base_iter it) /\
     iter_gt it' (cend t c) = true /\
     iter_eq it' (cend t c) = false /\
     iter_ne it' (cend t c) = true) /\
  (exists it',
     post_increment t it = Some (it, it') /\
     _base_iter it' = S (_base_iter it)) /\
  (exists r it',
     post_increment t (cbegin t (mkIRV [] len)) = Some (r, it') /\
     iter_eq r (cend t (mkIRV [] len)) = true).
Proof.
  intros He Hb.
  assert (E : (_base_iter it <? _end_iter it)%nat = false)
    by (apply Nat.ltb_ge; exact Hb).
  assert (Hadv : _base_iter (advance t it) = S (_base_iter it)).
  { unfold advance. rewrite E. reflexivity. }
  split; [|split].
  - exists (advance t it). split; [reflexivity|]. split; [exact Hadv|].
    unfold iter_gt, iter_eq, iter_ne. rewrite Hadv. simpl _base_iter.
    rewrite <- He.
    split; [apply Nat.ltb_lt; lia|].
    assert (N : (S (_base_iter it) =? _end_iter it)%nat = false)
      by (apply Nat.eqb_neq; lia).
    rewrite N. split; reflexivity.
  - exists (advance t it). split; [reflexivity | exact Hadv].
  - eexists. eexists. split; reflexivity.
Qed.

Lemma increment_past_end_witness :
  _end_iter (cend W8 (IRV_from_vector [1; 1]%Z))
    = length (_rangeVect (IRV_from_vector [1; 1]%Z)) /\
  (_end_iter (cend W8 (IRV_from_vector [1; 1]%Z))
   <= _base_iter (cend W8 (IRV_from_vector [1; 1]%Z)))%nat /\
  (exists it',
     pre_increment W8 (cend W8 (IRV_from_vector [1; 1]%Z)) = Some it' /\
     _base_iter it' = S (_base_iter (cend W8 (IRV_from_vector [1; 1]%Z))) /\
     iter_gt it' (cend W8 (IRV_from_vector [1; 1]%Z)) = true /\
     iter_eq it' (cend W8 (IRV_from_vector [1; 1]%Z)) = false /\
     iter_ne it' (cend W8 (IRV_from_vector [1; 1]%Z)) = true) /\
  (exists it',
     post_increment W8 (cend W8 (IRV_from_vector [1; 1]%Z))
       = Some (cend W8 (IRV_from_vector [1; 1]%Z), it') /\
     _base_iter it' = S (_base_iter (cend W8 (IRV_from_vector [1; 1]%Z)))) /\
  (exists r it',
     post_increment W8 (cbegin W8 (mkIRV [] None)) = Some (r, it') /\
     iter_eq r (cend W8 (mkIRV [] None)) = true).
Proof.
  assert (H1 : _end_iter (cend W8 (IRV_from_vector [1; 1]%Z))
               = length (_rangeVect (IRV_from_vector [1; 1]%Z)))
    by reflexivity.
  assert (H2 : (_end_iter (cend W8 (IRV_from_vector [1; 1]%Z))
                <= _base_iter (cend W8 (IRV_from_vector [1; 1]%Z)))%nat)
    by (simpl; lia).
  split; [exact H1|]. split; [exact H2|].
  exact (increment_past_end W8 (IRV_from_vector [1; 1]%Z) _ None H1 H2).
Defined.

(* ================================================================== *)
(** ** RangeMerger *)

(** What [intersect_ranges] and [unite_ranges] use of a container type
    [Cont] and of its iterators: [Cont{}], [begin], [end], the iterator
    comparisons [==] and [>=], the prefix increment, and the overloads
    [get_first], [get_last] and [insert_back] selected by the element
    type. *)
Class RangeContainer (Cont It : Type) : Type := {
  cont_new : Cont;
  cont_begin : Cont -> It;
  cont_end : Cont -> It;
  it_eq : It -> It -> bool;
  it_ge : It -> It -> bool;
  it_next : It -> option It;
  get_first : It -> option Z;
  get_last : It -> option Z;
  insert_back : Cont -> Z * Z -> option Cont
}.

(** [v[k] = x] on a vector of iterators. *)
Fixpoint replace_nth {A : Type} (k : nat) (x : A) (l : list A) : list A :=
  match l, k with
  | [], _ => []
  | _ :: rest, O => x :: rest
  | y :: rest, S k' => y :: replace_nth k' x rest
  end.

(** Flushing the pending range, if any, to the output. *)
Definition flush {Cont It : Type} `{RangeContainer Cont It}
           (result : Cont) (pending : option (Z * Z)) : option Cont :=
  match pending with
  | Some p => insert_back result p
  | None => Some result
  end.

(** A sequence of [insert_back] calls. *)
Fixpoint insert_all {Cont It : Type} `{RangeContainer Cont It}
         (rs : list (Z * Z)) (result : Cont) : option Cont :=
  match rs with
  | [] => Some result
  | r :: rest => result' <- insert_back result r ;; insert_all rest result'
  end.

(** The container [insert_back] builds from [Cont{}]. *)
Definition build_with {Cont It : Type} `{RangeContainer Cont It}
           (rs : list (Z * Z)) : option Cont :=
  insert_all rs cont_new.

Section Merger.
Context {Cont It : Type} `{RC : RangeContainer Cont It}.
Variable t : width.

(** The inner loop of [intersect_ranges] over the inputs [i, i+1, ...]:
    the running [curRangeBegin], [curRangeEnd], [containerToForward]. *)
Fixpoint intersect_scan (ranges : list Cont) (iters : list It) (i : nat)
         (curRangeBegin curRangeEnd : Z) (containerToForward : nat)
  : option (Z * Z * nat) :=
  match ranges, iters with
  | r :: ranges', it :: iters' =>
      check (negb (it_eq it (cont_end r))) ;;
      begin_ <- get_first it ;;
      end_ <- get_last it ;;
      let curRangeBegin' :=
        if curRangeBegin <? begin_ then begin_ else curRangeBegin in
      if end_ <? curRangeEnd
      then intersect_scan ranges' iters' (S i) curRangeBegin' end_ i
      else intersect_scan ranges' iters' (S i) curRangeBegin' curRangeEnd
                          containerToForward
  | _, _ => Some (curRangeBegin, curRangeEnd, containerToForward)
  end.

(** The update of the pending range by the window
    [[curRangeBegin, curRangeEnd)] in [intersect_ranges]. *)
Definition intersect_emit (result : Cont) (pending : option (Z * Z))
           (curRangeBegin curRangeEnd : Z) : option (Cont * option (Z * Z)) :=
  if curRangeBegin <? curRangeEnd then
    match pending with
    | Some p =>
        if snd p =? curRangeBegin
        then Some (result, Some (fst p, curRangeEnd))
        else
          result' <- insert_back result p ;;
          Some (result', Some (curRangeBegin, curRangeEnd))
    | None => Some (result, Some (curRangeBegin, curRangeEnd))
    end
  else Some (result, pending).

(** The outer loop [for (;;)] of [intersect_ranges]. *)
Fixpoint intersect_loop (fuel : nat) (ranges : list Cont) (iters : list It)
         (result : Cont) (curRangeBegin : Z) (pending : option (Z * Z))
         (containerToForward : nat) : option Cont :=
  match fuel with
  | O => None
  | S fuel' =>
      scan <- intersect_scan ranges iters 0 curRangeBegin (numeric_max t)
                             containerToForward ;;
      let '(curRangeBegin', curRangeEnd', k) := scan in
      emitted <- intersect_emit result pending curRangeBegin' curRangeEnd' ;;
      let '(result', pending') := emitted in
      it <- nth_error iters k ;;
      r <- nth_error ranges k ;;
      it' <- it_next it ;;
      if it_eq it' (cont_end r) then flush result' pending'
      else intersect_loop fuel' ranges (replace_nth k it' iters) result'
                          curRangeBegin' pending' k
  end.

(** [intersect_ranges] *)
Definition intersect_ranges (fuel : nat) (ranges : list Cont) : option Cont :=
  match ranges with
  | [] => Some cont_new
  | [r] => Some r
  | _ =>
      if existsb (fun r => it_eq (cont_begin r) (cont_end r)) ranges
      then Some cont_new
      else intersect_loop fuel ranges (map cont_begin ranges) cont_new 0 None 0
  end.

(** The inner loop of [unite_ranges]. *)
Fixpoint unite_scan (ranges : list Cont) (iters : list It) (i : nat)
         (curRangeBegin curRangeEnd : Z) (containerToForward : nat)
  : option (Z * Z * nat) :=
  match ranges, iters with
  | r :: ranges', it :: iters' =>
      if it_ge it (cont_end r)
      then unite_scan ranges' iters' (S i) curRangeBegin curRangeEnd
                      containerToForward
      else
        begin_ <- get_first it ;;
        end_ <- get_last it ;;
        if begin_ <? curRangeBegin
        then unite_scan ranges' iters' (S i) begin_ end_ i
        else unite_scan ranges' iters' (S i) curRangeBegin curRangeEnd
                        containerToForward
  | _, _ => Some (curRangeBegin, curRangeEnd, containerToForward)
  end.

(** The update of the pending range in [unite_ranges]. *)
Definition unite_emit (result : Cont) (pending : option (Z * Z))
           (curRangeBegin curRangeEnd : Z) : option (Cont * option (Z * Z)) :=
  if curRangeBegin <? curRangeEnd then
    match pending with
    | Some p =>
        if curRangeBegin <=? snd p
        then
          if snd p <? curRangeEnd
          then Some (result, Some (fst p, curRangeEnd))
          else Some (result, pending)
        else
          result' <- insert_back result p ;;
          Some (result', Some (curRangeBegin, curRangeEnd))
    | None => Some (result, Some (curRangeBegin, curRangeEnd))
    end
  else Some (result, pending).

(** The outer loop [for (;;)] of [unite_ranges]. *)
Fixpoint unite_loop (fuel : nat) (ranges : list Cont) (iters : list It)
         (result : Cont) (pending : option (Z * Z)) : option Cont :=
  match fuel with
  | O => None
  | S fuel' =>
      scan <- unite_scan ranges iters 0 (numeric_max t) (numeric_max t) 0 ;;
      let '(curRangeBegin, curRangeEnd, k) := scan in
      if curRangeEnd =? numeric_max t then flush result pending
      else
        emitted <- unite_emit result pending curRangeBegin curRangeEnd ;;
        let '(result', pending') := emitted in
        it <- nth_error iters k ;;
        it' <- it_next it ;;
        unite_loop fuel' ranges (replace_nth k it' iters) result' pending'
  end.

(** [unite_ranges] *)
Definition unite_ranges (fuel : nat) (ranges : list Cont) : option Cont :=
  match ranges with
  | [] => Some cont_new
  | [r] => Some r
  | _ => unite_loop fuel ranges (map cont_begin ranges) cont_new None
  end.

End Merger.

(* ------------------------------------------------------------------ *)
(** *** The two container kinds *)

(** An iterator of [std::vector<T>]: a position in a vector. *)
Record vector_iterator : Type := mkVIter {
  v_store : list Z;
  v_pos : nat
}.

(** Reading through an iterator that is not inside its vector has no
    defined result. *)
Definition v_deref (it : vector_iterator) : option Z :=
  nth_error (v_store it) (v_pos it).

(** [std::vector<T>] with the overloads for unsigned values. *)
#[export] Instance vector_container (t : width)
  : RangeContainer (list Z) vector_iterator := {|
  cont_new := [];
  cont_begin := fun v => mkVIter v 0;
  cont_end := fun v => mkVIter v (length v);
  it_eq := fun a b => (v_pos a =? v_pos b)%nat;
  it_ge := fun a b => (v_pos b <=? v_pos a)%nat;
  it_next := fun it => Some (mkVIter (v_store it) (S (v_pos it)));
  get_first := fun it => v_deref it;
  get_last := fun it => x <- v_deref it ;; Some (to_T t (x + 1));
  insert_back := fun v range =>
    Some (v ++ values_between (fst range) (snd range))
|}.

(** [IntegralRangeVector<T>] with the overloads for pairs. *)
#[export] Instance irv_container (t : width)
  : RangeContainer IntegralRangeVector const_iterator := {|
  cont_new := IRV_empty;
  cont_begin := cbegin t;
  cont_end := cend t;
  it_eq := iter_eq;
  it_ge := iter_ge;
  it_next := pre_increment t;
  get_first := fun it => range <- arrow it ;; Some (fst range);
  get_last := fun it => range <- arrow it ;; Some (snd range);
  insert_back := push_back t
|}.

(** [intersect_ranges] and [unite_ranges] at the two container kinds. *)
Definition intersect_vectors (t : width) :=
  @intersect_ranges _ _ (vector_container t) t.
Definition unite_vectors (t : width) :=
  @unite_ranges _ _ (vector_container t) t.
Definition intersect_irv (t : width) :=
  @intersect_ranges _ _ (irv_container t) t.
Definition unite_irv (t : width) :=
  @unite_ranges _ _ (irv_container t) t.

(** The inputs of the merger tests. *)
Definition test_ranges : list (list (Z * Z)) :=
  [ [(0, 7); (9, 15); (15, 17); (100, 200); (888, 889); (889, 1000)];
    [(3, 5); (6, 8); (14, 16); (25, 27); (101, 103); (193, 777);
     (888, 889); (889, 1000)];
    [(2, 5); (7, 8); (14, 15); (15, 16); (100, 102); (102, 210);
     (888, 889); (889, 2000)];
    [(4, 888); (888, 889); (889, 3000)] ].

Definition test_irvs : list IntegralRangeVector :=
  flat_map (fun rs => match @build_with _ _ (irv_container W16) rs with
                      | Some c => [c]
                      | None => []
                      end) test_ranges.

Definition test_vectors : list (list Z) := map expand test_ranges.

Example test_intersection_irv :
  option_map (fun c => decode W16 (getBase c)) (intersect_irv W16 100 test_irvs)
  = Some [(4, 5); (14, 16); (101, 103); (193, 200); (888, 1000)].
Proof. vm_compute. reflexivity. Qed.

Example test_union_irv :
  option_map (fun c => decode W16 (getBase c)) (unite_irv W16 100 test_irvs)
  = Some [(0, 3000)].
Proof. vm_compute. reflexivity. Qed.

Example test_union_three_irv :
  option_map (fun c => decode W16 (getBase c))
             (unite_irv W16 100 (firstn 3 test_irvs))
  = Some [(0, 8); (9, 17); (25, 27); (100, 777); (888, 2000)].
Proof. vm_compute. reflexivity. Qed.

Example test_intersection_vectors :
  intersect_vectors W16 4000 test_vectors
  = Some (expand [(4, 5); (14, 16); (101, 103); (193, 200); (888, 1000)]).
Proof. vm_compute. reflexivity. Qed.

Example test_empty_and_single_inputs :
  intersect_vectors W16 1 [] = Some [] /\
  unite_vectors W16 1 [] = Some [] /\
  intersect_vectors W16 1 [[1; 2; 3]] = Some [1; 2; 3] /\
  unite_vectors W16 1 [[1; 2; 3]] = Some [1; 2; 3].
Proof. repeat split. Qed.

Example test_union_three_vectors :
  unite_vectors W16 4000 (firstn 3 test_vectors)
  = Some (expand [(0, 8); (9, 17); (25, 27); (100, 777); (888, 2000)]).
Proof. vm_compute. reflexivity. Qed.

(* ------------------------------------------------------------------ *)
(** *** The merge on sequences of ranges

    The two algorithms, as they act on the sequences of ranges the
    iterators run through: an iterator is the rest of its input, and
    the result is the sequence of ranges handed to [insert_back]. *)

Section RangeLevel.
Variable t : width.

Fixpoint ranges_intersect_scan (rests : list (list (Z * Z))) (i : nat)
         (cb ce : Z) (k : nat) : option (Z * Z * nat) :=
  match rests with
  | [] => Some (cb, ce, k)
  | [] :: _ => None
  | (r :: _) :: rests' =>
      let cb' := if cb <? fst r then fst r else cb in
      if snd r <? ce
      then ranges_intersect_scan rests' (S i) cb' (snd r) i
      else ranges_intersect_scan rests' (S i) cb' ce k
  end.

(** The ranges flushed by one window, and the pending range after it. *)
Definition window_emit (pending : option (Z * Z)) (cb ce : Z)
  : list (Z * Z) * option (Z * Z) :=
  if cb <? ce then
    match pending with
    | Some p =>
        if snd p =? cb then ([], Some (fst p, ce))
        else ([p], Some (cb, ce))
    | None => ([], Some (cb, ce))
    end
  else ([], pending).

Definition pending_list (pending : option (Z * Z)) : list (Z * Z) :=
  match pending with
  | Some p => [p]
  | None => []
  end.

Fixpoint ranges_intersect_loop (fuel : nat) (rests : list (list (Z * Z)))
         (cb : Z) (pending : option (Z * Z)) (k : nat)
  : option (list (Z * Z)) :=
  match fuel with
  | O => None
  | S fuel' =>
      scan <- ranges_intersect_scan rests 0 cb (numeric_max t) k ;;
      let '(cb', ce', k') := scan in
      let '(out, pending') := window_emit pending cb' ce' in
      rest <- nth_error rests k' ;;
      match rest with
      | [] => None
      | _ :: [] => Some (out ++ pending_list pending')
      | _ :: rest' =>
          more <- ranges_intersect_loop fuel' (replace_nth k' rest' rests)
                                        cb' pending' k' ;;
          Some (out ++ more)
      end
  end.

Definition is_nil {A : Type} (l : list A) : bool :=
  match l with [] => true | _ => false end.

Definition ranges_intersect (fuel : nat) (inputs : list (list (Z * Z)))
  : option (list (Z * Z)) :=
  if existsb is_nil inputs then Some []
  else ranges_intersect_loop fuel inputs 0 None 0.

Fixpoint ranges_unite_scan (rests : list (list (Z * Z))) (i : nat)
         (cb ce : Z) (k : nat) : option (Z * Z * nat) :=
  match rests with
  | [] => Some (cb, ce, k)
  | [] :: rests' => ranges_unite_scan rests' (S i) cb ce k
  | (r :: _) :: rests' =>
      if fst r <? cb
      then ranges_unite_scan rests' (S i) (fst r) (snd r) i
      else ranges_unite_scan rests' (S i) cb ce k
  end.

Definition merge_emit (pending : option (Z * Z)) (cb ce : Z)
  : list (Z * Z) * option (Z * Z) :=
  if cb <? ce then
    match pending with
    | Some p =>
        if cb <=? snd p
        then if snd p <? ce then ([], Some (fst p, ce)) else ([], pending)
        else ([p], Some (cb, ce))
    | None => ([], Some (cb, ce))
    end
  else ([], pending).

Fixpoint ranges_unite_loop (fuel : nat) (rests : list (list (Z * Z)))
         (pending : option (Z * Z)) : option (list (Z * Z)) :=
  match fuel with
  | O => None
  | S fuel' =>
      scan <- ranges_unite_scan rests 0 (numeric_max t) (numeric_max t) 0 ;;
      let '(cb, ce, k) := scan in
      if ce =? numeric_max t then Some (pending_list pending)
      else
        let '(out, pending') := merge_emit pending cb ce in
        rest <- nth_error rests k ;;
        more <- ranges_unite_loop fuel' (replace_nth k (tl rest) rests)
                                  pending' ;;
        Some (out ++ more)
  end.

Definition ranges_unite (fuel : nat) (inputs : list (list (Z * Z)))
  : option (list (Z * Z)) :=
  ranges_unite_loop fuel inputs None.

End RangeLevel.

(* ------------------------------------------------------------------ *)
(** *** Iterators as the rest of the input *)

(** A container kind whose iterators run through a sequence of ranges:
    [ranges_of c] is that sequence, [valid c] says the container can be
    iterated, and [pos c it rest] says [it] is an iterator of [c] with
    the ranges [rest] still ahead. *)
Class RangeContainerLaws (Cont It : Type) `{RC : RangeContainer Cont It}
  : Type := {
  ranges_of : Cont -> list (Z * Z);
  valid : Cont -> Prop;
  pos : Cont -> It -> list (Z * Z) -> Prop;
  pos_begin : forall c, valid c -> pos c (cont_begin c) (ranges_of c);
  pos_nil : forall c it,
      pos c it [] ->
      it_eq it (cont_end c) = true /\ it_ge it (cont_end c) = true;
  pos_cons : forall c it r rest,
      pos c it (r :: rest) ->
      it_eq it (cont_end c) = false /\ it_ge it (cont_end c) = false /\
      get_first it = Some (fst r) /\ get_last it = Some (snd r) /\
      exists it', it_next it = Some it' /\ pos c it' rest
}.

Lemma replace_nth_app {A : Type} (l1 : list A) (a b : A) (l2 : list A) :
  replace_nth (length l1) b (l1 ++ a :: l2) = l1 ++ b :: l2.
Proof. induction l1 as [|x l1 IH]; simpl; [reflexivity | rewrite IH; reflexivity]. Qed.

Lemma replace_nth_length {A : Type} (k : nat) (b : A) (l : list A) :
  length (replace_nth k b l) = length l.
Proof.
  revert k. induction l as [|x l IH]; intros [|k]; simpl; auto.
Qed.

Section Simulation.
Context {Cont It : Type} `{RL : RangeContainerLaws Cont It}.
Variable t : width.

Inductive aligned : list Cont -> list It -> list (list (Z * Z)) -> Prop :=
| aligned_nil : aligned [] [] []
| aligned_cons c it rest cs its rests :
    pos c it rest -> aligned cs its rests ->
    aligned (c :: cs) (it :: its) (rest :: rests).

Lemma aligned_begin (cs : list Cont) :
  Forall valid cs -> aligned cs (map cont_begin cs) (map ranges_of cs).
Proof.
  induction 1 as [|c cs Hc _ IH]; simpl; constructor; auto using pos_begin.
Qed.

Lemma aligned_nth (cs : list Cont) (its : list It) (rests : list (list (Z * Z)))
      (k : nat) (rest : list (Z * Z)) :
  aligned cs its rests -> nth_error rests k = Some rest ->
  exists c it, nth_error cs k = Some c /\ nth_error its k = Some it /\
               pos c it rest.
Proof.
  intros Ha. revert k. induction Ha as [|c it r cs its rests Hp _ IH]; intros [|k] Hn;
    simpl in *; try discriminate.
  - injection Hn as <-. eauto.
  - apply IH. exact Hn.
Qed.

Lemma aligned_nth_none (cs : list Cont) (its : list It)
      (rests : list (list (Z * Z))) (k : nat) :
  aligned cs its rests -> nth_error rests k = None -> nth_error its k = None.
Proof.
  intros Ha. revert k. induction Ha as [|c it r cs its rests Hp _ IH]; intros [|k] Hn;
    simpl in *; try discriminate; auto.
Qed.

Lemma aligned_replace (cs : list Cont) (its : list It)
      (rests : list (list (Z * Z))) (k : nat) (c : Cont) (it' : It)
      (rest' : list (Z * Z)) :
  aligned cs its rests -> nth_error cs k = Some c -> pos c it' rest' ->
  aligned cs (replace_nth k it' its) (replace_nth k rest' rests).
Proof.
  intros Ha. revert k. induction Ha as [|c0 it r cs its rests Hp Ha IH]; intros [|k] Hn Hp';
    simpl in *; try discriminate.
  - injection Hn as ->. constructor; assumption.
  - constructor; auto.
Qed.

Lemma intersect_scan_sim (cs : list Cont) (its : list It)
      (rests : list (list (Z * Z))) :
  aligned cs its rests ->
  forall i cb ce k,
    intersect_scan cs its i cb ce k = ranges_intersect_scan rests i cb ce k.
Proof.
  induction 1 as [|c it rest cs its rests Hp _ IH]; intros i cb ce k; simpl.
  - reflexivity.
  - destruct rest as [|r rest].
    + apply pos_nil in Hp. destruct Hp as [-> _]. reflexivity.
    + apply pos_cons in Hp. destruct Hp as (-> & _ & -> & -> & _). simpl.
      destruct (snd r <? ce); apply IH.
Qed.

Lemma unite_scan_sim (cs : list Cont) (its : list It)
      (rests : list (list (Z * Z))) :
  aligned cs its rests ->
  forall i cb ce k,
    unite_scan cs its i cb ce k = ranges_unite_scan rests i cb ce k.
Proof.
  induction 1 as [|c it rest cs its rests Hp _ IH]; intros i cb ce k; simpl.
  - reflexivity.
  - destruct rest as [|r rest].
    + apply pos_nil in Hp. destruct Hp as [_ ->]. apply IH.
    + apply pos_cons in Hp. destruct Hp as (_ & -> & -> & -> & _). simpl.
      destruct (fst r <? cb); apply IH.
Qed.

Lemma insert_all_app (rs qs : list (Z * Z)) (result : Cont) :
  insert_all (rs ++ qs) result
  = (result' <- insert_all rs result ;; insert_all qs result').
Proof.
  revert result. induction rs as [|r rs IH]; intros result; simpl.
  - reflexivity.
  - destruct (insert_back result r); simpl; auto.
Qed.

Lemma flush_insert (result : Cont) (pending : option (Z * Z)) :
  flush result pending = insert_all (pending_list pending) result.
Proof.
  destruct pending; simpl; [|reflexivity].
  destruct (insert_back result p); reflexivity.
Qed.

Lemma intersect_emit_sim (result : Cont) (pending : option (Z * Z)) (cb ce : Z) :
  intersect_emit result pending cb ce
  = (result' <- insert_all (fst (window_emit pending cb ce)) result ;;
     Some (result', snd (window_emit pending cb ce))).
Proof.
  unfold intersect_emit, window_emit.
  destruct (cb <? ce); [|reflexivity].
  destruct pending as [p|]; [|reflexivity].
  destruct (snd p =? cb); [reflexivity|].
  simpl. destruct (insert_back result p); reflexivity.
Qed.

Lemma unite_emit_sim (result : Cont) (pending : option (Z * Z)) (cb ce : Z) :
  unite_emit result pending cb ce
  = (result' <- insert_all (fst (merge_emit pending cb ce)) result ;;
     Some (result', snd (merge_emit pending cb ce))).
Proof.
  unfold unite_emit, merge_emit.
  destruct (cb <? ce); [|reflexivity].
  destruct pending as [p|]; [|reflexivity].
  destruct (cb <=? snd p); [destruct (snd p <? ce); reflexivity|].
  simpl. destruct (insert_back result p); reflexivity.
Qed.

Lemma ranges_intersect_scan_nonempty (rests : list (list (Z * Z))) :
  forall i cb ce k res,
    ranges_intersect_scan rests i cb ce k = Some res ->
    Forall (fun s => s <> []) rests.
Proof.
  induction rests as [|[|r s] rests IH]; intros i cb ce k res H; simpl in H.
  - constructor.
  - discriminate.
  - constructor; [discriminate|].
    destruct (snd r <? ce); eapply IH; eauto.
Qed.

Lemma bind_none {A B : Type} (m : option A) :
  bind m (fun _ => @None B) = None.
Proof. destruct m; reflexivity. Qed.

(** [intersect_ranges]'s loop inserts what the range-level loop emits. *)
Lemma intersect_loop_sim (fuel : nat) :
  forall cs its rests result cb pending k,
    aligned cs its rests ->
    intersect_loop t fuel cs its result cb pending k
    = (out <- ranges_intersect_loop t fuel rests cb pending k ;;
       insert_all out result).
Proof.
  induction fuel as [|fuel IH]; intros cs its rests result cb pending k Ha.
  - reflexivity.
  - simpl. rewrite (intersect_scan_sim cs its rests Ha).
    destruct (ranges_intersect_scan rests 0 cb (numeric_max t) k)
      as [[[cb' ce'] k']|] eqn:Hscan; simpl; [|reflexivity].
    rewrite intersect_emit_sim.
    destruct (window_emit pending cb' ce') as [out pending'] eqn:Hw. simpl.
    destruct (nth_error rests k') as [rest|] eqn:Hn.
    + destruct (aligned_nth _ _ _ _ _ Ha Hn) as (c & it & Hc & Hit & Hp).
      rewrite Hit, Hc. simpl.
      destruct rest as [|r rest].
      { apply ranges_intersect_scan_nonempty in Hscan.
        apply nth_error_In in Hn. rewrite Forall_forall in Hscan.
        exfalso. apply (Hscan [] Hn). reflexivity. }
      apply pos_cons in Hp. destruct Hp as (_ & _ & _ & _ & it' & Hnext & Hp').
      destruct (insert_all out result) as [result'|] eqn:Hins; simpl.
      * rewrite Hnext. simpl.
        destruct rest as [|r2 rest].
        -- apply pos_nil in Hp'. destruct Hp' as [-> _].
           rewrite flush_insert. cbn [bind].
           rewrite insert_all_app, Hins. reflexivity.
        -- pose proof (aligned_replace _ _ _ k' c it' (r2 :: rest) Ha Hc Hp') as Ha'.
           apply pos_cons in Hp'. destruct Hp' as (-> & _).
           rewrite (IH _ _ _ result' cb' pending' k' Ha').
           destruct (ranges_intersect_loop t fuel
                       (replace_nth k' (r2 :: rest) rests) cb' pending' k');
             simpl; [|reflexivity].
           rewrite insert_all_app, Hins. reflexivity.
      * destruct rest as [|r2 rest]; simpl.
        -- rewrite insert_all_app, Hins. reflexivity.
        -- destruct (ranges_intersect_loop t fuel
                       (replace_nth k' (r2 :: rest) rests) cb' pending' k');
             simpl; [|reflexivity].
           rewrite insert_all_app, Hins. reflexivity.
    + rewrite (aligned_nth_none _ _ _ _ Ha Hn). simpl.
      destruct (insert_all out result); reflexivity.
Qed.

End Simulation.

(** What the scan of [unite_ranges] selects: nothing, or the first of
    the inputs whose current range starts lowest. *)
Lemma ranges_unite_scan_spec (rests : list (list (Z * Z))) :
  forall i cb ce k,
  exists cb' ce' k',
    ranges_unite_scan rests i cb ce k = Some (cb', ce', k') /\
    ((cb' = cb /\ ce' = ce /\ k' = k /\
      Forall (fun s => forall r rest, s = r :: rest -> cb <= fst r) rests)
     \/
     ((i <= k')%nat /\
      (exists rest, nth_error rests (k' - i) = Some ((cb', ce') :: rest)) /\
      cb' < cb /\
      Forall (fun s => forall r rest, s = r :: rest -> cb' <= fst r) rests)).
Proof.
  induction rests as [|[|[a b] s] rests IH]; intros i cb ce k; simpl.
  - exists cb, ce, k. split; [reflexivity|]. left. auto.
  - destruct (IH (S i) cb ce k) as (cb' & ce' & k' & E & H).
    exists cb', ce', k'. split; [exact E|].
    destruct H as [(-> & -> & -> & HF) | (Hi & (rest & Hn) & Hlt & HF)].
    + left. repeat split; auto. constructor; [discriminate | exact HF].
    + right. split; [lia|]. split; [|split; [exact Hlt|]].
      * exists rest. replace (k' - i)%nat with (S (k' - S i)) by lia. exact Hn.
      * constructor; [discriminate | exact HF].
  - destruct (Z.ltb_spec a cb) as [Hlt | Hge].
    + destruct (IH (S i) a b i) as (cb' & ce' & k' & E & H).
      exists cb', ce', k'. split; [exact E|]. right.
      destruct H as [(-> & -> & -> & HF) | (Hi & (rest & Hn) & Hlt' & HF)].
      * split; [lia|]. split; [|split; [exact Hlt|]].
        -- exists s. rewrite Nat.sub_diag. reflexivity.
        -- constructor; [|exact HF]. intros r rest [= <- _]. simpl. lia.
      * split; [lia|]. split; [|split; [lia|]].
        -- exists rest. replace (k' - i)%nat with (S (k' - S i)) by lia. exact Hn.
        -- constructor; [|exact HF]. intros r rest' [= <- _]. simpl. lia.
    + destruct (IH (S i) cb ce k) as (cb' & ce' & k' & E & H).
      exists cb', ce', k'. split; [exact E|].
      destruct H as [(-> & -> & -> & HF) | (Hi & (rest & Hn) & Hlt' & HF)].
      * left. repeat split; auto.
        constructor; [|exact HF]. intros r rest [= <- _]. simpl. lia.
      * right. split; [lia|]. split; [|split; [exact Hlt'|]].
        -- exists rest. replace (k' - i)%nat with (S (k' - S i)) by lia. exact Hn.
        -- constructor; [|exact HF]. intros r rest' [= <- _]. simpl. lia.
Qed.

Section SimulationUnion.
Context {Cont It : Type} `{RL : RangeContainerLaws Cont It}.
Variable t : width.

(** [unite_ranges]'s loop inserts what the range-level loop emits. *)
Lemma unite_loop_sim (fuel : nat) :
  forall cs its rests result pending,
    aligned cs its rests ->
    unite_loop t fuel cs its result pending
    = (out <- ranges_unite_loop t fuel rests pending ;;
       insert_all out result).
Proof.
  induction fuel as [|fuel IH]; intros cs its rests result pending Ha.
  - reflexivity.
  - simpl. rewrite (unite_scan_sim cs its rests Ha).
    destruct (ranges_unite_scan_spec rests 0%nat (numeric_max t) (numeric_max t) 0%nat)
      as (cb & ce & k & -> & Hpick).
    cbn [bind].
    destruct (Z.eqb_spec ce (numeric_max t)) as [E | E].
    + cbn [bind]. apply flush_insert.
    + destruct Hpick as [(_ & ? & _) | (_ & (rest & Hn) & _ & _)]; [contradiction|].
      rewrite Nat.sub_0_r in Hn.
      rewrite unite_emit_sim.
      destruct (merge_emit pending cb ce) as [out pending'] eqn:Hm. simpl.
      rewrite Hn.
      destruct (aligned_nth _ _ _ _ _ Ha Hn) as (c & it & Hc & Hit & Hp).
      apply pos_cons in Hp. destruct Hp as (_ & _ & _ & _ & it' & Hnext & Hp').
      pose proof (aligned_replace _ _ _ k c it' rest Ha Hc Hp') as Ha'.
      destruct (insert_all out result) as [result'|] eqn:Hins; simpl.
      * rewrite Hit. simpl. rewrite Hnext. simpl.
        rewrite (IH _ _ _ result' pending' Ha').
        destruct (ranges_unite_loop t fuel (replace_nth k rest rests) pending');
          simpl; [|reflexivity].
        rewrite insert_all_app, Hins. reflexivity.
      * destruct (ranges_unite_loop t fuel (replace_nth k rest rests) pending');
          simpl; [|reflexivity].
        rewrite insert_all_app, Hins. reflexivity.
Qed.

Lemma existsb_empty_sim (cs : list Cont) :
  Forall valid cs ->
  existsb (fun r => it_eq (cont_begin r) (cont_end r)) cs
  = existsb is_nil (map ranges_of cs).
Proof.
  induction 1 as [|c cs Hc _ IH]; simpl; [reflexivity|].
  rewrite IH. f_equal.
  pose proof (pos_begin c Hc) as Hp.
  destruct (ranges_of c) as [|r rest].
  - apply pos_nil in Hp. tauto.
  - apply pos_cons in Hp. tauto.
Qed.

(** With two inputs or more, [intersect_ranges] builds its result from
    the ranges the range-level intersection emits. *)
Lemma intersect_ranges_sim (fuel : nat) (c1 c2 : Cont) (cs : list Cont) :
  Forall valid (c1 :: c2 :: cs) ->
  intersect_ranges t fuel (c1 :: c2 :: cs)
  = (out <- ranges_intersect t fuel (map ranges_of (c1 :: c2 :: cs)) ;;
     build_with out).
Proof.
  intros Hv. unfold intersect_ranges, ranges_intersect.
  rewrite (existsb_empty_sim _ Hv).
  destruct (existsb is_nil (map ranges_of (c1 :: c2 :: cs))); [reflexivity|].
  apply (intersect_loop_sim t fuel). apply aligned_begin. exact Hv.
Qed.

(** With two inputs or more, [unite_ranges] builds its result from the
    ranges the range-level union emits. *)
Lemma unite_ranges_sim (fuel : nat) (c1 c2 : Cont) (cs : list Cont) :
  Forall valid (c1 :: c2 :: cs) ->
  unite_ranges t fuel (c1 :: c2 :: cs)
  = (out <- ranges_unite t fuel (map ranges_of (c1 :: c2 :: cs)) ;;
     build_with out).
Proof.
  intros Hv. unfold unite_ranges, ranges_unite.
  apply (unite_loop_sim fuel). apply aligned_begin. exact Hv.
Qed.

End SimulationUnion.

(* ------------------------------------------------------------------ *)
(** *** Correctness of the merge on sequences of ranges *)

(** An input of the merger: non-empty ranges with non-negative
    endpoints, ascending and non-overlapping (they may touch), with
    last endpoints at most [U]. *)
Definition proper_input (U : Z) (s : list (Z * Z)) : Prop :=
  sorted_from 0 s /\ Forall (fun r => snd r <= U) s.

Lemma sorted_from_raise (p q : Z) (s : list (Z * Z)) :
  sorted_from p s ->
  (forall r rest, s = r :: rest -> q <= fst r) ->
  sorted_from q s.
Proof.
  destruct s as [|r rest]; simpl; [tauto|].
  intros (H1 & H2 & H3) Hq. specialize (Hq r rest eq_refl). tauto.
Qed.

Lemma exists_contains_step (l1 l2 : list (list (Z * Z))) (r : Z * Z)
      (rest : list (Z * Z)) (x : Z) :
  Exists (fun s => contains s x) (l1 ++ (r :: rest) :: l2) <->
  (fst r <= x < snd r) \/ Exists (fun s => contains s x) (l1 ++ rest :: l2).
Proof. rewrite !Exists_app, !Exists_cons. simpl. tauto. Qed.

Lemma concat_step_length {A : Type} (l1 l2 : list (list A)) (r : A) (rest : list A) :
  length (concat (l1 ++ (r :: rest) :: l2))
  = S (length (concat (l1 ++ rest :: l2))).
Proof.
  rewrite !concat_app, !length_app. simpl. rewrite !length_app. lia.
Qed.

Lemma proper_input_step (U : Z) (l1 l2 : list (list (Z * Z))) (r : Z * Z)
      (rest : list (Z * Z)) :
  Forall (proper_input U) (l1 ++ (r :: rest) :: l2) ->
  Forall (proper_input U) (l1 ++ rest :: l2) /\
  0 <= fst r /\ fst r < snd r /\ snd r <= U /\ sorted_from (snd r) rest.
Proof.
  intros H. apply Forall_app in H. destruct H as [H1 H2].
  inversion H2 as [|? ? [Hs Hb] H3]; subst.
  simpl in Hs. destruct Hs as (Ha & Hb' & Hc).
  inversion Hb as [|? ? Hb1 Hb2]; subst.
  split; [|tauto].
  apply Forall_app. split; [exact H1|]. constructor; [|exact H3].
  split; [|exact Hb2].
  apply (sorted_from_weaken (snd r)); [lia | exact Hc].
Qed.

Section UnionCorrect.
Variable t : width.
Variable U : Z.
Hypothesis U_below_sentinel : U < numeric_max t.

Definition pending_before (pending : option (Z * Z))
           (rests : list (list (Z * Z))) : Prop :=
  match pending with
  | Some p => fst p < snd p /\ snd p <= U /\ Forall (sorted_from (fst p)) rests
  | None => True
  end.

Definition canon_after (pending : option (Z * Z)) (out : list (Z * Z)) : Prop :=
  match pending with
  | Some p => forall q, q < fst p -> canon_from q out
  | None => canon_from (-1) out
  end.

Lemma ranges_unite_loop_spec (fuel : nat) :
  forall rests pending,
    (length (concat rests) < fuel)%nat ->
    Forall (proper_input U) rests ->
    pending_before pending rests ->
    exists out,
      ranges_unite_loop t fuel rests pending = Some out /\
      (forall x, contains out x <->
                 contains (pending_list pending) x \/
                 Exists (fun s => contains s x) rests) /\
      canon_after pending out /\
      Forall (fun r => snd r <= U) out.
Proof.
  induction fuel as [|fuel IH]; intros rests pending Hfuel Hin Hpend; [lia|].
  simpl.
  destruct (ranges_unite_scan_spec rests 0%nat (numeric_max t) (numeric_max t) 0%nat)
    as (cb & ce & k & -> & Hpick).
  cbn [bind].
  destruct Hpick as [(_ & -> & _ & HF) | (_ & (rest & Hn) & _ & HF)].
  - (* every input is exhausted *)
    rewrite Z.eqb_refl.
    assert (Hnil : Forall (fun s => s = []) rests).
    { rewrite Forall_forall in *. intros s Hs.
      destruct s as [|r s']; [reflexivity|]. exfalso.
      specialize (HF _ Hs r s' eq_refl).
      destruct (Hin _ Hs) as [Hsort Hb]. simpl in Hsort.
      inversion Hb; subst. lia. }
    exists (pending_list pending). split; [reflexivity|]. split; [|split].
    + intros x. split; [auto|]. intros [H | H]; [exact H|].
      exfalso. apply Exists_exists in H. destruct H as (s & Hs & Hx).
      rewrite Forall_forall in Hnil. rewrite (Hnil s Hs) in Hx. exact Hx.
    + destruct pending as [p|]; simpl; [|exact I].
      destruct Hpend as (Hp & _). intros q Hq. simpl. tauto.
    + destruct pending as [p|]; simpl; [|constructor].
      destruct Hpend as (_ & Hp & _). repeat constructor. exact Hp.
  - (* the range (cb, ce) of input k is taken *)
    rewrite Nat.sub_0_r in Hn.
    destruct (nth_error_split _ _ Hn) as (l1 & l2 & -> & <-).
    destruct (proper_input_step U l1 l2 (cb, ce) rest Hin)
      as (Hin' & Hcb0 & Hcbce & HceU & Hrest).
    simpl in Hcb0, Hcbce, HceU, Hrest.
    destruct (Z.eqb_spec ce (numeric_max t)) as [E | _]; [lia|].
    rewrite nth_error_app2, Nat.sub_diag by lia. simpl.
    rewrite replace_nth_app.
    rewrite concat_step_length in Hfuel.
    assert (Hheads : Forall (sorted_from cb) (l1 ++ rest :: l2)).
    { apply Forall_app in HF. destruct HF as [HF1 HF2].
      inversion HF2 as [|? ? _ HF3]; subst.
      apply Forall_app in Hin'. destruct Hin' as [Hin1 Hin2].
      inversion Hin2 as [|? ? _ Hin3]; subst.
      apply Forall_app. split; [|constructor].
      - rewrite Forall_forall in *. intros s Hs.
        apply (sorted_from_raise 0); [apply Hin1; exact Hs | apply HF1; exact Hs].
      - apply (sorted_from_weaken ce); [lia | exact Hrest].
      - rewrite Forall_forall in *. intros s Hs.
        apply (sorted_from_raise 0); [apply Hin3; exact Hs | apply HF3; exact Hs]. }
    unfold merge_emit.
    destruct (Z.ltb_spec cb ce) as [_ | ?]; [|lia].
    destruct pending as [[pb pe]|]; simpl in Hpend; simpl snd; simpl fst.
    + destruct Hpend as (Hpbpe & HpeU & Hpb).
      assert (Hpbcb : pb <= cb).
      { apply Forall_app in Hpb. destruct Hpb as [_ Hpb].
        inversion Hpb as [|? ? Hs _]; subst. simpl in Hs. tauto. }
      assert (Hpb' : Forall (sorted_from pb) (l1 ++ rest :: l2)).
      { eapply Forall_impl; [|exact Hheads].
        intros s. apply sorted_from_weaken. exact Hpbcb. }
      destruct (Z.leb_spec cb pe) as [Hle | Hgt].
      * destruct (Z.ltb_spec pe ce) as [Hlt | Hge].
        -- destruct (IH (l1 ++ rest :: l2) (Some (pb, ce))) as (out & -> & S1 & S2 & S3);
             [lia | exact Hin' | simpl; repeat split; auto; lia |].
           exists out. split; [reflexivity|]. split; [|split].
           ++ intros x. rewrite S1, exists_contains_step. simpl. intuition lia.
           ++ exact S2.
           ++ exact S3.
        -- destruct (IH (l1 ++ rest :: l2) (Some (pb, pe))) as (out & -> & S1 & S2 & S3);
             [lia | exact Hin' | simpl; repeat split; auto; lia |].
           exists out. split; [reflexivity|]. split; [|split].
           ++ intros x. rewrite S1, exists_contains_step. simpl. intuition lia.
           ++ exact S2.
           ++ exact S3.
      * destruct (IH (l1 ++ rest :: l2) (Some (cb, ce))) as (out & -> & S1 & S2 & S3);
          [lia | exact Hin' | simpl; repeat split; auto; lia |].
        exists ((pb, pe) :: out). split; [reflexivity|]. split; [|split].
        -- intros x. simpl. rewrite S1, exists_contains_step. simpl. tauto.
        -- simpl. intros q Hq. simpl. repeat split; auto; apply S2; simpl; lia.
        -- constructor; [exact HpeU | exact S3].
    + destruct (IH (l1 ++ rest :: l2) (Some (cb, ce))) as (out & -> & S1 & S2 & S3);
        [lia | exact Hin' | simpl; repeat split; auto; lia |].
      exists out. split; [reflexivity|]. split; [|split].
      * intros x. rewrite S1, exists_contains_step. simpl. tauto.
      * simpl. apply S2. simpl. lia.
      * exact S3.
Qed.

(** The range-level union of proper inputs: it returns, what it
    returns is coalesced, and it denotes the union. *)
Lemma ranges_unite_correct (fuel : nat) (inputs : list (list (Z * Z))) :
  (length (concat inputs) < fuel)%nat ->
  Forall (proper_input U) inputs ->
  exists out,
    ranges_unite t fuel inputs = Some out /\
    (forall x, contains out x <-> Exists (fun s => contains s x) inputs) /\
    canonical out /\
    Forall (fun r => snd r <= U) out.
Proof.
  intros Hfuel Hin.
  destruct (ranges_unite_loop_spec fuel inputs None Hfuel Hin I)
    as (out & E & S1 & S2 & S3).
  exists out. split; [exact E|]. split; [|split; assumption].
  intros x. rewrite S1. simpl. tauto.
Qed.

End UnionCorrect.

(** What the scan of [intersect_ranges] computes on inputs that all
    have a current range: the largest first endpoint (or the running
    one), the least last endpoint below the running one, and the first
    input that attains it. *)
Lemma ranges_intersect_scan_spec (rests : list (list (Z * Z))) :
  Forall (fun s => s <> []) rests ->
  forall i cb ce k,
  exists cb' ce' k',
    ranges_intersect_scan rests i cb ce k = Some (cb', ce', k') /\
    cb <= cb' /\ ce' <= ce /\
    Forall (fun s => forall r rest, s = r :: rest ->
                                    fst r <= cb' /\ ce' <= snd r) rests /\
    (cb' = cb \/
     Exists (fun s => exists r rest, s = r :: rest /\ cb' = fst r) rests) /\
    ((ce' = ce /\ k' = k) \/
     ((i <= k')%nat /\
      exists r rest, nth_error rests (k' - i) = Some (r :: rest) /\
                     snd r = ce')).
Proof.
  induction 1 as [|s rests Hs _ IH]; intros i cb ce k.
  - exists cb, ce, k. simpl. repeat split; auto; lia.
  - destruct s as [|r s]; [congruence|]. simpl.
    set (cbn := if cb <? fst r then fst r else cb).
    assert (Hcbn : cb <= cbn /\ fst r <= cbn /\ (cbn = cb \/ cbn = fst r)).
    { unfold cbn. destruct (Z.ltb_spec cb (fst r)); lia. }
    destruct (Z.ltb_spec (snd r) ce) as [Hlt | Hge].
    + destruct (IH (S i) cbn (snd r) i)
        as (cb' & ce' & k' & E & H1 & H2 & H3 & H4 & H5).
      exists cb', ce', k'. split; [exact E|].
      split; [lia|]. split; [lia|]. split; [|split].
      * constructor; [|exact H3]. intros r0 rest0 [= <- _]. lia.
      * destruct H4 as [H4 | H4].
        -- destruct Hcbn as (_ & _ & [Hc | Hc]); [left; lia|].
           right. apply Exists_cons_hd. exists r, s. split; [reflexivity | lia].
        -- right. apply Exists_cons_tl. exact H4.
      * right. destruct H5 as [(-> & ->) | (Hi & r0 & rest0 & Hn & Hr)].
        -- split; [lia|]. exists r, s. rewrite Nat.sub_diag. auto.
        -- split; [lia|]. exists r0, rest0.
           replace (k' - i)%nat with (S (k' - S i)) by lia. auto.
    + destruct (IH (S i) cbn ce k)
        as (cb' & ce' & k' & E & H1 & H2 & H3 & H4 & H5).
      exists cb', ce', k'. split; [exact E|].
      split; [lia|]. split; [lia|]. split; [|split].
      * constructor; [|exact H3]. intros r0 rest0 [= <- _]. lia.
      * destruct H4 as [H4 | H4].
        -- destruct Hcbn as (_ & _ & [Hc | Hc]); [left; lia|].
           right. apply Exists_cons_hd. exists r, s. split; [reflexivity | lia].
        -- right. apply Exists_cons_tl. exact H4.
      * destruct H5 as [(-> & ->) | (Hi & r0 & rest0 & Hn & Hr)].
        -- left. auto.
        -- right. split; [lia|]. exists r0, rest0.
           replace (k' - i)%nat with (S (k' - S i)) by lia. auto.
Qed.

(** The current range of [s] starts at or after [v]. *)
Definition head_ge (v : Z) (s : list (Z * Z)) : Prop :=
  exists r rest, s = r :: rest /\ v <= fst r.

Lemma sorted_contains_head (s : list (Z * Z)) (r : Z * Z) (rest : list (Z * Z))
      (p x : Z) :
  sorted_from p s -> s = r :: rest -> contains s x -> fst r <= x.
Proof.
  intros Hs -> Hx. simpl in Hs. destruct Hs as (H1 & H2 & H3).
  simpl in Hx. destruct Hx as [Hx | Hx]; [lia|].
  pose proof (sorted_from_lower _ _ _ H3 Hx). lia.
Qed.

Section WindowEmit.
Variable U : Z.

(** The pending range after a window. *)
Lemma window_emit_pending (pending : option (Z * Z)) (cb ce : Z) :
  match pending with
  | Some p => fst p < snd p /\ snd p <= U /\ snd p <= cb
  | None => True
  end ->
  ce <= U ->
  match snd (window_emit pending cb ce) with
  | Some p' => fst p' < snd p' /\ snd p' <= U /\
               ((cb < ce /\ snd p' = ce) \/ (ce <= cb /\ snd p' <= cb))
  | None => ce <= cb
  end.
Proof.
  intros Hp Hce. unfold window_emit.
  destruct (Z.ltb_spec cb ce) as [Hlt | Hge].
  - destruct pending as [[pb pe]|]; simpl in *.
    + destruct (Z.eqb_spec pe cb); simpl; lia.
    + lia.
  - destruct pending as [[pb pe]|]; simpl in *; lia.
Qed.

(** Putting the ranges flushed by a window in front of what follows. *)
Lemma window_emit_assemble (pending : option (Z * Z)) (cb ce : Z)
      (more : list (Z * Z)) (R : Z -> Prop) :
  match pending with
  | Some p => fst p < snd p /\ snd p <= U /\ snd p <= cb
  | None => True
  end ->
  0 <= cb -> ce <= U ->
  (forall x, contains more x <->
             contains (pending_list (snd (window_emit pending cb ce))) x \/ R x) ->
  canon_after (snd (window_emit pending cb ce)) more ->
  Forall (fun r => snd r <= U) more ->
  (forall x, contains (fst (window_emit pending cb ce) ++ more) x <->
             contains (pending_list pending) x \/ (cb <= x < ce) \/ R x) /\
  canon_after pending (fst (window_emit pending cb ce) ++ more) /\
  Forall (fun r => snd r <= U) (fst (window_emit pending cb ce) ++ more).
Proof.
  intros Hp Hcb Hce Hset Hcan Hbd. unfold window_emit in *.
  destruct (Z.ltb_spec cb ce) as [Hlt | Hge].
  - destruct pending as [[pb pe]|]; simpl in *.
    + destruct (Z.eqb_spec pe cb) as [-> | Hne]; simpl in *.
      * split; [|split; assumption].
        intros x. rewrite Hset. intuition lia.
      * split; [|split].
        -- intros x. rewrite Hset. tauto.
        -- intros q Hq. repeat split; try lia. apply Hcan. lia.
        -- constructor; [simpl; lia | assumption].
    + split; [|split].
      * intros x. rewrite Hset. tauto.
      * apply Hcan. lia.
      * assumption.
  - simpl. split; [|split; assumption].
    intros x. rewrite Hset. intuition lia.
Qed.

End WindowEmit.

Lemma Exists_replace_middle {A : Type} (P Q : A -> Prop) (l1 l2 : list A) (a b : A) :
  Exists P (l1 ++ a :: l2) -> ~ P a -> (forall s, P s -> Q s) ->
  Exists Q (l1 ++ b :: l2).
Proof.
  intros H Ha HPQ. apply Exists_app in H. apply Exists_app.
  destruct H as [H | H].
  - left. eapply Exists_impl; eauto.
  - right. inversion H; subst; [contradiction|].
    apply Exists_cons_tl. eapply Exists_impl; eauto.
Qed.

Section IntersectCorrect.
Variable t : width.
Variable U : Z.
Hypothesis U_at_most_max : U <= numeric_max t.

Definition inter_input (s : list (Z * Z)) : Prop :=
  s <> [] /\ proper_input U s.

Definition begin_ok (rests : list (list (Z * Z))) (cb : Z) : Prop :=
  cb <= 0 \/ Exists (head_ge cb) rests.

Definition pending_ok (pending : option (Z * Z))
           (rests : list (list (Z * Z))) (cb : Z) : Prop :=
  match pending with
  | Some p => fst p < snd p /\ snd p <= U /\
              (snd p <= cb \/ Exists (head_ge (snd p)) rests)
  | None => True
  end.

Lemma forall_contains_step (l1 l2 : list (list (Z * Z))) (rk : Z * Z)
      (restk : list (Z * Z)) (cb' : Z) :
  Forall inter_input (l1 ++ (rk :: restk) :: l2) ->
  Forall (fun s => forall r rest, s = r :: rest ->
                                  fst r <= cb' /\ snd rk <= snd r)
         (l1 ++ (rk :: restk) :: l2) ->
  (forall x, Forall (fun s => contains s x) (l1 ++ (rk :: restk) :: l2) ->
             cb' <= x) ->
  forall x,
    Forall (fun s => contains s x) (l1 ++ (rk :: restk) :: l2) <->
    (cb' <= x < snd rk) \/ Forall (fun s => contains s x) (l1 ++ restk :: l2).
Proof.
  intros Hin Hheads Hcb x. split.
  - intros Hall. destruct (Z.lt_ge_cases x (snd rk)) as [Hlt | Hge].
    + left. split; [apply Hcb; exact Hall | exact Hlt].
    + right. apply Forall_app in Hall. destruct Hall as [Ha Hb].
      inversion Hb as [|? ? Hm Hc]; subst.
      apply Forall_app. split; [exact Ha|]. constructor; [|exact Hc].
      simpl in Hm. destruct Hm as [Hm | Hm]; [lia | exact Hm].
  - intros [Hw | Hall].
    + rewrite Forall_forall in *. intros s Hs.
      destruct (Hin s Hs) as [Hne _].
      destruct s as [|r rest]; [congruence|].
      destruct (Hheads _ Hs r rest eq_refl). simpl. left. lia.
    + apply Forall_app in Hall. destruct Hall as [Ha Hb].
      inversion Hb as [|? ? Hm Hc]; subst.
      apply Forall_app. split; [exact Ha|]. constructor; [|exact Hc].
      simpl. right. exact Hm.
Qed.

Lemma inter_input_step (l1 l2 : list (list (Z * Z))) (rk r2 : Z * Z)
      (rest2 : list (Z * Z)) :
  Forall inter_input (l1 ++ (rk :: r2 :: rest2) :: l2) ->
  Forall inter_input (l1 ++ (r2 :: rest2) :: l2) /\ snd rk <= fst r2.
Proof.
  intros H. apply Forall_app in H. destruct H as [H1 H2].
  inversion H2 as [|? ? [_ [Hs Hb]] H3]; subst.
  simpl in Hs. destruct Hs as (Ha & Hb' & Hc & Hd & He).
  inversion Hb as [|? ? Hb1 Hb2]; subst.
  split; [|lia].
  apply Forall_app. split; [exact H1|]. constructor; [|exact H3].
  split; [discriminate|]. split; [|exact Hb2].
  simpl. repeat split; auto; lia.
Qed.

Lemma ranges_intersect_loop_spec (fuel : nat) :
  forall rests cb pending k,
    (length (concat rests) < fuel)%nat ->
    Forall inter_input rests ->
    (k < length rests)%nat ->
    begin_ok rests cb ->
    pending_ok pending rests cb ->
    exists out,
      ranges_intersect_loop t fuel rests cb pending k = Some out /\
      (forall x, contains out x <->
                 contains (pending_list pending) x \/
                 Forall (fun s => contains s x) rests) /\
      canon_after pending out /\
      Forall (fun r => snd r <= U) out.
Proof.
  induction fuel as [|fuel IH]; intros rests cb pending k Hfuel Hin Hk Hcb Hpend;
    [lia|].
  simpl.
  assert (Hne : Forall (fun s => s <> []) rests).
  { eapply Forall_impl; [|exact Hin]. intros s [H _]. exact H. }
  destruct (ranges_intersect_scan_spec rests Hne 0%nat cb (numeric_max t) k)
    as (cb' & ce' & k' & -> & H1 & H2 & H3 & H4 & H5).
  cbn [bind].
  assert (Hpick : exists rk restk,
             nth_error rests k' = Some (rk :: restk) /\ snd rk = ce').
  { destruct H5 as [(Hce & ->) | (_ & r & rest & Hn & Hr)].
    - destruct (nth_error rests k) as [s|] eqn:En;
        [|apply nth_error_None in En; lia].
      pose proof (nth_error_In _ _ En) as Hs.
      rewrite Forall_forall in Hin, H3.
      destruct (Hin s Hs) as [Hsne [_ Hb]].
      destruct s as [|r rest]; [congruence|].
      exists r, rest. split; [reflexivity|].
      destruct (H3 _ Hs r rest eq_refl). inversion Hb; subst. lia.
    - rewrite Nat.sub_0_r in Hn. eauto. }
  destruct Hpick as (rk & restk & Hn & Hrk).
  destruct (nth_error_split _ _ Hn) as (l1 & l2 & -> & <-).
  rewrite nth_error_app2, Nat.sub_diag by lia. cbn [nth_error].
  subst ce'.
  (* the current range of the input that is advanced *)
  assert (Hrk0 : 0 <= fst rk /\ fst rk < snd rk /\ snd rk <= U).
  { apply Forall_app in Hin. destruct Hin as [_ Hin].
    inversion Hin as [|? ? [_ [Hs Hb]] _]; subst.
    simpl in Hs. inversion Hb; subst. lia. }
  assert (Hrkcb : fst rk <= cb').
  { apply Forall_app in H3. destruct H3 as [_ H3].
    inversion H3 as [|? ? Hh _]; subst.
    destruct (Hh rk restk eq_refl). assumption. }
  assert (HP : match pending with
               | Some p => fst p < snd p /\ snd p <= U /\ snd p <= cb'
               | None => True
               end).
  { destruct pending as [p|]; [|exact I]. simpl in Hpend.
    destruct Hpend as (Hp1 & Hp2 & [Hp3 | Hp3]); [lia|].
    split; [exact Hp1|]. split; [exact Hp2|].
    apply Exists_exists in Hp3. destruct Hp3 as (s & Hs & r & rest & -> & Hr).
    rewrite Forall_forall in H3. destruct (H3 _ Hs r rest eq_refl). lia. }
  assert (Hlow : forall x,
             Forall (fun s => contains s x) (l1 ++ (rk :: restk) :: l2) ->
             cb' <= x).
  { intros x Hall.
    assert (Hhead : forall s r rest,
               In s (l1 ++ (rk :: restk) :: l2) -> s = r :: rest -> fst r <= x).
    { intros s r rest Hs Es. rewrite Forall_forall in Hin, Hall.
      destruct (Hin s Hs) as [_ [Hsort _]].
      apply (sorted_contains_head s r rest 0); auto. }
    assert (Hcbx : cb <= x).
    { destruct Hcb as [Hcb | Hcb].
      - assert (fst rk <= x)
          by (apply (Hhead (rk :: restk) rk restk); auto using in_elt).
        lia.
      - apply Exists_exists in Hcb.
        destruct Hcb as (s & Hs & r & rest & Es & Hr).
        pose proof (Hhead s r rest Hs Es). lia. }
    destruct H4 as [-> | H4]; [exact Hcbx|].
    apply Exists_exists in H4. destruct H4 as (s & Hs & r & rest & Es & ->).
    apply (Hhead s r rest Hs Es). }
  pose proof (forall_contains_step l1 l2 rk restk cb' Hin H3 Hlow) as Hstep.
  pose proof (window_emit_pending U pending cb' (snd rk) HP (proj2 (proj2 Hrk0)))
    as Hpend'.
  pose proof (window_emit_assemble U pending cb' (snd rk)) as Hasm.
  remember (window_emit pending cb' (snd rk)) as we eqn:Hw.
  destruct we as [out pending']. simpl fst in *. simpl snd in *.
  (* what follows the window *)
  assert (Hmore : exists more,
             match restk with
             | [] => Some (out ++ pending_list pending')
             | _ :: _ =>
                 more <- ranges_intersect_loop t fuel
                           (replace_nth (length l1) restk
                                        (l1 ++ (rk :: restk) :: l2))
                           cb' pending' (length l1) ;;
                 Some (out ++ more)
             end = Some (out ++ more) /\
             (forall x, contains more x <->
                        contains (pending_list pending') x \/
                        Forall (fun s => contains s x) (l1 ++ restk :: l2)) /\
             canon_after pending' more /\
             Forall (fun r => snd r <= U) more).
  { destruct restk as [|r2 rest2].
    - exists (pending_list pending'). split; [reflexivity|]. split; [|split].
      + intros x. split; [auto|]. intros [H | H]; [exact H|].
        apply Forall_app in H. destruct H as [_ H].
        inversion H as [|? ? Hc _]; subst. destruct Hc.
      + destruct pending' as [p'|]; simpl; [|exact I].
        intros q Hq. simpl. intuition lia.
      + destruct pending' as [p'|]; simpl; [|constructor].
        repeat constructor. tauto.
    - rewrite replace_nth_app.
      destruct (inter_input_step l1 l2 rk r2 rest2 Hin) as [Hin' Hr2].
      rewrite concat_step_length in Hfuel.
      destruct (IH (l1 ++ (r2 :: rest2) :: l2) cb' pending' (length l1))
        as (more & -> & S1 & S2 & S3).
      + lia.
      + exact Hin'.
      + rewrite length_app. simpl. lia.
      + (* begin_ok *)
        destruct (Z.lt_ge_cases cb' (snd rk)) as [Hlt | Hge].
        * right. apply Exists_app. right. apply Exists_cons_hd.
          exists r2, rest2. split; [reflexivity | lia].
        * destruct H4 as [-> | H4].
          -- destruct Hcb as [Hcb | Hcb]; [left; exact Hcb|].
             right. apply (Exists_replace_middle _ _ _ _ _ _ Hcb).
             ++ intros (r & rest & [= <- _] & Hr). lia.
             ++ auto.
          -- right. apply (Exists_replace_middle _ _ _ _ _ _ H4).
             ++ intros (r & rest & [= <- _] & Hr). lia.
             ++ intros s (r & rest & Es & Hr). exists r, rest. split; [exact Es | lia].
      + (* pending_ok *)
        destruct pending' as [p'|]; simpl; [|exact I].
        destruct Hpend' as (Hp1 & Hp2 & [[Hp3 Hp4] | [Hp3 Hp4]]).
        * split; [exact Hp1|]. split; [exact Hp2|]. right.
          apply Exists_app. right. apply Exists_cons_hd.
          exists r2, rest2. split; [reflexivity | lia].
        * split; [exact Hp1|]. split; [exact Hp2|]. left. exact Hp4.
      + exists more. split; [reflexivity|]. split; [exact S1|]. split; assumption. }
  destruct Hmore as (more & Emore & M1 & M2 & M3).
  exists (out ++ more). split; [exact Emore|].
  destruct (Hasm more (fun x => Forall (fun s => contains s x) (l1 ++ restk :: l2)))
    as (A1 & A2 & A3); auto; try lia.
  split; [|split; assumption].
  intros x. rewrite A1, Hstep. tauto.
Qed.

(** The range-level intersection of proper inputs: it returns, what it
    returns is coalesced, and it denotes the intersection. *)
Lemma ranges_intersect_correct (fuel : nat) (inputs : list (list (Z * Z))) :
  (length (concat inputs) < fuel)%nat ->
  inputs <> [] ->
  Forall (proper_input U) inputs ->
  exists out,
    ranges_intersect t fuel inputs = Some out /\
    (forall x, contains out x <-> Forall (fun s => contains s x) inputs) /\
    canonical out /\
    Forall (fun r => snd r <= U) out.
Proof.
  intros Hfuel Hne Hin. unfold ranges_intersect.
  destruct (existsb is_nil inputs) eqn:Hex.
  - exists []. split; [reflexivity|].
    split; [|split; [exact I | constructor]].
    intros x. simpl. split; [tauto|]. intros Hall.
    apply existsb_exists in Hex. destruct Hex as (s & Hs & Hnil).
    rewrite Forall_forall in Hall. specialize (Hall s Hs).
    destruct s; [exact Hall | discriminate].
  - assert (Hin' : Forall inter_input inputs).
    { rewrite Forall_forall in *. intros s Hs. split; [|apply Hin; exact Hs].
      intros ->. 
      assert (existsb is_nil inputs = true)
        by (apply existsb_exists; exists []; auto).
      congruence. }
    destruct (ranges_intersect_loop_spec fuel inputs 0 None 0%nat)
      as (out & E & S1 & S2 & S3); auto.
    + destruct inputs; [congruence | simpl; lia].
    + left. lia.
    + exact I.
    + exists out. split; [exact E|]. split; [|split; assumption].
      intros x. rewrite S1. simpl. tauto.
Qed.

End IntersectCorrect.

(* ------------------------------------------------------------------ *)
(** *** The iterators of the two container kinds *)

Section IRVIterators.
Variable t : width.

Definition irv_pos (c : IntegralRangeVector) (it : const_iterator)
           (rest : list (Z * Z)) : Prop :=
  exists pre suf,
    _rangeVect c = pre ++ suf /\ it = iter_at t pre suf /\
    paired t suf = true /\ decode t suf = rest.

Lemma paired_decode_nil (suf : list Z) :
  paired t suf = true -> decode t suf = [] -> suf = [].
Proof.
  destruct suf as [|x rest]; [reflexivity|]. simpl.
  destruct (tagged t x); [|discriminate].
  destruct rest; discriminate.
Qed.

Lemma irv_pos_begin (c : IntegralRangeVector) :
  paired t (_rangeVect c) = true ->
  irv_pos c (cbegin t c) (decode t (_rangeVect c)).
Proof.
  intros Hp. exists [], (_rangeVect c). repeat split; auto.
Qed.

Lemma irv_pos_nil (c : IntegralRangeVector) (it : const_iterator) :
  irv_pos c it [] ->
  iter_eq it (cend t c) = true /\ iter_ge it (cend t c) = true.
Proof.
  intros (pre & suf & Hc & -> & Hp & Hd).
  apply paired_decode_nil in Hd; [|exact Hp]. subst suf.
  unfold iter_eq, iter_ge. simpl. rewrite Hc.
  split; [apply Nat.eqb_eq | apply Nat.leb_le]; rewrite app_nil_r; lia.
Qed.

Lemma arrow_cons (pre : list Z) (x : Z) (rest : list Z) :
  arrow (iter_at t pre (x :: rest))
  = Some (calculate_value t (pre ++ x :: rest) (length pre)
                          (length (pre ++ x :: rest))).
Proof. unfold arrow. simpl. rewrite iter_at_base_lt. reflexivity. Qed.

Lemma irv_pos_cons (c : IntegralRangeVector) (it : const_iterator)
      (r : Z * Z) (rest : list (Z * Z)) :
  irv_pos c it (r :: rest) ->
  iter_eq it (cend t c) = false /\ iter_ge it (cend t c) = false /\
  (range <- arrow it ;; Some (fst range)) = Some (fst r) /\
  (range <- arrow it ;; Some (snd range)) = Some (snd r) /\
  exists it', pre_increment t it = Some it' /\ irv_pos c it' rest.
Proof.
  intros (pre & suf & Hc & -> & Hp & Hd).
  destruct suf as [|x suf]; [discriminate|].
  assert (Hlen : (length pre < length (pre ++ x :: suf))%nat)
    by (rewrite length_app; simpl; lia).
  split; [|split].
  { unfold iter_eq. simpl. rewrite Hc. apply Nat.eqb_neq. lia. }
  { unfold iter_ge. simpl. rewrite Hc. apply Nat.leb_gt. lia. }
  rewrite arrow_cons. unfold pre_increment. simpl in Hp, Hd.
  destruct (tagged t x) eqn:Hx.
  - destruct suf as [|y suf]; [discriminate|].
    apply andb_prop in Hp. destruct Hp as [_ Hp].
    injection Hd as <- <-.
    rewrite value_pair by assumption. simpl.
    split; [reflexivity|]. split; [reflexivity|].
    exists (iter_at t (pre ++ [x; y]) suf).
    rewrite advance_pair by assumption. split; [reflexivity|].
    exists (pre ++ [x; y]), suf. rewrite <- app_assoc. auto.
  - injection Hd as <- <-.
    rewrite value_single by assumption. simpl.
    split; [reflexivity|]. split; [reflexivity|].
    exists (iter_at t (pre ++ [x]) suf).
    rewrite advance_single by assumption. split; [reflexivity|].
    exists (pre ++ [x]), suf. rewrite <- app_assoc. auto.
Qed.

End IRVIterators.

#[export] Instance irv_laws (t : width)
  : @RangeContainerLaws IntegralRangeVector const_iterator (irv_container t) :=
  @Build_RangeContainerLaws
    IntegralRangeVector const_iterator (irv_container t)
    (fun c => decode t (_rangeVect c))
    (fun c => paired t (_rangeVect c) = true)
    (irv_pos t)
    (irv_pos_begin t) (irv_pos_nil t) (irv_pos_cons t).

Section VectorIterators.
Variable t : width.

(** The range [[v, v+1)] a value stands for. *)
Definition singleton (v : Z) : Z * Z := (v, to_T t (v + 1)).

Definition vector_pos (v : list Z) (it : vector_iterator)
           (rest : list (Z * Z)) : Prop :=
  exists pre suf,
    v = pre ++ suf /\ it = mkVIter v (length pre) /\ rest = map singleton suf.

Lemma vector_pos_begin (v : list Z) :
  True -> vector_pos v (mkVIter v 0) (map singleton v).
Proof. intros _. exists [], v. auto. Qed.

Lemma vector_pos_nil (v : list Z) (it : vector_iterator) :
  vector_pos v it [] ->
  (v_pos it =? length v)%nat = true /\ (length v <=? v_pos it)%nat = true.
Proof.
  intros (pre & suf & -> & -> & Hr).
  destruct suf; [|discriminate]. simpl. rewrite app_nil_r.
  split; [apply Nat.eqb_refl | apply Nat.leb_refl].
Qed.

Lemma vector_pos_cons (v : list Z) (it : vector_iterator)
      (r : Z * Z) (rest : list (Z * Z)) :
  vector_pos v it (r :: rest) ->
  (v_pos it =? length v)%nat = false /\
  (length v <=? v_pos it)%nat = false /\
  v_deref it = Some (fst r) /\
  (x <- v_deref it ;; Some (to_T t (x + 1))) = Some (snd r) /\
  exists it', Some (mkVIter (v_store it) (S (v_pos it))) = Some it' /\
              vector_pos v it' rest.
Proof.
  intros (pre & suf & -> & -> & Hr).
  destruct suf as [|x suf]; [discriminate|].
  injection Hr as -> ->. simpl.
  assert (Hlen : (length pre < length (pre ++ x :: suf))%nat)
    by (rewrite length_app; simpl; lia).
  assert (Hd : v_deref (mkVIter (pre ++ x :: suf) (length pre)) = Some x).
  { unfold v_deref. simpl. rewrite nth_error_app2, Nat.sub_diag by lia.
    reflexivity. }
  split; [apply Nat.eqb_neq; lia|].
  split; [apply Nat.leb_gt; lia|].
  rewrite Hd. simpl. split; [reflexivity|]. split; [reflexivity|].
  eexists. split; [reflexivity|].
  exists (pre ++ [x]), suf. rewrite <- app_assoc.
  repeat split; auto. rewrite length_app. simpl.
  f_equal. lia.
Qed.

End VectorIterators.

#[export] Instance vector_laws (t : width)
  : @RangeContainerLaws (list Z) vector_iterator (vector_container t) :=
  @Build_RangeContainerLaws
    (list Z) vector_iterator (vector_container t)
    (fun v => map (singleton t) v)
    (fun _ => True)
    (vector_pos t)
    (vector_pos_begin t) (vector_pos_nil t) (vector_pos_cons t).

(* ------------------------------------------------------------------ *)
(** *** Inputs and outputs of the merger *)

(** The inputs the merger accepts for a container kind, with last
    endpoints up to [U], and the outputs [insert_back] builds. *)
Class MergeLaws (Cont It : Type) `{RL : RangeContainerLaws Cont It} (U : Z)
  : Type := {
  input_ok : Cont -> Prop;
  input_ok_valid : forall c, input_ok c -> valid c;
  input_ok_proper : forall c, input_ok c -> proper_input U (ranges_of c);
  build_ok : forall out,
      canonical out -> Forall (fun r => snd r <= U) out ->
      exists c, build_with out = Some c /\ input_ok c /\
                forall x, contains (ranges_of c) x <-> contains out x
}.

Section MergeCorrect.
Context {Cont It : Type} {RC : RangeContainer Cont It}
        {RL : @RangeContainerLaws Cont It RC}
        {U : Z} {ML : @MergeLaws Cont It RC RL U}.
Variable t : width.

(** The fuel one merge takes: one step for each range of each input. *)
Definition total_ranges (cs : list Cont) : nat :=
  length (concat (map ranges_of cs)).

(** The set a container denotes. *)
Definition denotes (c : Cont) (x : Z) : Prop := contains (ranges_of c) x.

(** [c] is the container built for the set [S]. *)
Definition built_for (S : Z -> Prop) (c : Cont) : Prop :=
  exists out,
    canonical out /\ Forall (fun r => snd r <= U) out /\
    build_with out = Some c /\
    forall x, contains out x <-> S x.

Lemma built_for_unique (S S' : Z -> Prop) (c c' : Cont) :
  built_for S c -> built_for S' c' -> (forall x, S x <-> S' x) -> c = c'.
Proof.
  intros (out & C1 & _ & B1 & E1) (out' & C2 & _ & B2 & E2) HS.
  assert (out = out').
  { apply (canonical_unique _ _ (-1)); auto.
    intros x. rewrite E1, E2. apply HS. }
  subst out'. congruence.
Qed.

Lemma built_for_ok (S : Z -> Prop) (c : Cont) :
  built_for S c -> input_ok c /\ forall x, denotes c x <-> S x.
Proof.
  intros (out & C1 & Hb & B1 & E1).
  destruct (build_ok out C1 Hb) as (c' & B2 & Hok & Hset).
  assert (c' = c) by congruence. subst c'.
  split; [exact Hok|]. intros x. unfold denotes. rewrite Hset. apply E1.
Qed.

Lemma inputs_proper (cs : list Cont) :
  Forall input_ok cs -> Forall (proper_input U) (map ranges_of cs).
Proof.
  intros H. apply Forall_map. eapply Forall_impl; [|exact H].
  apply input_ok_proper.
Qed.

Lemma inputs_valid (cs : list Cont) :
  Forall input_ok cs -> Forall valid cs.
Proof. apply Forall_impl. apply input_ok_valid. Qed.

(** [intersect_ranges] on two inputs or more. *)
Lemma intersect_many (fuel : nat) (c1 c2 : Cont) (cs : list Cont) :
  U <= numeric_max t ->
  Forall input_ok (c1 :: c2 :: cs) ->
  (total_ranges (c1 :: c2 :: cs) < fuel)%nat ->
  exists c,
    intersect_ranges t fuel (c1 :: c2 :: cs) = Some c /\
    built_for (fun x => Forall (fun c => denotes c x) (c1 :: c2 :: cs)) c.
Proof.
  intros HU Hok Hfuel.
  rewrite (intersect_ranges_sim t fuel c1 c2 cs (inputs_valid _ Hok)).
  destruct (ranges_intersect_correct t U HU fuel
              (map ranges_of (c1 :: c2 :: cs)))
    as (out & -> & Hset & Hcan & Hb).
  - exact Hfuel.
  - discriminate.
  - apply inputs_proper. exact Hok.
  - cbn [bind].
    destruct (build_ok out Hcan Hb) as (c & Hc & _ & _).
    exists c. split; [exact Hc|].
    exists out. split; [exact Hcan|]. split; [exact Hb|].
    split; [exact Hc|].
    intros x. rewrite Hset. unfold denotes. rewrite Forall_map. tauto.
Qed.

(** [unite_ranges] on two inputs or more. *)
Lemma unite_many (fuel : nat) (c1 c2 : Cont) (cs : list Cont) :
  U < numeric_max t ->
  Forall input_ok (c1 :: c2 :: cs) ->
  (total_ranges (c1 :: c2 :: cs) < fuel)%nat ->
  exists c,
    unite_ranges t fuel (c1 :: c2 :: cs) = Some c /\
    built_for (fun x => Exists (fun c => denotes c x) (c1 :: c2 :: cs)) c.
Proof.
  intros HU Hok Hfuel.
  rewrite (unite_ranges_sim t fuel c1 c2 cs (inputs_valid _ Hok)).
  destruct (ranges_unite_correct t U HU fuel
              (map ranges_of (c1 :: c2 :: cs)))
    as (out & -> & Hset & Hcan & Hb).
  - exact Hfuel.
  - apply inputs_proper. exact Hok.
  - cbn [bind].
    destruct (build_ok out Hcan Hb) as (c & Hc & _ & _).
    exists c. split; [exact Hc|].
    exists out. split; [exact Hcan|]. split; [exact Hb|].
    split; [exact Hc|].
    intros x. rewrite Hset. unfold denotes. rewrite Exists_map. tauto.
Qed.

End MergeCorrect.

Arguments built_for {Cont It RC} U S c.

(* ------------------------------------------------------------------ *)
(** *** Commutativity and associativity of a merge *)

Section MergeAlgebra.
Context {Cont It : Type} {RC : RangeContainer Cont It}
        {RL : @RangeContainerLaws Cont It RC}
        {U : Z} {ML : @MergeLaws Cont It RC RL U}.

(** A merge [op] whose result on two inputs or more is the container
    built for the set [S] of its inputs. *)
Variable op : nat -> list Cont -> option Cont.
Variable S : list Cont -> Z -> Prop.
Hypothesis op_nil : forall fuel, op fuel [] = Some cont_new.
Hypothesis op_one : forall fuel c, op fuel [c] = Some c.
Hypothesis op_many : forall fuel c1 c2 cs,
    Forall input_ok (c1 :: c2 :: cs) ->
    (total_ranges (c1 :: c2 :: cs) < fuel)%nat ->
    exists c, op fuel (c1 :: c2 :: cs) = Some c /\
              built_for U (S (c1 :: c2 :: cs)) c.
Hypothesis S_one : forall c x, S [c] x <-> denotes c x.
Hypothesis S_perm : forall cs cs',
    Permutation cs cs' -> forall x, S cs x <-> S cs' x.
Hypothesis S_groups : forall groups rs,
    Forall (fun g => g <> []) groups ->
    Forall2 (fun g r => forall x, denotes r x <-> S g x) groups rs ->
    forall x, S rs x <-> S (concat groups) x.

Lemma total_ranges_perm (cs cs' : list Cont) :
  Permutation cs cs' -> total_ranges cs = total_ranges cs'.
Proof.
  unfold total_ranges.
  induction 1; simpl; rewrite ?length_app in *; lia.
Qed.

Lemma total_ranges_app (cs cs' : list Cont) :
  total_ranges (cs ++ cs') = (total_ranges cs + total_ranges cs')%nat.
Proof.
  unfold total_ranges. rewrite map_app, concat_app, length_app. reflexivity.
Qed.

(** The result of [op] does not depend on the fuel, once there is
    enough of it. *)
Lemma op_result (cs : list Cont) :
  Forall input_ok cs -> cs <> [] ->
  exists c,
    input_ok c /\ (forall x, denotes c x <-> S cs x) /\
    forall fuel, (total_ranges cs < fuel)%nat -> op fuel cs = Some c.
Proof.
  intros Hok Hne. destruct cs as [|c1 [|c2 cs]]; [congruence| |].
  - exists c1. inversion Hok; subst. split; [assumption|].
    split; [intros x; symmetry; apply S_one | intros; apply op_one].
  - destruct (op_many (Datatypes.S (total_ranges (c1 :: c2 :: cs))) c1 c2 cs Hok)
      as (c & _ & Hb); [lia|].
    exists c. destruct (built_for_ok _ _ Hb) as [H1 H2].
    split; [exact H1|]. split; [exact H2|].
    intros fuel Hfuel.
    destruct (op_many fuel c1 c2 cs Hok Hfuel) as (c' & E & Hb').
    rewrite E. f_equal.
    apply (built_for_unique _ _ _ _ Hb' Hb). tauto.
Qed.

(** The result does not depend on the order of the inputs. *)
Lemma op_commutative (fuel : nat) (cs cs' : list Cont) :
  Permutation cs cs' ->
  Forall input_ok cs ->
  (total_ranges cs < fuel)%nat ->
  exists c, op fuel cs = Some c /\ op fuel cs' = Some c.
Proof.
  intros Hperm Hok Hfuel.
  assert (Hok' : Forall input_ok cs').
  { rewrite Forall_forall in *. intros c Hc. apply Hok.
    apply (Permutation_in c (Permutation_sym Hperm) Hc). }
  pose proof (total_ranges_perm _ _ Hperm) as Ht.
  pose proof (Permutation_length Hperm) as Hlen.
  destruct cs as [|c1 [|c2 cs]].
  - apply Permutation_nil in Hperm. subst. exists cont_new.
    split; apply op_nil.
  - apply Permutation_length_1_inv in Hperm. subst. exists c1.
    split; apply op_one.
  - destruct cs' as [|a [|b cs']]; try discriminate.
    destruct (op_many fuel c1 c2 cs Hok Hfuel) as (c & E & Hb).
    destruct (op_many fuel a b cs' Hok') as (c' & E' & Hb'); [lia|].
    exists c. split; [exact E|]. rewrite E'. f_equal.
    apply (built_for_unique _ _ _ _ Hb' Hb).
    intros x. symmetry. apply S_perm. exact Hperm.
Qed.

Lemma group_results (groups : list (list Cont)) :
  Forall (fun g => g <> [] /\ Forall input_ok g) groups ->
  exists rs,
    Forall input_ok rs /\
    Forall2 (fun g r => forall x, denotes r x <-> S g x) groups rs /\
    forall fuel, (total_ranges (concat groups) < fuel)%nat ->
                 Forall2 (fun g r => op fuel g = Some r) groups rs.
Proof.
  induction 1 as [|g groups [Hne Hok] _ IH].
  - exists []. repeat split; constructor.
  - destruct IH as (rs & H1 & H2 & H3).
    destruct (op_result g Hok Hne) as (r & R1 & R2 & R3).
    exists (r :: rs). split; [constructor; assumption|].
    split; [constructor; assumption|].
    intros fuel Hfuel. simpl in Hfuel. rewrite total_ranges_app in Hfuel.
    constructor; [apply R3; lia | apply H3; lia].
Qed.

(** Merging the results of the groups is merging all the inputs. *)
Lemma op_associative (groups : list (list Cont)) :
  Forall (fun g => g <> [] /\ Forall input_ok g) groups ->
  exists N, forall fuel, (N <= fuel)%nat ->
    exists rs c,
      Forall2 (fun g r => op fuel g = Some r) groups rs /\
      op fuel (concat groups) = Some c /\
      op fuel rs = Some c.
Proof.
  intros Hg.
  destruct (group_results groups Hg) as (rs & Hrs & Hden & Hruns).
  exists (Datatypes.S (total_ranges (concat groups) + total_ranges rs)).
  intros fuel Hfuel.
  exists rs.
  assert (Hflat : Forall input_ok (concat groups)).
  { apply Forall_concat. eapply Forall_impl; [|exact Hg]. simpl. tauto. }
  assert (Hfull : Forall (fun g => g <> []) groups).
  { eapply Forall_impl; [|exact Hg]. simpl. tauto. }
  specialize (Hruns fuel ltac:(lia)).
  destruct groups as [|g1 [|g2 groups]].
  - inversion Hruns; subst. exists cont_new. simpl.
    split; [constructor|]. split; apply op_nil.
  - inversion Hruns as [|? r1 ? ? E1 Hr']; subst. inversion Hr'; subst.
    exists r1. simpl. rewrite app_nil_r.
    split; [exact Hruns|]. split; [exact E1 | apply op_one].
  - inversion Hruns as [|? r1 ? rs1 E1 Hr']; subst.
    inversion Hr' as [|? r2 ? rs2 E2 Hr'']; subst.
    inversion Hg as [|? ? [Hne1 _] Hg']; subst.
    inversion Hg' as [|? ? [Hne2 _] _]; subst.
    assert (Hshape : exists a b rest, concat (g1 :: g2 :: groups) = a :: b :: rest).
    { simpl. destruct g1 as [|a g1]; [congruence|].
      destruct g2 as [|b g2]; [congruence|].
      destruct g1 as [|a' g1]; simpl; eauto. }
    destruct Hshape as (a & b & rest & Eshape).
    rewrite Eshape in *.
    destruct (op_many fuel a b rest Hflat) as (c & Ec & Hb); [lia|].
    destruct (op_many fuel r1 r2 rs2 Hrs) as (c' & Ec' & Hb'); [lia|].
    exists c. split; [exact Hruns|]. split; [exact Ec|].
    rewrite Ec'. f_equal.
    apply (built_for_unique _ _ _ _ Hb' Hb).
    intros x. rewrite <- Eshape. apply S_groups; [exact Hfull | exact Hden].
Qed.

End MergeAlgebra.

(* ------------------------------------------------------------------ *)
(** *** The merger on [IntegralRangeVector<T>] *)

Lemma canon_from_last_end (p : Z) (rs : list (Z * Z)) :
  canon_from p rs -> p <= last_end p rs.
Proof.
  revert p. induction rs as [|r rs IH]; simpl; intros p; [lia|].
  intros (H1 & H2 & H3). specialize (IH _ H3). lia.
Qed.

Lemma last_end_zero (rs : list (Z * Z)) (f : Z) :
  last_end (-1) rs < f -> 0 <= f -> last_end 0 rs <= f.
Proof. destruct rs; simpl; lia. Qed.

Lemma append_range_fresh (rs : list (Z * Z)) (f l : Z) :
  last_end (-1) rs < f -> append_range rs f l = rs ++ [(f, l)].
Proof.
  induction rs as [|[a b] rs _] using rev_ind; intros H; [reflexivity|].
  rewrite last_end_app in H. rewrite append_range_snoc.
  destruct (Z.eqb_spec b f); [lia|]. rewrite <- app_assoc. reflexivity.
Qed.

Section IRVMerge.
Variable t : width.

Lemma insert_all_irv (out : list (Z * Z)) :
  forall c,
    wf t c ->
    canon_from (last_end (-1) (decode t (_rangeVect c))) out ->
    Forall (fun r => snd r <= mask t - 1) out ->
    exists c',
      @insert_all _ _ (irv_container t) out c = Some c' /\
      wf t c' /\
      decode t (_rangeVect c') = decode t (_rangeVect c) ++ out /\
      (compact t (_rangeVect c) -> compact t (_rangeVect c')).
Proof.
  induction out as [|[f l] out IH]; intros c Hwf Hcan Hb.
  - exists c. simpl. rewrite app_nil_r. auto.
  - simpl in Hcan. destruct Hcan as (H1 & H2 & H3).
    inversion Hb as [|? ? Hb1 Hb2]; subst. simpl in Hb1.
    assert (Hlow : -1 <= last_end (-1) (decode t (_rangeVect c))).
    { apply canon_from_last_end. apply Hwf. }
    assert (Hpre : push_pre t c f l).
    { unfold push_pre. split; [lia|]. split; [lia|].
      apply last_end_zero; lia. }
    destruct (push_back_spec t c f l Hwf Hpre) as (ws' & P1 & P2 & P3 & P4).
    destruct (Z.eqb_spec f l) as [? | _]; [lia|].
    rewrite append_range_fresh in P3 by exact H1.
    set (c1 := mkIRV ws' (option_map (fun n => to_size (n + (l - f))) (_length c))) in *.
    destruct (IH c1) as (c' & I1 & I2 & I3 & I4).
    + exact P2.
    + simpl. rewrite P3, last_end_app. exact H3.
    + exact Hb2.
    + exists c'. simpl. rewrite P1. simpl. split; [exact I1|].
      split; [exact I2|]. split.
      * rewrite I3. simpl. rewrite P3, <- app_assoc. reflexivity.
      * intros Hc. apply I4. apply P4. exact Hc.
Qed.

(** What [insert_back] builds from a coalesced sequence. *)
Lemma build_irv (out : list (Z * Z)) :
  canonical out -> Forall (fun r => snd r <= mask t - 1) out ->
  exists c,
    @build_with _ _ (irv_container t) out = Some c /\
    wf t c /\ decode t (_rangeVect c) = out /\
    _rangeVect c = encode t out.
Proof.
  intros Hcan Hb.
  destruct (insert_all_irv out IRV_empty (wf_words_nil t) Hcan Hb)
    as (c & H1 & H2 & H3 & H4).
  exists c. split; [exact H1|]. split; [exact H2|].
  simpl in H3. split; [exact H3|].
  assert (Hc : compact t (_rangeVect c)) by (apply H4; reflexivity).
  unfold compact in Hc. rewrite H3 in Hc. exact Hc.
Qed.

Lemma wf_proper (c : IntegralRangeVector) :
  wf t c -> proper_input (mask t - 1) (decode t (_rangeVect c)).
Proof.
  intros (_ & _ & Hc & Hb). split.
  - apply canon_sorted in Hc. exact Hc.
  - eapply Forall_impl; [|exact Hb]. simpl. intros; lia.
Qed.

Lemma irv_build_ok (out : list (Z * Z)) :
  canonical out -> Forall (fun r => snd r <= mask t - 1) out ->
  exists c,
    @build_with _ _ (irv_container t) out = Some c /\ wf t c /\
    forall x, contains (decode t (_rangeVect c)) x <-> contains out x.
Proof.
  intros Hcan Hb. destruct (build_irv out Hcan Hb) as (c & H1 & H2 & H3 & _).
  exists c. split; [exact H1|]. split; [exact H2|].
  intros x. rewrite H3. tauto.
Qed.

Lemma wf_paired (c : IntegralRangeVector) :
  wf t c -> paired t (_rangeVect c) = true.
Proof. intros H. apply H. Qed.

Lemma mask_below_max : mask t - 1 < numeric_max t.
Proof. destruct t; vm_compute; reflexivity. Qed.

End IRVMerge.

#[export] Instance irv_merge_laws (t : width)
  : @MergeLaws IntegralRangeVector const_iterator (irv_container t)
               (irv_laws t) (mask t - 1) :=
  @Build_MergeLaws
    IntegralRangeVector const_iterator (irv_container t) (irv_laws t)
    (mask t - 1)
    (wf t) (wf_paired t) (wf_proper t) (irv_build_ok t).

(* ------------------------------------------------------------------ *)
(** *** The merger on [std::vector<T>] *)

(** Strictly ascending values, all above [prev]. *)
Fixpoint ascending_from (prev : Z) (v : list Z) : Prop :=
  match v with
  | [] => True
  | x :: rest => prev < x /\ ascending_from x rest
  end.

(** An enumerated input: strictly ascending values of [T] below
    [bound]. *)
Definition enumerated (bound : Z) (v : list Z) : Prop :=
  ascending_from (-1) v /\ Forall (fun x => x < bound) v.

Lemma ascending_from_weaken (p q : Z) (v : list Z) :
  q <= p -> ascending_from p v -> ascending_from q v.
Proof. destruct v; simpl; intuition lia. Qed.

Lemma ascending_from_app (p q : Z) (u w : list Z) :
  ascending_from p u -> (forall x, In x u -> x <= q) -> p <= q ->
  ascending_from q w -> ascending_from p (u ++ w).
Proof.
  revert p. induction u as [|y u IH]; simpl; intros p Hu Hq Hpq Hw.
  - apply (ascending_from_weaken q); assumption.
  - destruct Hu as [H1 H2]. split; [exact H1|].
    apply IH; auto. 
Qed.

Lemma ascending_count (a : Z) (n s : nat) (p : Z) :
  p < a + Z.of_nat s ->
  ascending_from p (map (fun k => a + Z.of_nat k) (seq s n)).
Proof.
  revert s p. induction n as [|n IH]; simpl; intros s p Hp; [exact I|].
  split; [exact Hp|]. apply IH. lia.
Qed.

Lemma in_values_between (a b x : Z) :
  In x (values_between a b) <-> a <= x < b.
Proof.
  unfold values_between. rewrite in_map_iff. split.
  - intros (k & <- & Hk). apply in_seq in Hk. lia.
  - intros H. exists (Z.to_nat (x - a)). split; [lia|].
    apply in_seq. lia.
Qed.

Lemma in_expand (rs : list (Z * Z)) (x : Z) :
  In x (expand rs) <-> contains rs x.
Proof.
  unfold expand. induction rs as [|r rs IH]; simpl; [tauto|].
  rewrite in_app_iff, in_values_between, IH. tauto.
Qed.

Lemma ascending_expand (p : Z) (rs : list (Z * Z)) :
  canon_from p rs -> ascending_from p (expand rs).
Proof.
  revert p. induction rs as [|[a b] rs IH]; simpl; intros p; [auto|].
  intros (H1 & H2 & H3). unfold expand. simpl.
  apply (ascending_from_app p (b - 1)).
  - unfold values_between. apply ascending_count. simpl. lia.
  - intros x Hx. apply in_values_between in Hx. lia.
  - lia.
  - apply (ascending_from_weaken b); [lia|]. apply IH. exact H3.
Qed.

Lemma length_values_between (a b : Z) :
  length (values_between a b) = Z.to_nat (b - a).
Proof. unfold values_between. rewrite length_map, length_seq. reflexivity. Qed.

Lemma ascending_above (p : Z) (v : list Z) :
  ascending_from p v -> Forall (fun x => p < x) v.
Proof.
  revert p. induction v as [|y v IH]; simpl; intros p; [constructor|].
  intros [H1 H2]. constructor; [exact H1|].
  apply IH in H2. eapply Forall_impl; [|exact H2]. simpl. intros; lia.
Qed.

Section VectorMerge.
Variable t : width.
Variable U : Z.
Hypothesis U_at_most_max : U <= numeric_max t.

Lemma to_T_succ (x : Z) :
  0 <= x < U -> to_T t (x + 1) = x + 1.
Proof.
  intros Hx. unfold to_T, numeric_max in *. apply Z.mod_small. lia.
Qed.

Lemma enumerated_sorted (p : Z) (v : list Z) :
  -1 <= p -> ascending_from p v -> Forall (fun x => x < U) v ->
  sorted_from (p + 1) (map (singleton t) v) /\
  Forall (fun r => snd r <= U) (map (singleton t) v).
Proof.
  revert p. induction v as [|x v IH]; simpl; intros p Hp Ha Hb.
  - split; [exact I | constructor].
  - destruct Ha as [H1 H2]. inversion Hb as [|? ? Hb1 Hb2]; subst.
    rewrite to_T_succ by lia.
    assert (Hx : -1 <= x) by lia.
    destruct (IH x Hx H2 Hb2) as [I1 I2].
    split; [|constructor; [simpl; rewrite to_T_succ by lia; lia | exact I2]].
    split; [lia|]. split; [lia | exact I1].
Qed.

Lemma enumerated_proper (v : list Z) :
  enumerated U v -> proper_input U (map (singleton t) v).
Proof.
  intros [Ha Hb]. destruct (enumerated_sorted (-1) v) as [H1 H2]; auto; [lia|].
  split; assumption.
Qed.

Lemma contains_singletons (p : Z) (v : list Z) (x : Z) :
  -1 <= p -> ascending_from p v -> Forall (fun x => x < U) v ->
  (contains (map (singleton t) v) x <-> In x v).
Proof.
  revert p. induction v as [|y v IH]; simpl; intros p Hp Ha Hb; [tauto|].
  destruct Ha as [H1 H2]. inversion Hb as [|? ? Hb1 Hb2]; subst.
  rewrite to_T_succ by lia.
  assert (Hy : -1 <= y) by lia.
  rewrite (IH y Hy H2 Hb2). intuition lia.
Qed.

Lemma insert_all_vector (out : list (Z * Z)) (v : list Z) :
  @insert_all _ _ (vector_container t) out v = Some (v ++ expand out).
Proof.
  revert v. induction out as [|r out IH]; intros v; simpl.
  - rewrite app_nil_r. reflexivity.
  - rewrite IH. unfold expand. simpl. rewrite app_assoc. reflexivity.
Qed.

Lemma expand_enumerated (out : list (Z * Z)) :
  canonical out -> Forall (fun r => snd r <= U) out ->
  enumerated U (expand out).
Proof.
  intros Hc Hb. split; [apply ascending_expand; exact Hc|].
  apply Forall_forall. intros x Hx. apply in_expand in Hx.
  clear Hc. induction Hb as [|r out Hr _ IH]; simpl in Hx; [tauto|].
  destruct Hx as [Hx | Hx]; [lia | auto].
Qed.

Lemma vector_build_ok (out : list (Z * Z)) :
  canonical out -> Forall (fun r => snd r <= U) out ->
  exists v,
    @build_with _ _ (vector_container t) out = Some v /\ enumerated U v /\
    forall x, contains (map (singleton t) v) x <-> contains out x.
Proof.
  intros Hc Hb. exists (expand out).
  split; [apply (insert_all_vector out [])|].
  pose proof (expand_enumerated out Hc Hb) as He.
  split; [exact He|]. intros x.
  rewrite (contains_singletons (-1)); [apply in_expand | lia | apply He | apply He].
Qed.

Lemma enumerated_valid (v : list Z) : enumerated U v -> True.
Proof. intros _. exact I. Qed.

End VectorMerge.

Definition vector_merge_laws (t : width) (U : Z) (HU : U <= numeric_max t)
  : @MergeLaws (list Z) vector_iterator (vector_container t)
               (vector_laws t) U :=
  @Build_MergeLaws
    (list Z) vector_iterator (vector_container t) (vector_laws t) U
    (enumerated U) (enumerated_valid U)
    (enumerated_proper t U HU) (vector_build_ok t U HU).

(* ------------------------------------------------------------------ *)
(** *** The two merges, for any container kind *)

Section MergeTheorems.
Context {Cont It : Type} {RC : RangeContainer Cont It}
        {RL : @RangeContainerLaws Cont It RC}
        {U : Z} {ML : @MergeLaws Cont It RC RL U}.
Variable t : width.

Definition in_all (cs : list Cont) (x : Z) : Prop :=
  Forall (fun c => denotes c x) cs.
Definition in_some (cs : list Cont) (x : Z) : Prop :=
  Exists (fun c => denotes c x) cs.

Lemma new_built : built_for U (fun _ => False) (cont_new (Cont := Cont)).
Proof.
  exists []. split; [exact I|]. split; [constructor|].
  split; [reflexivity|]. simpl. tauto.
Qed.

Lemma intersect_spec (fuel : nat) (cs : list Cont) :
  U <= numeric_max t ->
  cs <> [] -> Forall input_ok cs -> (total_ranges cs < fuel)%nat ->
  exists c,
    intersect_ranges t fuel cs = Some c /\ input_ok c /\
    forall x, denotes c x <-> in_all cs x.
Proof.
  intros HU Hne Hok Hfuel. destruct cs as [|c1 [|c2 cs]]; [congruence| |].
  - exists c1. inversion Hok; subst. split; [reflexivity|].
    split; [assumption|]. intros x. unfold in_all.
    rewrite Forall_cons_iff, Forall_nil_iff. tauto.
  - destruct (intersect_many t fuel c1 c2 cs HU Hok Hfuel) as (c & E & Hb).
    exists c. split; [exact E|]. apply (built_for_ok _ _ Hb).
Qed.

Lemma unite_spec (fuel : nat) (cs : list Cont) :
  U < numeric_max t ->
  Forall input_ok cs -> (total_ranges cs < fuel)%nat ->
  exists c,
    unite_ranges t fuel cs = Some c /\ input_ok c /\
    forall x, denotes c x <-> in_some cs x.
Proof.
  intros HU Hok Hfuel. destruct cs as [|c1 [|c2 cs]].
  - exists cont_new. split; [reflexivity|].
    destruct (built_for_ok _ _ new_built) as [H1 H2].
    split; [exact H1|]. intros x. rewrite H2. unfold in_some.
    rewrite Exists_nil. tauto.
  - exists c1. inversion Hok; subst. split; [reflexivity|].
    split; [assumption|]. intros x. unfold in_some.
    rewrite Exists_cons, Exists_nil. tauto.
  - destruct (unite_many t fuel c1 c2 cs HU Hok Hfuel) as (c & E & Hb).
    exists c. split; [exact E|]. apply (built_for_ok _ _ Hb).
Qed.

Lemma in_all_perm (cs cs' : list Cont) :
  Permutation cs cs' -> forall x, in_all cs x <-> in_all cs' x.
Proof.
  intros Hp x. unfold in_all. rewrite !Forall_forall.
  split; intros H c Hc; apply H.
  - apply (Permutation_in c (Permutation_sym Hp) Hc).
  - apply (Permutation_in c Hp Hc).
Qed.

Lemma in_some_perm (cs cs' : list Cont) :
  Permutation cs cs' -> forall x, in_some cs x <-> in_some cs' x.
Proof.
  intros Hp x. unfold in_some. rewrite !Exists_exists.
  split; intros (c & Hc & H); exists c; split; auto.
  - apply (Permutation_in c Hp Hc).
  - apply (Permutation_in c (Permutation_sym Hp) Hc).
Qed.

Lemma in_all_groups (groups : list (list Cont)) (rs : list Cont) :
  Forall2 (fun g r => forall x, denotes r x <-> in_all g x) groups rs ->
  forall x, in_all rs x <-> in_all (concat groups) x.
Proof.
  unfold in_all. induction 1 as [|g r groups rs Hgr _ IH]; intros x; simpl.
  - tauto.
  - rewrite Forall_cons_iff, Forall_app, IH, Hgr. tauto.
Qed.

Lemma in_some_groups (groups : list (list Cont)) (rs : list Cont) :
  Forall2 (fun g r => forall x, denotes r x <-> in_some g x) groups rs ->
  forall x, in_some rs x <-> in_some (concat groups) x.
Proof.
  unfold in_some. induction 1 as [|g r groups rs Hgr _ IH]; intros x; simpl.
  - tauto.
  - rewrite Exists_cons, Exists_app, IH, Hgr. tauto.
Qed.

Lemma intersect_commutative (fuel : nat) (cs cs' : list Cont) :
  U <= numeric_max t ->
  Permutation cs cs' -> Forall input_ok cs -> (total_ranges cs < fuel)%nat ->
  exists c, intersect_ranges t fuel cs = Some c /\
            intersect_ranges t fuel cs' = Some c.
Proof.
  intros HU. apply (op_commutative (intersect_ranges t) in_all).
  - reflexivity.
  - reflexivity.
  - intros fuel' c1 c2 cs0. apply intersect_many. exact HU.
  - apply in_all_perm.
Qed.

Lemma unite_commutative (fuel : nat) (cs cs' : list Cont) :
  U < numeric_max t ->
  Permutation cs cs' -> Forall input_ok cs -> (total_ranges cs < fuel)%nat ->
  exists c, unite_ranges t fuel cs = Some c /\
            unite_ranges t fuel cs' = Some c.
Proof.
  intros HU. apply (op_commutative (unite_ranges t) in_some).
  - reflexivity.
  - reflexivity.
  - intros fuel' c1 c2 cs0. apply unite_many. exact HU.
  - apply in_some_perm.
Qed.

Lemma intersect_associative (groups : list (list Cont)) :
  U <= numeric_max t ->
  Forall (fun g => g <> [] /\ Forall input_ok g) groups ->
  exists N, forall fuel, (N <= fuel)%nat ->
    exists rs c,
      Forall2 (fun g r => intersect_ranges t fuel g = Some r) groups rs /\
      intersect_ranges t fuel (concat groups) = Some c /\
      intersect_ranges t fuel rs = Some c.
Proof.
  intros HU. apply (op_associative (intersect_ranges t) in_all).
  - reflexivity.
  - reflexivity.
  - intros fuel' c1 c2 cs0. apply intersect_many. exact HU.
  - intros c x. unfold in_all. rewrite Forall_cons_iff, Forall_nil_iff. tauto.
  - intros groups0 rs _. apply in_all_groups.
Qed.

Lemma unite_associative (groups : list (list Cont)) :
  U < numeric_max t ->
  Forall (fun g => g <> [] /\ Forall input_ok g) groups ->
  exists N, forall fuel, (N <= fuel)%nat ->
    exists rs c,
      Forall2 (fun g r => unite_ranges t fuel g = Some r) groups rs /\
      unite_ranges t fuel (concat groups) = Some c /\
      unite_ranges t fuel rs = Some c.
Proof.
  intros HU. apply (op_associative (unite_ranges t) in_some).
  - reflexivity.
  - reflexivity.
  - intros fuel' c1 c2 cs0. apply unite_many. exact HU.
  - intros c x. unfold in_some. rewrite Exists_cons, Exists_nil. tauto.
  - intros groups0 rs _. apply in_some_groups.
Qed.

End MergeTheorems.

(* ================================================================== *)
(** ** The merger on the two container kinds *)

(** The steps a merge takes: one for each range of each input. *)
Definition irv_steps (t : width) (cs : list IntegralRangeVector) : nat :=
  length (concat (map (fun c => decode t (_rangeVect c)) cs)).

Definition vector_steps (vs : list (list Z)) : nat := length (concat vs).

Section BothKinds.
Variable t : width.

Lemma mask_le_max : mask t - 1 <= numeric_max t.
Proof. pose proof (mask_below_max t). lia. Qed.

Lemma vector_total (U : Z) (HU : U <= numeric_max t) (vs : list (list Z)) :
  @total_ranges _ _ (vector_container t) (vector_laws t) vs = vector_steps vs.
Proof.
  unfold total_ranges, vector_steps. simpl.
  induction vs as [|v vs IH]; simpl; [reflexivity|].
  rewrite !length_app, length_map, IH. reflexivity.
Qed.

Lemma vector_denotes (U : Z) (HU : U <= numeric_max t) (v : list Z) (x : Z) :
  enumerated U v ->
  (@denotes _ _ (vector_container t) (vector_laws t) v x <-> In x v).
Proof.
  intros [Ha Hb]. unfold denotes. simpl.
  apply (contains_singletons t U HU (-1)); auto. lia.
Qed.

Lemma vector_in_all (U : Z) (HU : U <= numeric_max t) (vs : list (list Z)) (x : Z) :
  Forall (enumerated U) vs ->
  (@in_all _ _ (vector_container t) (vector_laws t) vs x
   <-> Forall (fun v => In x v) vs).
Proof.
  unfold in_all. induction 1 as [|v vs Hv _ IH].
  - rewrite !Forall_nil_iff. tauto.
  - rewrite !Forall_cons_iff, IH, (vector_denotes U HU v x Hv). tauto.
Qed.

Lemma vector_in_some (U : Z) (HU : U <= numeric_max t) (vs : list (list Z)) (x : Z) :
  Forall (enumerated U) vs ->
  (@in_some _ _ (vector_container t) (vector_laws t) vs x
   <-> Exists (fun v => In x v) vs).
Proof.
  unfold in_some. induction 1 as [|v vs Hv _ IH].
  - rewrite !Exists_nil. tauto.
  - rewrite !Exists_cons, IH, (vector_denotes U HU v x Hv). tauto.
Qed.

End BothKinds.

(** C1. For a non-empty collection of inputs that meet the merger's
    preconditions, [intersect_ranges] returns an output that contains
    exactly the values present in every input.  For range containers
    the inputs are well-formed word sequences (non-empty ranges,
    strictly ascending, non-touching); for enumerated containers they
    are strictly ascending values whose ranges [[v, v+1)] exist in [T]
    (values below [numeric_max]). *)
Theorem intersect_ranges_correct (t : width) (fuel : nat)
        (cs : list IntegralRangeVector) (vs : list (list Z)) :
  cs <> [] -> Forall (wf t) cs -> (irv_steps t cs < fuel)%nat ->
  vs <> [] -> Forall (enumerated (numeric_max t)) vs ->
  (vector_steps vs < fuel)%nat ->
  (exists c,
     intersect_irv t fuel cs = Some c /\
     forall x, contains (decode t (getBase c)) x <->
               Forall (fun c' => contains (decode t (getBase c')) x) cs) /\
  (exists v,
     intersect_vectors t fuel vs = Some v /\
     forall x, In x v <-> Forall (fun v' => In x v') vs).
Proof.
  intros Hc1 Hc2 Hc3 Hv1 Hv2 Hv3. split.
  - destruct (@intersect_spec _ _ _ _ _ (irv_merge_laws t) t fuel cs
                (mask_le_max t) Hc1 Hc2 Hc3) as (c & E & _ & Hset).
    exists c. split; [exact E | exact Hset].
  - pose (HU := Z.le_refl (numeric_max t)).
    destruct (@intersect_spec _ _ _ _ _ (vector_merge_laws t _ HU) t fuel vs
                HU Hv1 Hv2) as (v & E & Hok & Hset).
    + rewrite (vector_total t _ HU). exact Hv3.
    + exists v. split; [exact E|]. intros x.
      rewrite <- (vector_denotes t _ HU v x Hok), Hset.
      apply (vector_in_all t _ HU). exact Hv2.
Qed.

(** Closing goals on concrete merger inputs. *)
Ltac by_evaluation :=
  repeat match goal with
         | |- _ /\ _ => split
         | |- Forall _ _ => constructor
         | |- True => exact I
         | |- _ <> _ => discriminate
         end;
  try reflexivity;
  try (unfold wf, wf_words; by_computation);
  try (unfold enumerated, numeric_max, modulus; simpl; by_computation);
  try (vm_compute; lia).

(** Sample inputs on [uint8_t]: the sets [{0..6, 9}] and [{3..9}] as
    range containers, and two pairs of enumerated inputs. *)
Definition sample_irvs : list IntegralRangeVector :=
  [mkIRV [128; 135; 9] None; mkIRV [131; 138] None].
Definition sample_vectors : list (list Z) := [[0; 1; 2; 9]; [2; 3; 9; 254]].
Definition sample_vectors_low : list (list Z) :=
  [[0; 1; 2; 9]; [2; 3; 9; 253]].

Lemma intersect_ranges_correct_witness :
  sample_irvs <> [] /\
  Forall (wf W8) sample_irvs /\
  (irv_steps W8 sample_irvs < 10)%nat /\
  sample_vectors <> [] /\
  Forall (enumerated (numeric_max W8)) sample_vectors /\
  (vector_steps sample_vectors < 10)%nat /\
  (exists c,
     intersect_irv W8 10 sample_irvs
       = Some c /\
     forall x, contains (decode W8 (getBase c)) x <->
               Forall (fun c' => contains (decode W8 (getBase c')) x)
                      sample_irvs) /\
  (exists v,
     intersect_vectors W8 10 sample_vectors = Some v /\
     forall x, In x v <->
               Forall (fun v' => In x v') sample_vectors).
Proof.
  assert (H1 : sample_irvs <> [])
    by discriminate.
  assert (H2 : Forall (wf W8) sample_irvs)
    by (unfold sample_irvs, sample_vectors, sample_vectors_low; by_evaluation).
  assert (H3 : (irv_steps W8 sample_irvs
                < 10)%nat) by (vm_compute; lia).
  assert (H4 : sample_vectors <> []) by discriminate.
  assert (H5 : Forall (enumerated (numeric_max W8))
                      sample_vectors) by (unfold sample_irvs, sample_vectors, sample_vectors_low; by_evaluation).
  assert (H6 : (vector_steps sample_vectors < 10)%nat)
    by (vm_compute; lia).
  split; [exact H1|]. split; [exact H2|]. split; [exact H3|].
  split; [exact H4|]. split; [exact H5|]. split; [exact H6|].
  exact (intersect_ranges_correct W8 10 _ _ H1 H2 H3 H4 H5 H6).
Defined.

(** The union below the sentinel.  For a non-empty collection of
    inputs in canonical ascending form in which no range ends at
    [numeric_max] or beyond, [unite_ranges] returns an output that
    contains exactly the values present in at least one input.  Range
    containers always meet the bound: their endpoints are below
    [mask]. *)
Theorem unite_ranges_correct (t : width) (fuel : nat)
        (cs : list IntegralRangeVector) (vs : list (list Z)) :
  cs <> [] -> Forall (wf t) cs -> (irv_steps t cs < fuel)%nat ->
  vs <> [] -> Forall (enumerated (numeric_max t - 1)) vs ->
  (vector_steps vs < fuel)%nat ->
  (exists c,
     unite_irv t fuel cs = Some c /\
     forall x, contains (decode t (getBase c)) x <->
               Exists (fun c' => contains (decode t (getBase c')) x) cs) /\
  (exists v,
     unite_vectors t fuel vs = Some v /\
     forall x, In x v <-> Exists (fun v' => In x v') vs).
Proof.
  intros Hc1 Hc2 Hc3 Hv1 Hv2 Hv3. split.
  - destruct (@unite_spec _ _ _ _ _ (irv_merge_laws t) t fuel cs
                (mask_below_max t) Hc2 Hc3) as (c & E & _ & Hset).
    exists c. split; [exact E | exact Hset].
  - assert (HU : numeric_max t - 1 <= numeric_max t) by lia.
    destruct (@unite_spec _ _ _ _ _ (vector_merge_laws t _ HU) t fuel vs)
      as (v & E & Hok & Hset).
    + lia.
    + exact Hv2.
    + rewrite (vector_total t _ HU). exact Hv3.
    + exists v. split; [exact E|]. intros x.
      rewrite <- (vector_denotes t _ HU v x Hok), Hset.
      apply (vector_in_some t _ HU). exact Hv2.
Qed.

Lemma unite_ranges_correct_witness :
  sample_irvs <> [] /\
  Forall (wf W8) sample_irvs /\
  (irv_steps W8 sample_irvs < 10)%nat /\
  sample_vectors_low <> [] /\
  Forall (enumerated (numeric_max W8 - 1)) sample_vectors_low /\
  (vector_steps sample_vectors_low < 10)%nat /\
  (exists c,
     unite_irv W8 10 sample_irvs
       = Some c /\
     forall x, contains (decode W8 (getBase c)) x <->
               Exists (fun c' => contains (decode W8 (getBase c')) x)
                      sample_irvs) /\
  (exists v,
     unite_vectors W8 10 sample_vectors_low = Some v /\
     forall x, In x v <->
               Exists (fun v' => In x v') sample_vectors_low).
Proof.
  assert (H1 : sample_irvs <> [])
    by discriminate.
  assert (H2 : Forall (wf W8) sample_irvs)
    by (unfold sample_irvs, sample_vectors, sample_vectors_low; by_evaluation).
  assert (H3 : (irv_steps W8 sample_irvs
                < 10)%nat) by (vm_compute; lia).
  assert (H4 : sample_vectors_low <> []) by discriminate.
  assert (H5 : Forall (enumerated (numeric_max W8 - 1))
                      sample_vectors_low) by (unfold sample_irvs, sample_vectors, sample_vectors_low; by_evaluation).
  assert (H6 : (vector_steps sample_vectors_low < 10)%nat)
    by (vm_compute; lia).
  split; [exact H1|]. split; [exact H2|]. split; [exact H3|].
  split; [exact H4|]. split; [exact H5|]. split; [exact H6|].
  exact (unite_ranges_correct W8 10 _ _ H1 H2 H3 H4 H5 H6).
Defined.

(** C2. [unite_ranges] at the value [numeric_max - 1], on
    [std::vector<uint8_t>]: the inputs [{1}] and [{254}] are strictly
    ascending and do not contain [numeric_max = 255], yet the union
    returned is [{1}].  The range [[254, 255)] of the value 254 ends at
    the sentinel, so the test [curRangeEnd == LAST] takes the selected
    range for the end of all inputs and the loop stops.
    [intersect_ranges] keeps the same value. *)
Theorem unite_stops_at_sentinel :
  numeric_max W8 = 255 /\
  Forall (enumerated (numeric_max W8)) [[1]; [254]] /\
  unite_vectors W8 10 [[1]; [254]] = Some [1] /\
  Exists (fun v' => In 254 v') [[1]; [254]] /\
  ~ In 254 [1] /\
  intersect_vectors W8 10 [[1; 254]; [254]] = Some [254].
Proof.
  split; [reflexivity|]. split; [by_evaluation|].
  split; [reflexivity|]. split; [|split; [|reflexivity]].
  - apply Exists_cons_tl. apply Exists_cons_hd. simpl. auto.
  - simpl. lia.
Qed.

(* ------------------------------------------------------------------ *)
(** *** Range containers against enumerated containers *)

Lemma length_expand_ge (p : Z) (rs : list (Z * Z)) :
  canon_from p rs -> (length rs <= length (expand rs))%nat.
Proof.
  revert p. induction rs as [|[a b] rs IH]; simpl; intros p; [lia|].
  intros (H1 & H2 & H3). unfold expand. simpl.
  rewrite length_app, length_values_between.
  specialize (IH _ H3). unfold expand in IH. lia.
Qed.

Section Agreement.
Variable t : width.

Let HU : mask t - 1 <= numeric_max t := mask_le_max t.

Lemma toVector_wf (c : IntegralRangeVector) (v : list Z) :
  wf t c -> toVector t c = Some v ->
  v = expand (decode t (_rangeVect c)) /\
  enumerated (mask t - 1) v /\
  (length (decode t (_rangeVect c)) <= length v)%nat /\
  forall x,
    @denotes _ _ (irv_container t) (irv_laws t) c x <->
    @denotes _ _ (vector_container t) (vector_laws t) v x.
Proof.
  intros Hwf Hv. rewrite toVector_decode in Hv by (apply Hwf).
  injection Hv as <-.
  destruct (wf_proper t c Hwf) as [_ Hb].
  assert (Hc : canonical (decode t (_rangeVect c))) by (apply Hwf).
  pose proof (expand_enumerated (mask t - 1) _ Hc Hb) as He.
  split; [reflexivity|]. split; [exact He|].
  split; [apply (length_expand_ge (-1)); exact Hc|].
  intros x. rewrite (vector_denotes t _ HU _ x He), in_expand.
  unfold denotes. simpl. tauto.
Qed.

Lemma agree_inputs (cs : list IntegralRangeVector) (vs : list (list Z)) :
  Forall (wf t) cs ->
  Forall2 (fun c v => toVector t c = Some v) cs vs ->
  Forall (enumerated (mask t - 1)) vs /\
  (irv_steps t cs <= vector_steps vs)%nat /\
  (forall x,
     @in_all _ _ (irv_container t) (irv_laws t) cs x <->
     @in_all _ _ (vector_container t) (vector_laws t) vs x) /\
  (forall x,
     @in_some _ _ (irv_container t) (irv_laws t) cs x <->
     @in_some _ _ (vector_container t) (vector_laws t) vs x).
Proof.
  intros Hwf H. revert Hwf.
  induction H as [|c v cs vs Hcv _ IH]; intros Hwf.
  - split; [constructor|]. split; [reflexivity|].
    unfold in_all, in_some. split; intros x.
    + rewrite !Forall_nil_iff. tauto.
    + rewrite !Exists_nil. tauto.
  - inversion Hwf as [|? ? Hc Hcs]; subst.
    destruct (IH Hcs) as (I1 & I2 & I3 & I4).
    destruct (toVector_wf c v Hc Hcv) as (_ & T2 & T3 & T4).
    split; [constructor; assumption|]. split; [|split].
    + unfold irv_steps, vector_steps in *. simpl.
      rewrite !length_app. lia.
    + intros x. unfold in_all in *. rewrite !Forall_cons_iff, I3, T4. tauto.
    + intros x. unfold in_some in *. rewrite !Exists_cons, I4, T4. tauto.
Qed.

(** A container built by [push_back] from ranges, and a vector built
    from the same set, enumerate alike. *)
Lemma built_agree (S S' : Z -> Prop) (c : IntegralRangeVector) (v : list Z) :
  @built_for _ _ (irv_container t) (mask t - 1) S c ->
  @built_for _ _ (vector_container t) (mask t - 1) S' v ->
  (forall x, S x <-> S' x) ->
  toVector t c = Some v.
Proof.
  intros (out & C1 & B1 & E1 & S1) (out' & C2 & B2 & E2 & S2) HS.
  assert (out = out').
  { apply (canonical_unique _ _ (-1)); auto.
    intros x. rewrite S1, S2. apply HS. }
  subst out'.
  destruct (build_irv t out C1 B1) as (c' & E1' & Hwf & Hd & _).
  assert (c' = c) by congruence. subst c'.
  rewrite toVector_decode by (apply Hwf). rewrite Hd.
  unfold build_with in E2. rewrite insert_all_vector in E2.
  simpl in E2. congruence.
Qed.

End Agreement.

(** C6. For every collection of well-formed range containers and the
    enumerated containers with the same contents ([toVector] of each),
    the result of the merger on the range containers enumerates, by
    [toVector], to the result of the merger on the enumerated
    containers, for [intersect_ranges] and for [unite_ranges]. *)
Theorem merged_outputs_agree (t : width) (fuel : nat)
        (cs : list IntegralRangeVector) (vs : list (list Z)) :
  Forall (wf t) cs ->
  Forall2 (fun c v => toVector t c = Some v) cs vs ->
  (vector_steps vs < fuel)%nat ->
  (exists c v,
     intersect_irv t fuel cs = Some c /\
     intersect_vectors t fuel vs = Some v /\
     toVector t c = Some v) /\
  (exists c v,
     unite_irv t fuel cs = Some c /\
     unite_vectors t fuel vs = Some v /\
     toVector t c = Some v).
Proof.
  intros Hwf Hcv Hfuel.
  destruct (agree_inputs t cs vs Hwf Hcv) as (Hen & Hsteps & Hall & Hsome).
  pose proof (mask_le_max t) as HU. pose proof (mask_below_max t) as HU'.
  destruct Hcv as [|c1 v1 cs vs H1 Hcv].
  - split; exists IRV_empty, []; repeat split; reflexivity.
  - destruct Hcv as [|c2 v2 cs vs H2 Hcv].
    + split; exists c1, v1; repeat split; auto.
    + assert (Hf1 : (@total_ranges _ _ (irv_container t) (irv_laws t)
                       (c1 :: c2 :: cs) < fuel)%nat).
      { unfold irv_steps in Hsteps. unfold total_ranges. simpl in *. lia. }
      assert (Hf2 : (@total_ranges _ _ (vector_container t) (vector_laws t)
                       (v1 :: v2 :: vs) < fuel)%nat).
      { rewrite (vector_total t _ HU). exact Hfuel. }
      split.
      * destruct (@intersect_many _ _ _ _ _ (irv_merge_laws t) t fuel
                    c1 c2 cs HU Hwf Hf1) as (c & Ec & Bc).
        destruct (@intersect_many _ _ _ _ _ (vector_merge_laws t _ HU) t fuel
                    v1 v2 vs HU Hen Hf2) as (v & Ev & Bv).
        exists c, v. split; [exact Ec|]. split; [exact Ev|].
        apply (built_agree t _ _ c v Bc Bv). exact Hall.
      * destruct (@unite_many _ _ _ _ _ (irv_merge_laws t) t fuel
                    c1 c2 cs HU' Hwf Hf1) as (c & Ec & Bc).
        destruct (@unite_many _ _ _ _ _ (vector_merge_laws t _ HU) t fuel
                    v1 v2 vs HU' Hen Hf2) as (v & Ev & Bv).
        exists c, v. split; [exact Ec|]. split; [exact Ev|].
        apply (built_agree t _ _ c v Bc Bv). exact Hsome.
Qed.

Definition sample_enumerations : list (list Z) :=
  [[0; 1; 2; 3; 4; 5; 6; 9]; [3; 4; 5; 6; 7; 8; 9]].

Lemma merged_outputs_agree_witness :
  Forall (wf W8) sample_irvs /\
  Forall2 (fun c v => toVector W8 c = Some v) sample_irvs sample_enumerations /\
  (vector_steps sample_enumerations < 20)%nat /\
  (exists c v,
     intersect_irv W8 20 sample_irvs = Some c /\
     intersect_vectors W8 20 sample_enumerations = Some v /\
     toVector W8 c = Some v) /\
  (exists c v,
     unite_irv W8 20 sample_irvs = Some c /\
     unite_vectors W8 20 sample_enumerations = Some v /\
     toVector W8 c = Some v).
Proof.
  assert (H1 : Forall (wf W8) sample_irvs)
    by (unfold sample_irvs; by_evaluation).
  assert (H2 : Forall2 (fun c v => toVector W8 c = Some v)
                       sample_irvs sample_enumerations)
    by (repeat constructor).
  assert (H3 : (vector_steps sample_enumerations < 20)%nat)
    by (vm_compute; lia).
  split; [exact H1|]. split; [exact H2|]. split; [exact H3|].
  exact (merged_outputs_agree W8 20 _ _ H1 H2 H3).
Defined.

(* ------------------------------------------------------------------ *)
(** *** [unite_ranges] at the sentinel *)

(** The loop of [unite_ranges] stops when the range it selected ends
    at [numeric_max].  On inputs whose ranges ending there start at
    [numeric_max - 1] (the value [numeric_max - 1] of an enumerated
    container) the run is the run on the inputs without those ranges. *)
Section Sentinel.
Variable t : width.

Definition below_sentinel (s : list (Z * Z)) : list (Z * Z) :=
  filter (fun r => snd r <? numeric_max t) s.

Definition sentinel_input (s : list (Z * Z)) : Prop :=
  proper_input (numeric_max t) s /\
  Forall (fun r => snd r = numeric_max t -> fst r = numeric_max t - 1) s.

(** The states of the two scans: equal once a range below the sentinel
    is selected, and both without such a range before. *)
Definition scan_related (a b : Z * Z * nat) : Prop :=
  let '(cb, ce, k) := a in
  let '(cb', ce', k') := b in
  (cb < numeric_max t - 1 /\ ce < numeric_max t /\
   cb' = cb /\ ce' = ce /\ k' = k) \/
  (numeric_max t - 1 <= cb /\ ce = numeric_max t /\
   numeric_max t - 1 <= cb' /\ ce' = numeric_max t).

Lemma sentinel_head (a b : Z) (s : list (Z * Z)) :
  sentinel_input ((a, b) :: s) -> b = numeric_max t ->
  s = [] /\ a = numeric_max t - 1.
Proof.
  intros [[Hs Hb] Hu] ->. simpl in Hs. destruct Hs as (_ & _ & Hs).
  inversion Hu as [|? ? Hu1 _]; subst. split; [|apply Hu1; reflexivity].
  destruct s as [|r s]; [reflexivity|].
  simpl in Hs. inversion Hb as [|? ? _ Hb']; subst.
  inversion Hb' as [|? ? Hr _]; subst. lia.
Qed.

Lemma plain_head (a b : Z) (s : list (Z * Z)) :
  sentinel_input ((a, b) :: s) -> b <> numeric_max t ->
  0 <= a /\ a < b /\ b < numeric_max t /\ sentinel_input s.
Proof.
  intros [[Hs Hb] Hu] Hne. simpl in Hs. destruct Hs as (H0 & Hab & Hs).
  inversion Hb as [|? ? Hb1 Hb2]; subst. simpl in Hb1.
  inversion Hu as [|? ? _ Hu2]; subst.
  split; [exact H0|]. split; [exact Hab|]. split; [lia|].
  split; [split; [|exact Hb2] | exact Hu2].
  apply (sorted_from_weaken b); [lia | exact Hs].
Qed.

Lemma ranges_unite_scan_cut (rests : list (list (Z * Z))) :
  Forall sentinel_input rests ->
  forall i a b,
    scan_related a b ->
    exists a' b',
      ranges_unite_scan rests i (fst (fst a)) (snd (fst a)) (snd a) = Some a' /\
      ranges_unite_scan (map below_sentinel rests) i
                        (fst (fst b)) (snd (fst b)) (snd b) = Some b' /\
      scan_related a' b'.
Proof.
  induction 1 as [|s rests Hs _ IH]; intros i [[cb ce] k] [[cb' ce'] k'] HR.
  - simpl. eauto.
  - destruct s as [|[x y] s].
    + simpl. apply (IH (S i) (cb, ce, k) (cb', ce', k') HR).
    + destruct (Z.eq_dec y (numeric_max t)) as [Ey | Ey].
      * destruct (sentinel_head x y s Hs Ey) as [-> ->]. subst y.
        simpl. rewrite Z.ltb_irrefl. simpl.
        destruct (Z.ltb_spec (numeric_max t - 1) cb) as [Hlt | Hge].
        -- apply (IH (S i) (numeric_max t - 1, numeric_max t, i) (cb', ce', k')).
           simpl in *. right. destruct HR as [HR | HR]; lia.
        -- apply (IH (S i) (cb, ce, k) (cb', ce', k') HR).
      * destruct (plain_head x y s Hs Ey) as (H0 & Hxy & Hy & _).
        simpl. replace (y <? numeric_max t) with true
          by (symmetry; apply Z.ltb_lt; exact Hy).
        simpl. simpl in HR.
        destruct HR as [(H1 & H2 & -> & -> & ->) | (H1 & H2 & H3 & H4)].
        -- destruct (x <? cb).
           ++ apply (IH (S i) (x, y, i) (x, y, i)). simpl. left. lia.
           ++ apply (IH (S i) (cb, ce, k) (cb, ce, k)). simpl. left. lia.
        -- replace (x <? cb) with true by (symmetry; apply Z.ltb_lt; lia).
           replace (x <? cb') with true by (symmetry; apply Z.ltb_lt; lia).
           apply (IH (S i) (x, y, i) (x, y, i)). simpl. left. lia.
Qed.

Lemma below_sentinel_replace (k : nat) (s : list (Z * Z))
      (rests : list (list (Z * Z))) :
  map below_sentinel (replace_nth k s rests)
  = replace_nth k (below_sentinel s) (map below_sentinel rests).
Proof.
  revert k. induction rests as [|r rests IH]; intros [|k]; simpl; auto.
  rewrite IH. reflexivity.
Qed.

Lemma sentinel_input_replace (k : nat) (s : list (Z * Z))
      (rests : list (list (Z * Z))) :
  Forall sentinel_input rests -> sentinel_input s ->
  Forall sentinel_input (replace_nth k s rests).
Proof.
  intros H Hs. revert k. induction H as [|r rests Hr Hrs IH]; intros [|k]; simpl.
  - constructor.
  - constructor.
  - constructor; [exact Hs | exact Hrs].
  - constructor; [exact Hr | apply IH].
Qed.

(** The union loop does on the inputs what it does on the inputs
    without their ranges at the sentinel. *)
Lemma ranges_unite_loop_cut (fuel : nat) :
  forall rests pending,
    Forall sentinel_input rests ->
    ranges_unite_loop t fuel rests pending
    = ranges_unite_loop t fuel (map below_sentinel rests) pending.
Proof.
  induction fuel as [|fuel IH]; intros rests pending Hin; [reflexivity|].
  simpl.
  destruct (ranges_unite_scan_cut rests Hin 0
              (numeric_max t, numeric_max t, 0%nat)
              (numeric_max t, numeric_max t, 0%nat))
    as ([[cb ce] k] & [[cb' ce'] k'] & E1 & E2 & HR).
  { simpl. right. lia. }
  simpl in E1, E2. rewrite E1, E2. cbn [bind].
  simpl in HR. destruct HR as [(H1 & H2 & -> & -> & ->) | (H1 & -> & H3 & ->)].
  - replace (ce =? numeric_max t) with false
      by (symmetry; apply Z.eqb_neq; lia).
    destruct (ranges_unite_scan_spec rests 0 (numeric_max t) (numeric_max t) 0)
      as (cb1 & ce1 & k1 & E & Hcase).
    rewrite E1 in E. injection E as <- <- <-.
    destruct Hcase as [(Hcb & _) | (_ & (rest & Hn) & _ & _)]; [lia|].
    rewrite Nat.sub_0_r in Hn.
    rewrite nth_error_map, Hn. simpl.
    replace (ce <? numeric_max t) with true by (symmetry; apply Z.ltb_lt; lia).
    simpl.
    assert (Hrest : sentinel_input rest).
    { apply nth_error_In in Hn. rewrite Forall_forall in Hin.
      apply (plain_head cb ce rest (Hin _ Hn)). lia. }
    destruct (merge_emit pending cb ce) as [out pending'].
    rewrite (IH _ pending' (sentinel_input_replace k rest rests Hin Hrest)).
    rewrite below_sentinel_replace. reflexivity.
  - rewrite Z.eqb_refl. reflexivity.
Qed.

Lemma sorted_from_filter (f : Z * Z -> bool) (s : list (Z * Z)) :
  forall p, sorted_from p s -> sorted_from p (filter f s).
Proof.
  induction s as [|r s IH]; intros p; simpl; [tauto|].
  intros (H1 & H2 & H3). destruct (f r); simpl.
  - split; [exact H1|]. split; [exact H2|]. apply IH. exact H3.
  - apply (sorted_from_weaken (snd r)); [lia|]. apply IH. exact H3.
Qed.

Lemma below_sentinel_proper (s : list (Z * Z)) :
  sentinel_input s -> proper_input (numeric_max t - 1) (below_sentinel s).
Proof.
  intros [[Hs _] _]. split; [apply sorted_from_filter; exact Hs|].
  apply Forall_forall. intros r Hr. apply filter_In in Hr.
  destruct Hr as [_ Hr]. apply Z.ltb_lt in Hr. lia.
Qed.

Lemma below_sentinel_contains (s : list (Z * Z)) (x : Z) :
  sentinel_input s ->
  (contains (below_sentinel s) x <-> contains s x /\ x < numeric_max t - 1).
Proof.
  induction s as [|[a b] s IH]; intros Hs; [simpl; tauto|].
  destruct (Z.eq_dec b (numeric_max t)) as [Eb | Eb].
  - destruct (sentinel_head a b s Hs Eb) as [-> ->]. subst b.
    simpl. rewrite Z.ltb_irrefl. simpl. lia.
  - destruct (plain_head a b s Hs Eb) as (H0 & Hab & Hb & Hs').
    simpl. replace (b <? numeric_max t) with true
      by (symmetry; apply Z.ltb_lt; exact Hb).
    simpl. rewrite (IH Hs'). intuition lia.
Qed.

Lemma below_sentinel_length (rests : list (list (Z * Z))) :
  (length (concat (map below_sentinel rests)) <= length (concat rests))%nat.
Proof.
  induction rests as [|s rests IH]; simpl; [lia|].
  rewrite !length_app. pose proof (filter_length_le (fun r => snd r <? numeric_max t) s).
  unfold below_sentinel at 1. lia.
Qed.

(** The range-level union of inputs that reach the sentinel: what it
    returns is coalesced and denotes the values of the inputs below
    [numeric_max - 1]. *)
Lemma ranges_unite_at_sentinel (fuel : nat) (inputs : list (list (Z * Z))) :
  (length (concat inputs) < fuel)%nat ->
  Forall sentinel_input inputs ->
  exists out,
    ranges_unite t fuel inputs = Some out /\
    (forall x, contains out x <->
               Exists (fun s => contains s x) inputs /\ x < numeric_max t - 1) /\
    canonical out /\
    Forall (fun r => snd r <= numeric_max t - 1) out.
Proof.
  intros Hfuel Hin. unfold ranges_unite.
  rewrite (ranges_unite_loop_cut fuel inputs None Hin).
  destruct (ranges_unite_correct t (numeric_max t - 1) ltac:(lia) fuel
              (map below_sentinel inputs))
    as (out & E & Hset & Hcan & Hb).
  - pose proof (below_sentinel_length inputs). lia.
  - apply Forall_map. eapply Forall_impl; [|exact Hin].
    apply below_sentinel_proper.
  - exists out. split; [exact E|]. split; [|split; assumption].
    intros x. rewrite Hset, Exists_map. rewrite !Exists_exists. split.
    + intros (s & Hs & Hx). rewrite Forall_forall in Hin.
      apply (below_sentinel_contains s x (Hin s Hs)) in Hx.
      split; [exists s|]; tauto.
    + intros ((s & Hs & Hx) & Hlt). exists s. split; [exact Hs|].
      rewrite Forall_forall in Hin.
      apply (below_sentinel_contains s x (Hin s Hs)). tauto.
Qed.

End Sentinel.

(** On [std::vector<uint8_t>]: the value 254 is dropped by the union
    whatever the order and the grouping of the inputs. *)
Example test_union_at_sentinel :
  unite_vectors W8 20 [[3; 254]; [5]; [7; 254]] = Some [3; 5; 7] /\
  unite_vectors W8 20 [[7; 254]; [5]; [3; 254]] = Some [3; 5; 7] /\
  unite_vectors W8 20 [[3; 254]; [5]] = Some [3; 5] /\
  unite_vectors W8 20 [[3; 5]; [7; 254]] = Some [3; 5; 7].
Proof. repeat split; reflexivity. Qed.

(** The set [unite_ranges] returns on inputs that reach the sentinel:
    with two inputs or more the values of the inputs below
    [numeric_max - 1]; a single input is returned as it is. *)
Section UnionBelowSentinel.
Context {Cont It : Type} {RC : RangeContainer Cont It}
        {RL : @RangeContainerLaws Cont It RC}.
Variable L : Z.

Definition in_some_below (cs : list Cont) (x : Z) : Prop :=
  match cs with
  | [c] => denotes c x
  | _ => in_some cs x /\ x < L - 1
  end.

Lemma in_some_below_perm (cs cs' : list Cont) :
  Permutation cs cs' -> forall x, in_some_below cs x <-> in_some_below cs' x.
Proof.
  intros Hp x. pose proof (Permutation_length Hp) as Hlen.
  destruct cs as [|c1 [|c2 cs]]; destruct cs' as [|a [|b cs']];
    try discriminate.
  - tauto.
  - apply Permutation_length_1 in Hp. subst a. tauto.
  - unfold in_some_below. rewrite (in_some_perm _ _ Hp x). tauto.
Qed.

Lemma in_some_below_each (groups : list (list Cont)) (rs : list Cont) :
  Forall2 (fun g r => forall x, denotes r x <-> in_some_below g x) groups rs ->
  forall x, in_some rs x /\ x < L - 1 <->
            in_some (concat groups) x /\ x < L - 1.
Proof.
  unfold in_some. induction 1 as [|g r groups rs Hgr _ IH]; intros x; simpl.
  - tauto.
  - rewrite Exists_cons, Exists_app.
    assert (Hg : denotes r x /\ x < L - 1 <->
                 Exists (fun c => denotes c x) g /\ x < L - 1).
    { rewrite (Hgr x). destruct g as [|c [|c' g]]; unfold in_some_below, in_some.
      - tauto.
      - rewrite Exists_cons, Exists_nil. tauto.
      - tauto. }
    specialize (IH x). tauto.
Qed.

Lemma in_some_below_groups (groups : list (list Cont)) (rs : list Cont) :
  Forall (fun g => g <> []) groups ->
  Forall2 (fun g r => forall x, denotes r x <-> in_some_below g x) groups rs ->
  forall x, in_some_below rs x <-> in_some_below (concat groups) x.
Proof.
  intros Hne H x. pose proof (in_some_below_each groups rs H x) as Heach.
  destruct groups as [|g1 [|g2 groups]].
  - inversion H; subst. simpl. tauto.
  - inversion H as [|? r1 ? ? Hr H']; subst. inversion H'; subst.
    simpl. rewrite app_nil_r. apply Hr.
  - inversion H as [|? r1 ? ? _ H']; subst.
    inversion H' as [|? r2 ? rs' _ _]; subst.
    inversion Hne as [|? ? Hn1 Hne']; subst.
    inversion Hne' as [|? ? Hn2 _]; subst.
    assert (Hshape : exists a b rest,
               concat (g1 :: g2 :: groups) = a :: b :: rest).
    { simpl. destruct g1 as [|a g1]; [congruence|].
      destruct g2 as [|b g2]; [congruence|].
      destruct g1 as [|a' g1]; simpl; eauto. }
    destruct Hshape as (a & b & rest & E). rewrite E in *. exact Heach.
Qed.

End UnionBelowSentinel.

Section VectorSentinel.
Variable t : width.

Let HU : numeric_max t <= numeric_max t := Z.le_refl (numeric_max t).

Lemma enumerated_sentinel (v : list Z) :
  enumerated (numeric_max t) v -> sentinel_input t (map (singleton t) v).
Proof.
  intros Hv. split; [apply (enumerated_proper t _ HU); exact Hv|].
  destruct Hv as [Ha Hb]. apply ascending_above in Ha.
  apply Forall_map. rewrite Forall_forall in *. intros x Hx.
  specialize (Ha x Hx). specialize (Hb x Hx). simpl in Ha.
  unfold singleton. simpl.
  rewrite (to_T_succ t (numeric_max t) HU x) by lia. lia.
Qed.

(** [unite_ranges] on two enumerated inputs or more, with values up
    to [numeric_max - 1]. *)
Lemma unite_vectors_many (fuel : nat) (v1 v2 : list Z) (vs : list (list Z)) :
  Forall (enumerated (numeric_max t)) (v1 :: v2 :: vs) ->
  (@total_ranges _ _ (vector_container t) (vector_laws t) (v1 :: v2 :: vs)
   < fuel)%nat ->
  exists v,
    unite_vectors t fuel (v1 :: v2 :: vs) = Some v /\
    @built_for _ _ (vector_container t) (numeric_max t)
               (@in_some_below _ _ (vector_container t) (vector_laws t)
                               (numeric_max t) (v1 :: v2 :: vs)) v.
Proof.
  intros Hen Hfuel. unfold unite_vectors.
  rewrite (@unite_ranges_sim _ _ _ (vector_laws t) t fuel v1 v2 vs)
    by (apply Forall_forall; intros; exact I).
  destruct (ranges_unite_at_sentinel t fuel
              (map (@ranges_of _ _ _ (vector_laws t)) (v1 :: v2 :: vs)))
    as (out & -> & Hset & Hcan & Hb).
  - exact Hfuel.
  - apply Forall_map. eapply Forall_impl; [|exact Hen].
    apply enumerated_sentinel.
  - cbn [bind].
    assert (Hb' : Forall (fun r => snd r <= numeric_max t) out).
    { eapply Forall_impl; [|exact Hb]. simpl. intros; lia. }
    destruct (vector_build_ok t (numeric_max t) HU out Hcan Hb')
      as (v & Hv & _ & _).
    exists v. split; [exact Hv|].
    exists out. split; [exact Hcan|]. split; [exact Hb'|].
    split; [exact Hv|].
    intros x. rewrite Hset. unfold in_some_below, in_some, denotes.
    rewrite Exists_map. tauto.
Qed.

Lemma unite_vectors_commutative (fuel : nat) (vs vs' : list (list Z)) :
  Permutation vs vs' ->
  Forall (enumerated (numeric_max t)) vs ->
  (@total_ranges _ _ (vector_container t) (vector_laws t) vs < fuel)%nat ->
  exists v, unite_vectors t fuel vs = Some v /\
            unite_vectors t fuel vs' = Some v.
Proof.
  apply (@op_commutative _ _ (vector_container t) (vector_laws t) _
           (vector_merge_laws t _ HU) (unite_vectors t)
           (@in_some_below _ _ (vector_container t) (vector_laws t)
                           (numeric_max t))).
  - reflexivity.
  - reflexivity.
  - intros fuel' v1 v2 vs0. apply unite_vectors_many.
  - apply in_some_below_perm.
Qed.

Lemma unite_vectors_associative (groups : list (list (list Z))) :
  Forall (fun g => g <> [] /\ Forall (enumerated (numeric_max t)) g) groups ->
  exists N, forall fuel, (N <= fuel)%nat ->
    exists rs v,
      Forall2 (fun g r => unite_vectors t fuel g = Some r) groups rs /\
      unite_vectors t fuel (concat groups) = Some v /\
      unite_vectors t fuel rs = Some v.
Proof.
  apply (@op_associative _ _ (vector_container t) (vector_laws t) _
           (vector_merge_laws t _ HU) (unite_vectors t)
           (@in_some_below _ _ (vector_container t) (vector_laws t)
                           (numeric_max t))).
  - reflexivity.
  - reflexivity.
  - intros fuel' v1 v2 vs0. apply unite_vectors_many.
  - intros c x. reflexivity.
  - apply in_some_below_groups.
Qed.

End VectorSentinel.

(* ------------------------------------------------------------------ *)
(** *** Order and grouping of the inputs *)

(** Two runs return, and what they return compares equal. *)
Definition same_output {C : Type} (eqb : C -> C -> bool) (a b : option C)
  : Prop :=
  exists x y, a = Some x /\ b = Some y /\ eqb x y = true.

(** Merging the groups one by one and then their results gives the
    output of merging all the inputs at once. *)
Definition regroups {C : Type} (eqb : C -> C -> bool)
           (op : list C -> option C) (groups : list (list C)) : Prop :=
  exists rs,
    Forall2 (fun g r => op g = Some r) groups rs /\
    same_output eqb (op (concat groups)) (op rs).

Lemma same_output_refl {C : Type} (eqb : C -> C -> bool) (a b : option C) :
  (forall x, eqb x x = true) ->
  (exists c, a = Some c /\ b = Some c) -> same_output eqb a b.
Proof. intros Hr (c & -> & ->). exists c, c. auto. Qed.

Lemma IRV_eqb_refl (c : IntegralRangeVector) : IRV_eqb c c = true.
Proof. apply vector_eqb_refl. Qed.

Section OrderAndGrouping.
Variable t : width.

Lemma irv_commutes (cs cs' : list IntegralRangeVector) (fuel : nat) :
  Forall (wf t) cs -> Permutation cs cs' -> (irv_steps t cs < fuel)%nat ->
  same_output IRV_eqb (intersect_irv t fuel cs) (intersect_irv t fuel cs') /\
  same_output IRV_eqb (unite_irv t fuel cs) (unite_irv t fuel cs').
Proof.
  intros Hwf Hp Hfuel. split; apply same_output_refl; try apply IRV_eqb_refl.
  - apply (@intersect_commutative _ _ _ _ _ (irv_merge_laws t) t fuel cs cs');
      auto using mask_le_max.
  - apply (@unite_commutative _ _ _ _ _ (irv_merge_laws t) t fuel cs cs');
      auto using mask_below_max.
Qed.

Lemma vector_commutes (vs vs' : list (list Z)) (fuel : nat) :
  Forall (enumerated (numeric_max t)) vs -> Permutation vs vs' ->
  (vector_steps vs < fuel)%nat ->
  same_output vector_eqb (intersect_vectors t fuel vs)
                         (intersect_vectors t fuel vs') /\
  same_output vector_eqb (unite_vectors t fuel vs) (unite_vectors t fuel vs').
Proof.
  intros Hen Hp Hfuel.
  pose (HU := Z.le_refl (numeric_max t)).
  assert (Hf : (@total_ranges _ _ (vector_container t) (vector_laws t) vs
                < fuel)%nat)
    by (rewrite (vector_total t _ HU); exact Hfuel).
  split; apply same_output_refl; try apply vector_eqb_refl.
  - apply (@intersect_commutative _ _ _ _ _ (vector_merge_laws t _ HU) t
             fuel vs vs'); auto.
  - apply (unite_vectors_commutative t fuel vs vs'); auto.
Qed.

Lemma regroups_of {C : Type} (eqb : C -> C -> bool)
      (op : nat -> list C -> option C) (groups : list (list C)) :
  (forall x, eqb x x = true) ->
  (exists N, forall fuel, (N <= fuel)%nat ->
     exists rs c,
       Forall2 (fun g r => op fuel g = Some r) groups rs /\
       op fuel (concat groups) = Some c /\ op fuel rs = Some c) ->
  exists N, forall fuel, (N <= fuel)%nat -> regroups eqb (op fuel) groups.
Proof.
  intros Hr (N & H). exists N. intros fuel Hfuel.
  destruct (H fuel Hfuel) as (rs & c & H1 & H2 & H3).
  exists rs. split; [exact H1|].
  apply same_output_refl; eauto.
Qed.

Lemma irv_regroups (groups : list (list IntegralRangeVector)) :
  Forall (fun g => g <> [] /\ Forall (wf t) g) groups ->
  exists N, forall fuel, (N <= fuel)%nat ->
    regroups IRV_eqb (intersect_irv t fuel) groups /\
    regroups IRV_eqb (unite_irv t fuel) groups.
Proof.
  intros Hg.
  destruct (regroups_of IRV_eqb (intersect_irv t) groups IRV_eqb_refl
              (@intersect_associative _ _ _ _ _ (irv_merge_laws t) t groups
                 (mask_le_max t) Hg)) as (N1 & H1).
  destruct (regroups_of IRV_eqb (unite_irv t) groups IRV_eqb_refl
              (@unite_associative _ _ _ _ _ (irv_merge_laws t) t groups
                 (mask_below_max t) Hg)) as (N2 & H2).
  exists (N1 + N2)%nat. intros fuel Hfuel.
  split; [apply H1 | apply H2]; lia.
Qed.

Lemma vector_regroups (groups : list (list (list Z))) :
  Forall (fun g => g <> [] /\ Forall (enumerated (numeric_max t)) g)
         groups ->
  exists N, forall fuel, (N <= fuel)%nat ->
    regroups vector_eqb (intersect_vectors t fuel) groups /\
    regroups vector_eqb (unite_vectors t fuel) groups.
Proof.
  intros Hg.
  pose (HU := Z.le_refl (numeric_max t)).
  destruct (regroups_of vector_eqb (intersect_vectors t) groups vector_eqb_refl
              (@intersect_associative _ _ _ _ _ (vector_merge_laws t _ HU) t
                 groups HU Hg)) as (N1 & H1).
  destruct (regroups_of vector_eqb (unite_vectors t) groups vector_eqb_refl
              (unite_vectors_associative t groups Hg)) as (N2 & H2).
  exists (N1 + N2)%nat. intros fuel Hfuel.
  split; [apply H1 | apply H2]; lia.
Qed.

End OrderAndGrouping.

(** C7. On canonical inputs, [intersect_ranges] and [unite_ranges]
    return equal outputs for every permutation of the collection, and
    merging a collection at once returns the output of merging its
    groups one by one and then their results, for every division of
    the collection into non-empty groups.  This holds for range
    containers (well-formed word sequences, compared with
    [operator==]) and for enumerated containers (strictly ascending
    values below [numeric_max], the value [numeric_max - 1] included),
    once the loops have fuel for every range of the inputs. *)
Theorem merge_commutative_associative (t : width)
        (cs cs' : list IntegralRangeVector)
        (groups : list (list IntegralRangeVector))
        (vs vs' : list (list Z)) (vgroups : list (list (list Z))) :
  Forall (wf t) cs -> Permutation cs cs' ->
  Forall (fun g => g <> [] /\ Forall (wf t) g) groups ->
  Forall (enumerated (numeric_max t)) vs -> Permutation vs vs' ->
  Forall (fun g => g <> [] /\ Forall (enumerated (numeric_max t)) g)
         vgroups ->
  exists N, forall fuel, (N <= fuel)%nat ->
    (same_output IRV_eqb (intersect_irv t fuel cs) (intersect_irv t fuel cs') /\
     same_output IRV_eqb (unite_irv t fuel cs) (unite_irv t fuel cs')) /\
    (regroups IRV_eqb (intersect_irv t fuel) groups /\
     regroups IRV_eqb (unite_irv t fuel) groups) /\
    (same_output vector_eqb (intersect_vectors t fuel vs)
                            (intersect_vectors t fuel vs') /\
     same_output vector_eqb (unite_vectors t fuel vs)
                            (unite_vectors t fuel vs')) /\
    (regroups vector_eqb (intersect_vectors t fuel) vgroups /\
     regroups vector_eqb (unite_vectors t fuel) vgroups).
Proof.
  intros Hc Hp Hg Hv Hvp Hvg.
  destruct (irv_regroups t groups Hg) as (N1 & H1).
  destruct (vector_regroups t vgroups Hvg) as (N2 & H2).
  exists (S (irv_steps t cs) + S (vector_steps vs) + N1 + N2)%nat.
  intros fuel Hfuel.
  split; [apply irv_commutes; auto; lia|].
  split; [apply H1; lia|].
  split; [apply vector_commutes; auto; lia|].
  apply H2; lia.
Qed.

Definition sample_groups : list (list IntegralRangeVector) :=
  [sample_irvs; [mkIRV [2; 132; 134] None]].

(** Enumerated inputs that hold [numeric_max - 1 = 254]. *)
Definition sample_vector_groups : list (list (list Z)) :=
  [sample_vectors; [[2; 9; 254]]; [[3; 254]; [5]; [7; 254]]].

Lemma merge_commutative_associative_witness :
  Forall (wf W8) sample_irvs /\
  Permutation sample_irvs (rev sample_irvs) /\
  Forall (fun g => g <> [] /\ Forall (wf W8) g) sample_groups /\
  Forall (enumerated (numeric_max W8)) sample_vectors /\
  Permutation sample_vectors (rev sample_vectors) /\
  Forall (fun g => g <> [] /\ Forall (enumerated (numeric_max W8)) g)
         sample_vector_groups /\
  exists N, forall fuel, (N <= fuel)%nat ->
    (same_output IRV_eqb (intersect_irv W8 fuel sample_irvs)
                         (intersect_irv W8 fuel (rev sample_irvs)) /\
     same_output IRV_eqb (unite_irv W8 fuel sample_irvs)
                         (unite_irv W8 fuel (rev sample_irvs))) /\
    (regroups IRV_eqb (intersect_irv W8 fuel) sample_groups /\
     regroups IRV_eqb (unite_irv W8 fuel) sample_groups) /\
    (same_output vector_eqb (intersect_vectors W8 fuel sample_vectors)
                            (intersect_vectors W8 fuel (rev sample_vectors)) /\
     same_output vector_eqb (unite_vectors W8 fuel sample_vectors)
                            (unite_vectors W8 fuel (rev sample_vectors))) /\
    (regroups vector_eqb (intersect_vectors W8 fuel) sample_vector_groups /\
     regroups vector_eqb (unite_vectors W8 fuel) sample_vector_groups).
Proof.
  assert (H1 : Forall (wf W8) sample_irvs)
    by (unfold sample_irvs; by_evaluation).
  assert (H2 : Permutation sample_irvs (rev sample_irvs))
    by apply Permutation_rev.
  assert (H3 : Forall (fun g => g <> [] /\ Forall (wf W8) g) sample_groups)
    by (unfold sample_groups, sample_irvs; by_evaluation).
  assert (H4 : Forall (enumerated (numeric_max W8)) sample_vectors)
    by (unfold sample_vectors; by_evaluation).
  assert (H5 : Permutation sample_vectors (rev sample_vectors))
    by apply Permutation_rev.
  assert (H6 : Forall (fun g => g <> [] /\
                                Forall (enumerated (numeric_max W8)) g)
                      sample_vector_groups)
    by (unfold sample_vector_groups, sample_vectors; by_evaluation).
  split; [exact H1|]. split; [exact H2|]. split; [exact H3|].
  split; [exact H4|]. split; [exact H5|]. split; [exact H6|].
  exact (merge_commutative_associative W8 _ _ _ _ _ _ H1 H2 H3 H4 H5 H6).
Defined.

(* ================================================================== *)
(** ** Further properties of the container *)

(** *** The tag bit *)

(** X1. Tagging a payload below [mask] and reading it back: a payload
    is untagged and unchanged by [& ~mask]; with [| mask] it is a value
    of [T] that tests as tagged and whose payload is the one put in. *)
Theorem tag_bit_round_trip (t : width) (a : Z) :
  0 <= a < mask t ->
  tagged t a = false /\
  unmask t a = a /\
  typed t (to_T t (or_mask t a)) /\
  tagged t (to_T t (or_mask t a)) = true /\
  unmask t (to_T t (or_mask t a)) = a.
Proof.
  intros Ha. pose proof (modulus_eq t) as Hm.
  rewrite or_mask_low, to_T_small by lia.
  split; [apply tagged_low; exact Ha|].
  split; [apply unmask_low; exact Ha|].
  split; [unfold typed; lia|].
  split; [apply tagged_high; lia|].
  rewrite unmask_high by lia. lia.
Qed.

Lemma tag_bit_round_trip_witness :
  0 <= 127 < mask W8 /\
  tagged W8 127 = false /\
  unmask W8 127 = 127 /\
  typed W8 (to_T W8 (or_mask W8 127)) /\
  tagged W8 (to_T W8 (or_mask W8 127)) = true /\
  unmask W8 (to_T W8 (or_mask W8 127)) = 127.
Proof.
  assert (H : 0 <= 127 < mask W8)
    by (vm_compute; split; [discriminate | reflexivity]).
  split; [exact H|].
  exact (tag_bit_round_trip W8 127 H).
Defined.

(** *** The two overloads *)

(** X2. Below the encoding boundary, [push_back(v)] does to any
    container exactly what [push_back({v, v + 1})] does: the same
    assertions pass, the same words are stored and the same cache. *)
Theorem push_value_is_push_range (t : width) (c : IntegralRangeVector) (v : Z) :
  0 <= v -> v + 1 < mask t ->
  push_back_value t c v = push_back t c (v, v + 1).
Proof.
  intros Hv Hv1. pose proof (modulus_eq t) as Hmod.
  unfold push_back_value, push_back. simpl fst. simpl snd.
  rewrite (and_mask_low t v), (and_mask_low t (v + 1)) by lia.
  rewrite (sub_T_le t (v + 1) v) by lia.
  rewrite (add_T_small t v 1) by lia.
  replace (v + 1 - v) with 1 by lia.
  simpl. rewrite andb_true_r. reflexivity.
Qed.

Lemma push_value_is_push_range_witness :
  0 <= 6 /\ 6 + 1 < mask W8 /\
  push_back_value W8 (mkIRV [3; 133; 134] None) 6
  = push_back W8 (mkIRV [3; 133; 134] None) (6, 6 + 1).
Proof.
  assert (H1 : 0 <= 6) by lia.
  assert (H2 : 6 + 1 < mask W8) by (vm_compute; reflexivity).
  split; [exact H1|]. split; [exact H2|].
  exact (push_value_is_push_range W8 _ 6 H1 H2).
Defined.

(** *** Appending abutting ranges *)

Lemma last_end_append_range (p : Z) (rs : list (Z * Z)) (f l : Z) :
  last_end p (append_range rs f l) = l.
Proof.
  induction rs as [|[a b] rs _] using rev_ind; [reflexivity|].
  rewrite append_range_snoc. destruct (b =? f).
  - apply last_end_app.
  - change (rs ++ [(a, b); (f, l)]) with (rs ++ [(a, b)] ++ [(f, l)]).
    rewrite app_assoc. apply last_end_app.
Qed.

Lemma append_range_twice (rs : list (Z * Z)) (a b d : Z) :
  append_range (append_range rs a b) b d = append_range rs a d.
Proof.
  induction rs as [|[x y] rs _] using rev_ind.
  - simpl. rewrite Z.eqb_refl. reflexivity.
  - rewrite !append_range_snoc. destruct (y =? a).
    + rewrite append_range_snoc, Z.eqb_refl. reflexivity.
    + change (rs ++ [(x, y); (a, b)]) with (rs ++ [(x, y)] ++ [(a, b)]).
      rewrite app_assoc, append_range_snoc, Z.eqb_refl, <- app_assoc.
      reflexivity.
Qed.

Lemma to_size_add (n a b : Z) :
  to_size (to_size (n + a) + b) = to_size (n + (a + b)).
Proof.
  unfold to_size. rewrite Zplus_mod_idemp_l. f_equal. lia.
Qed.

(** X3. Appending [[a, b)] and then [[b, d)] to a well-formed
    container gives the decoded ranges and the cached length that
    appending [[a, d)] gives; on a container whose singletons are
    stored as plain words the two containers are the same. *)
Theorem push_back_joins_abutting (t : width) (c : IntegralRangeVector)
        (a b d : Z) :
  wf t c -> push_pre t c a b -> b <= d -> d < mask t ->
  exists c1 c2 c3,
    push_back t c (a, b) = Some c1 /\
    push_back t c1 (b, d) = Some c2 /\
    push_back t c (a, d) = Some c3 /\
    decode t (_rangeVect c2) = decode t (_rangeVect c3) /\
    _length c2 = _length c3 /\
    (compact t (_rangeVect c) -> c2 = c3).
Proof.
  intros Hwf Hab Hbd Hd.
  destruct (push_back_spec t c a b Hwf Hab) as (w1 & E1 & W1 & D1 & C1).
  set (c1 := mkIRV w1 (option_map (fun n => to_size (n + (b - a))) (_length c))) in *.
  destruct Hab as (Hab1 & Hab2 & Hab3).
  assert (Hpre1 : push_pre t c1 b d).
  { unfold push_pre. split; [lia|]. split; [lia|]. simpl. rewrite D1.
    destruct (Z.eqb_spec a b) as [<- | _]; [exact Hab3|].
    rewrite last_end_append_range. lia. }
  destruct (push_back_spec t c1 b d W1 Hpre1) as (w2 & E2 & W2 & D2 & C2).
  assert (Hpre3 : push_pre t c a d) by (unfold push_pre; repeat split; lia).
  destruct (push_back_spec t c a d Hwf Hpre3) as (w3 & E3 & W3 & D3 & C3).
  simpl in D2, C2.
  assert (HD : decode t w2 = decode t w3).
  { rewrite D2, D3, D1.
    destruct (Z.eqb_spec a b) as [-> | Hne1].
    - reflexivity.
    - destruct (Z.eqb_spec b d) as [-> | Hne2].
      + destruct (Z.eqb_spec a d); [lia | reflexivity].
      + destruct (Z.eqb_spec a d); [lia|]. apply append_range_twice. }
  assert (HL : option_map (fun n => to_size (n + (d - b))) (_length c1)
               = option_map (fun n => to_size (n + (d - a))) (_length c)).
  { simpl. destruct (_length c) as [n|]; simpl; [|reflexivity].
    rewrite to_size_add. do 2 f_equal. lia. }
  eexists. eexists. eexists.
  split; [exact E1|]. split; [exact E2|]. split; [exact E3|].
  split; [exact HD|]. split; [exact HL|].
  intros Hc. rewrite HL. f_equal.
  rewrite (C2 (C1 Hc)), (C3 Hc), HD. reflexivity.
Qed.

Lemma push_back_joins_abutting_witness :
  wf W8 (mkIRV [3; 133; 137] (Some 5)) /\
  push_pre W8 (mkIRV [3; 133; 137] (Some 5)) 9 15 /\
  15 <= 17 /\ 17 < mask W8 /\
  exists c1 c2 c3,
    push_back W8 (mkIRV [3; 133; 137] (Some 5)) (9, 15) = Some c1 /\
    push_back W8 c1 (15, 17) = Some c2 /\
    push_back W8 (mkIRV [3; 133; 137] (Some 5)) (9, 17) = Some c3 /\
    decode W8 (_rangeVect c2) = decode W8 (_rangeVect c3) /\
    _length c2 = _length c3 /\
    (compact W8 (_rangeVect (mkIRV [3; 133; 137] (Some 5))) -> c2 = c3).
Proof.
  assert (H1 : wf W8 (mkIRV [3; 133; 137] (Some 5))) by exact wf_sample.
  assert (H2 : push_pre W8 (mkIRV [3; 133; 137] (Some 5)) 9 15)
    by (unfold push_pre; by_computation).
  assert (H3 : 15 <= 17) by lia.
  assert (H4 : 17 < mask W8) by (vm_compute; reflexivity).
  split; [exact H1|]. split; [exact H2|]. split; [exact H3|]. split; [exact H4|].
  exact (push_back_joins_abutting W8 _ 9 15 17 H1 H2 H3 H4).
Defined.

(** *** The enumeration and the count after an append *)




Lemma values_between_one (v : Z) : values_between v (v + 1) = [v].
Proof.
  unfold values_between. replace (v + 1 - v) with 1 by lia.
  simpl. rewrite Z.add_0_r. reflexivity.
Qed.






Lemma length_value (t : width) (c : IntegralRangeVector) :
  reachable t c ->
  exists c', length_ t c = Some (total_length (decode t (_rangeVect c)), c').
Proof.
  intros Hr. destruct (reachable_inv t c Hr) as [Hwf Hc].
  destruct c as [ws [m|]].
  - exists (mkIRV ws (Some m)). unfold length_. simpl.
    rewrite (Hc m eq_refl). reflexivity.
  - rewrite length_recomputed by exact Hwf. eexists. reflexivity.
Qed.

(** X5. [length] after an append: on a container built through the
    public interface, appending [[first, last)] within the precondition
    raises what [length] returns by exactly [last - first], whether the
    count was cached before the append or is recomputed after it. *)
Theorem length_after_push_back (t : width) (c : IntegralRangeVector)
        (first last : Z) :
  reachable t c -> push_pre t c first last ->
  exists n c0 c' c1,
    length_ t c = Some (n, c0) /\
    push_back t c (first, last) = Some c' /\
    length_ t c' = Some (n + (last - first), c1).
Proof.
  intros Hr Hpre.
  destruct (reachable_inv t c Hr) as [Hwf _].
  destruct (push_back_spec t c first last Hwf Hpre) as (ws' & E & _ & D & _).
  destruct (length_value t c Hr) as (c0 & L0).
  destruct (length_value t _ (reach_push t c first last _ Hr Hpre E)) as (c1 & L1).
  simpl in L1. rewrite D in L1.
  replace (total_length
             (if first =? last then decode t (_rangeVect c)
              else append_range (decode t (_rangeVect c)) first last))
    with (total_length (decode t (_rangeVect c)) + (last - first)) in L1.
  - eexists. exists c0. eexists. exists c1.
    split; [exact L0|]. split; [exact E|]. exact L1.
  - destruct (Z.eqb_spec first last) as [-> | _]; [lia|].
    symmetry. apply total_length_append_range.
Qed.

Lemma length_after_push_back_witness :
  reachable W8 (mkIRV [3; 133; 148] (Some 16)) /\
  push_pre W8 (mkIRV [3; 133; 148] (Some 16)) 20 23 /\
  exists n c0 c' c1,
    length_ W8 (mkIRV [3; 133; 148] (Some 16)) = Some (n, c0) /\
    push_back W8 (mkIRV [3; 133; 148] (Some 16)) (20, 23) = Some c' /\
    length_ W8 c' = Some (n + (23 - 20), c1).
Proof.
  assert (H2 : push_pre W8 (mkIRV [3; 133; 148] (Some 16)) 20 23)
    by (unfold push_pre; by_computation).
  split; [exact reachable_sample|]. split; [exact H2|].
  exact (length_after_push_back W8 _ 20 23 reachable_sample H2).
Defined.



(** *** Appending and iterating back *)

Lemma push_all_failed (t : width) (vals : list (Z * Z)) :
  fold_left (fun acc val => c <- acc ;; push_back t c val) vals None = None.
Proof. induction vals as [|r vals IH]; [reflexivity | exact IH]. Qed.

Lemma push_all_from (t : width) (vals : list (Z * Z)) (c : IntegralRangeVector) :
  fold_left (fun acc val => c <- acc ;; push_back t c val) vals (Some c)
  = @insert_all _ _ (irv_container t) vals c.
Proof.
  revert c. induction vals as [|r vals IH]; intros c; [reflexivity|].
  simpl. destruct (push_back t c r) as [c'|]; simpl.
  - apply IH.
  - apply push_all_failed.
Qed.

Lemma fold_collect {A : Type} (rs acc : list A) :
  fold_left (fun acc r => acc ++ [r]) rs acc = acc ++ rs.
Proof.
  revert acc. induction rs as [|r rs IH]; intros acc; simpl.
  - rewrite app_nil_r. reflexivity.
  - rewrite IH, <- app_assoc. reflexivity.
Qed.

(** X7. Ranges appended to an empty container come back from the
    iteration: for ascending, non-empty, non-touching ranges below
    [mask], every [push_back] succeeds, the loop from [begin] to [end]
    with [*it] and [++it] yields the same ranges in the same order, and
    the stored words are one plain word per singleton and two tagged
    words per longer range. *)
Theorem iteration_returns_pushed_ranges (t : width) (out : list (Z * Z)) :
  canonical out -> Forall (fun r => snd r <= mask t - 1) out ->
  exists c,
    push_all t out = Some c /\
    for_ranges t (loop_bound c) (cbegin t c) (cend t c)
               (fun acc r => acc ++ [r]) []
    = Some out /\
    getBase c = encode t out.
Proof.
  intros Hc Hb. destruct (build_irv t out Hc Hb) as (c & B & W & D & E).
  exists c. split; [|split].
  - unfold push_all. rewrite push_all_from. exact B.
  - rewrite for_ranges_container by (apply W).
    rewrite fold_collect, D. reflexivity.
  - exact E.
Qed.

Lemma iteration_returns_pushed_ranges_witness :
  canonical [(0, 3); (8, 9); (11, 127)] /\
  Forall (fun r => snd r <= mask W8 - 1) [(0, 3); (8, 9); (11, 127)] /\
  exists c,
    push_all W8 [(0, 3); (8, 9); (11, 127)] = Some c /\
    for_ranges W8 (loop_bound c) (cbegin W8 c) (cend W8 c)
               (fun acc r => acc ++ [r]) []
    = Some [(0, 3); (8, 9); (11, 127)] /\
    getBase c = encode W8 [(0, 3); (8, 9); (11, 127)].
Proof.
  assert (H1 : canonical [(0, 3); (8, 9); (11, 127)])
    by (unfold canonical; by_computation).
  assert (H2 : Forall (fun r => snd r <= mask W8 - 1) [(0, 3); (8, 9); (11, 127)])
    by (repeat constructor; vm_compute; discriminate).
  split; [exact H1|]. split; [exact H2|].
  exact (iteration_returns_pushed_ranges W8 _ H1 H2).
Defined.

(** *** Equality of containers *)

Lemma vector_eqb_eq (a b : list Z) : vector_eqb a b = true <-> a = b.
Proof.
  unfold vector_eqb. destruct (list_eq_dec Z.eq_dec a b); split; congruence.
Qed.




(** *** A container made from plain values *)

Lemma plain_words (t : width) (v : list Z) :
  Forall (fun x => 0 <= x < mask t) v ->
  paired t v = true /\ decode t v = map (fun x => (x, x + 1)) v.
Proof.
  induction 1 as [|x v Hx _ [IH1 IH2]]; [split; reflexivity|].
  pose proof (modulus_eq t). simpl.
  rewrite tagged_low by exact Hx. split; [exact IH1|].
  rewrite add_T_small, to_T_small by lia. rewrite IH2. reflexivity.
Qed.

Lemma expand_singles (v : list Z) :
  expand (map (fun x => (x, x + 1)) v) = v.
Proof.
  induction v as [|x v IH]; [reflexivity|].
  unfold expand in *. simpl. rewrite values_between_one, IH. reflexivity.
Qed.

(** X9. A container constructed from a vector of plain values (every
    value below [mask], in any order, repeats allowed) iterates as one
    range [[x, x + 1)] per value, and [toVector] gives the vector
    back. *)
Theorem from_plain_vector_round_trip (t : width) (v : list Z) :
  Forall (fun x => 0 <= x < mask t) v ->
  for_ranges t (loop_bound (IRV_from_vector v))
             (cbegin t (IRV_from_vector v)) (cend t (IRV_from_vector v))
             (fun acc r => acc ++ [r]) []
  = Some (map (fun x => (x, x + 1)) v) /\
  toVector t (IRV_from_vector v) = Some v.
Proof.
  intros Hv. destruct (plain_words t v Hv) as [Hp Hd]. split.
  - rewrite for_ranges_container by exact Hp.
    rewrite fold_collect. simpl. rewrite Hd. reflexivity.
  - rewrite toVector_decode by exact Hp. simpl.
    rewrite Hd, expand_singles. reflexivity.
Qed.

Lemma from_plain_vector_round_trip_witness :
  Forall (fun x => 0 <= x < mask W8) [7; 2; 2; 127] /\
  for_ranges W8 (loop_bound (IRV_from_vector [7; 2; 2; 127]))
             (cbegin W8 (IRV_from_vector [7; 2; 2; 127]))
             (cend W8 (IRV_from_vector [7; 2; 2; 127]))
             (fun acc r => acc ++ [r]) []
  = Some (map (fun x => (x, x + 1)) [7; 2; 2; 127]) /\
  toVector W8 (IRV_from_vector [7; 2; 2; 127]) = Some [7; 2; 2; 127].
Proof.
  assert (H : Forall (fun x => 0 <= x < mask W8) [7; 2; 2; 127])
    by (repeat constructor; vm_compute; discriminate).
  split; [exact H|].
  exact (from_plain_vector_round_trip W8 _ H).
Defined.

(** *** What an append leaves alone *)

Lemma keeps_prefix_app (ws extra : list Z) :
  exists tail,
    ws ++ extra = removelast ws ++ tail /\
    (length ws <= length (removelast ws ++ tail))%nat.
Proof.
  destruct ws as [|x ws] using rev_ind.
  - exists extra. split; [reflexivity | simpl; lia].
  - exists (x :: extra). rewrite removelast_last, <- app_assoc.
    split; [reflexivity|]. rewrite !length_app. simpl. lia.
Qed.

Lemma keeps_prefix_set_back (ws : list Z) (x : Z) (extra : list Z) :
  is_empty ws = false ->
  exists tail,
    set_back ws x ++ extra = removelast ws ++ tail /\
    (length ws <= length (removelast ws ++ tail))%nat.
Proof.
  intros Hne. exists (x :: extra). unfold set_back. rewrite <- app_assoc.
  split; [reflexivity|].
  destruct ws as [|y ws] using rev_ind; [discriminate|].
  rewrite removelast_last, !length_app. simpl. lia.
Qed.

(** X10. An append that passes its assertions, with either overload
    and on any container, changes no stored word except the last one
    and never shortens the vector: the new words are the old ones
    without their last word, followed by a tail. *)
Theorem push_back_keeps_prefix (t : width) (c c' : IntegralRangeVector)
        (op : push_op) :
  apply_push t c op = Some c' ->
  exists tail,
    _rangeVect c' = removelast (_rangeVect c) ++ tail /\
    (length (_rangeVect c) <= length (_rangeVect c'))%nat.
Proof.
  destruct c as [ws len]. destruct op as [first last | v]; simpl.
  - unfold push_back. simpl.
    destruct (and_mask t first =? 0); simpl; [|discriminate].
    destruct (and_mask t last =? 0); simpl; [|discriminate].
    assert (Hfresh : forall extra c0,
               Some (mkIRV (ws ++ extra) c0) = Some c' ->
               exists tail, _rangeVect c' = removelast ws ++ tail /\
                            (length ws <= length (_rangeVect c'))%nat).
    { intros extra c0 [= <-]. simpl.
      destruct (keeps_prefix_app ws extra) as (tail & E & L).
      exists tail. rewrite E. split; [reflexivity | exact L]. }
    assert (Hsame : forall c0,
               Some (mkIRV ws c0) = Some c' ->
               exists tail, _rangeVect c' = removelast ws ++ tail /\
                            (length ws <= length (_rangeVect c'))%nat).
    { intros c0 H. apply (Hfresh [] c0). rewrite app_nil_r. exact H. }
    assert (Hswitch :
              Some (mkIRV match sub_T t last first with
                          | 0 => ws
                          | 1 => ws ++ [first]
                          | _ => ws ++ [to_T t (or_mask t first);
                                        to_T t (or_mask t last)]
                          end
                          (option_map (fun n => to_size (n + sub_T t last first)) len))
              = Some c' ->
              exists tail, _rangeVect c' = removelast ws ++ tail /\
                           (length ws <= length (_rangeVect c'))%nat).
    { destruct (sub_T t last first) as [|[p|p|]|p];
        first [apply Hsame | apply Hfresh]. }
    destruct (is_empty ws) eqn:Hne; simpl; [exact Hswitch|].
    destruct (0 <? sub_T t last first); simpl; [|exact Hswitch].
    destruct ((0 <? and_mask t (back ws)) && (unmask t (back ws) =? first)).
    { intros [= <-]. simpl.
      destruct (keeps_prefix_set_back ws (to_T t (or_mask t last)) [] Hne)
        as (tail & E & L).
      rewrite app_nil_r in E. exists tail. rewrite E. auto. }
    destruct ((and_mask t (back ws) =? 0)
              && (unmask t (back ws) =? sub_T t first 1)); [|exact Hswitch].
    intros [= <-]. simpl.
    destruct (keeps_prefix_set_back ws (to_T t (or_mask t (back ws)))
                [to_T t (or_mask t last)] Hne) as (tail & E & L).
    exists tail. rewrite E. auto.
  - unfold push_back_value. simpl.
    destruct (and_mask t v =? 0); simpl; [|discriminate].
    assert (Hfresh :
              Some (mkIRV (ws ++ [v]) (option_map (fun n => to_size (n + 1)) len))
              = Some c' ->
              exists tail, _rangeVect c' = removelast ws ++ tail /\
                           (length ws <= length (_rangeVect c'))%nat).
    { intros [= <-]. simpl.
      destruct (keeps_prefix_app ws [v]) as (tail & E & L).
      exists tail. rewrite E. auto. }
    destruct (is_empty ws) eqn:Hne; simpl; [exact Hfresh|].
    destruct ((0 <? and_mask t (back ws)) && (unmask t (back ws) =? v)).
    { intros [= <-]. simpl.
      destruct (keeps_prefix_set_back ws (to_T t (or_mask t (add_T t v 1))) [] Hne)
        as (tail & E & L).
      rewrite app_nil_r in E. exists tail. rewrite E. auto. }
    destruct ((and_mask t (back ws) =? 0)
              && (unmask t (back ws) =? sub_T t v 1)); [|exact Hfresh].
    intros [= <-]. simpl.
    destruct (keeps_prefix_set_back ws (to_T t (or_mask t (back ws)))
                [to_T t (or_mask t (add_T t v 1))] Hne) as (tail & E & L).
    exists tail. rewrite E. auto.
Qed.

Lemma push_back_keeps_prefix_witness :
  apply_push W8 (mkIRV [3; 133; 137] (Some 5)) (PushRange 9 20)
  = Some (mkIRV [3; 133; 148] (Some 16)) /\
  exists tail,
    [3; 133; 148] = removelast [3; 133; 137] ++ tail /\
    (length [3; 133; 137] <= length [3; 133; 148])%nat.
Proof.
  assert (H : apply_push W8 (mkIRV [3; 133; 137] (Some 5)) (PushRange 9 20)
              = Some (mkIRV [3; 133; 148] (Some 16))) by reflexivity.
  split; [exact H|].
  exact (push_back_keeps_prefix W8 _ _ _ H).
Defined.

(** *** Iterators reached from [begin] *)

(** The iterators a loop [for (it = begin(); it != end(); ++it)] or
    [it++] holds: [begin()], and the increment of one that differs
    from [end()]. *)
Inductive visited (t : width) (c : IntegralRangeVector)
  : const_iterator -> Prop :=
| visited_begin : visited t c (cbegin t c)
| visited_pre it it' :
    visited t c it -> iter_ne it (cend t c) = true ->
    pre_increment t it = Some it' -> visited t c it'
| visited_post it old it' :
    visited t c it -> iter_ne it (cend t c) = true ->
    post_increment t it = Some (old, it') -> visited t c it'.

Lemma visited_split (t : width) (c : IntegralRangeVector) (it : const_iterator) :
  paired t (_rangeVect c) = true -> visited t c it ->
  exists pre suf,
    _rangeVect c = pre ++ suf /\ it = iter_at t pre suf /\
    paired t pre = true /\ paired t suf = true.
Proof.
  intros Hp Hv.
  assert (Hstep : forall it it',
             (exists pre suf,
                 _rangeVect c = pre ++ suf /\ it = iter_at t pre suf /\
                 paired t pre = true /\ paired t suf = true) ->
             iter_ne it (cend t c) = true -> it' = advance t it ->
             exists pre suf,
               _rangeVect c = pre ++ suf /\ it' = iter_at t pre suf /\
               paired t pre = true /\ paired t suf = true).
  { clear it Hv. intros it it' (pre & suf & E & -> & P1 & P2) Hne ->.
    destruct suf as [|x suf].
    - unfold iter_ne in Hne. simpl in Hne.
      rewrite E, app_nil_r, Nat.eqb_refl in Hne.
      discriminate.
    - simpl in P2. destruct (tagged t x) eqn:Hx.
      + destruct suf as [|y suf]; [discriminate|].
        apply andb_prop in P2. destruct P2 as [Hy P2].
        exists (pre ++ [x; y]), suf. rewrite <- app_assoc.
        split; [exact E|]. split; [apply advance_pair; exact Hx|].
        split; [|exact P2].
        rewrite paired_app by exact P1. simpl. rewrite Hx, Hy. reflexivity.
      + exists (pre ++ [x]), suf. rewrite <- app_assoc.
        split; [exact E|]. split; [apply advance_single; exact Hx|].
        split; [|exact P2].
        rewrite paired_app by exact P1. simpl. rewrite Hx. reflexivity. }
  induction Hv as [| it it' _ IH Hne Hinc | it old it' _ IH Hne Hinc].
  - exists [], (_rangeVect c). repeat split; auto.
  - apply (Hstep it it' IH Hne). unfold pre_increment in Hinc. congruence.
  - apply (Hstep it it' IH Hne). unfold post_increment in Hinc. congruence.
Qed.

(** X11. In a well-formed container, a loop that starts at [begin] and
    increments only iterators that differ from [end] never moves past
    [end]: on the iterators it holds, [it < end] is [it != end] and
    [it >= end] is [it == end].  Every such iterator that differs from
    [end] passes the assertion of [*] and [->], and what they return
    is one of the container's ranges: non-empty and below [mask]. *)
Theorem iteration_stays_in_bounds (t : width) (c : IntegralRangeVector)
        (it : const_iterator) :
  wf t c -> visited t c it ->
  iter_le it (cend t c) = true /\
  iter_lt it (cend t c) = iter_ne it (cend t c) /\
  iter_ge it (cend t c) = iter_eq it (cend t c) /\
  (iter_ne it (cend t c) = true ->
   exists r,
     deref it = Some r /\ arrow it = Some r /\
     In r (decode t (_rangeVect c)) /\
     0 <= fst r < snd r /\ snd r < mask t).
Proof.
  intros Hwf Hv. pose proof Hwf as (_ & Hp & Hc & Hb).
  destruct (visited_split t c it Hp Hv) as (pre & suf & E & -> & P1 & P2).
  assert (Hle : (length pre <= length (_rangeVect c))%nat)
    by (rewrite E, length_app; lia).
  split; [|split; [|split]].
  - unfold iter_le. simpl. apply Nat.leb_le. exact Hle.
  - unfold iter_lt, iter_ne. simpl.
    destruct (Nat.ltb_spec (length pre) (length (_rangeVect c)));
      destruct (Nat.eqb_spec (length pre) (length (_rangeVect c)));
      simpl; lia || reflexivity.
  - unfold iter_ge, iter_eq. simpl.
    destruct (Nat.leb_spec (length (_rangeVect c)) (length pre));
      destruct (Nat.eqb_spec (length pre) (length (_rangeVect c)));
      simpl; lia || reflexivity.
  - intros Hne. destruct suf as [|x suf].
    { unfold iter_ne in Hne. simpl in Hne.
      rewrite E, app_nil_r, Nat.eqb_refl in Hne.
      discriminate. }
    assert (Hd : exists rest,
               decode t (x :: suf)
               = calculate_value t (pre ++ x :: suf) (length pre)
                                 (length (pre ++ x :: suf)) :: rest).
    { simpl in P2 |- *. destruct (tagged t x) eqn:Hx.
      - destruct suf as [|y suf]; [discriminate|].
        rewrite value_pair by exact Hx. eexists. reflexivity.
      - rewrite value_single by exact Hx. eexists. reflexivity. }
    destruct Hd as (rest & Hd).
    eexists. split; [apply deref_cons|]. split; [apply arrow_cons|].
    assert (Hin : In (calculate_value t (pre ++ x :: suf) (length pre)
                                      (length (pre ++ x :: suf)))
                     (decode t (_rangeVect c))).
    { rewrite E, decode_app, Hd by exact P1.
      apply in_or_app. right. left. reflexivity. }
    split; [exact Hin|].
    apply canon_from_each in Hc.
    rewrite Forall_forall in Hc, Hb.
    specialize (Hc _ Hin). specialize (Hb _ Hin). simpl in Hc, Hb. lia.
Qed.

Lemma iteration_stays_in_bounds_witness :
  wf W8 (mkIRV [3; 133; 137] (Some 5)) /\
  visited W8 (mkIRV [3; 133; 137] (Some 5))
          (advance W8 (cbegin W8 (mkIRV [3; 133; 137] (Some 5)))) /\
  iter_le (advance W8 (cbegin W8 (mkIRV [3; 133; 137] (Some 5))))
          (cend W8 (mkIRV [3; 133; 137] (Some 5))) = true /\
  iter_lt (advance W8 (cbegin W8 (mkIRV [3; 133; 137] (Some 5))))
          (cend W8 (mkIRV [3; 133; 137] (Some 5)))
  = iter_ne (advance W8 (cbegin W8 (mkIRV [3; 133; 137] (Some 5))))
            (cend W8 (mkIRV [3; 133; 137] (Some 5))) /\
  iter_ge (advance W8 (cbegin W8 (mkIRV [3; 133; 137] (Some 5))))
          (cend W8 (mkIRV [3; 133; 137] (Some 5)))
  = iter_eq (advance W8 (cbegin W8 (mkIRV [3; 133; 137] (Some 5))))
            (cend W8 (mkIRV [3; 133; 137] (Some 5))) /\
  (iter_ne (advance W8 (cbegin W8 (mkIRV [3; 133; 137] (Some 5))))
           (cend W8 (mkIRV [3; 133; 137] (Some 5))) = true ->
   exists r,
     deref (advance W8 (cbegin W8 (mkIRV [3; 133; 137] (Some 5)))) = Some r /\
     arrow (advance W8 (cbegin W8 (mkIRV [3; 133; 137] (Some 5)))) = Some r /\
     In r (decode W8 (_rangeVect (mkIRV [3; 133; 137] (Some 5)))) /\
     0 <= fst r < snd r /\ snd r < mask W8).
Proof.
  assert (H1 : wf W8 (mkIRV [3; 133; 137] (Some 5))) by exact wf_sample.
  assert (H2 : visited W8 (mkIRV [3; 133; 137] (Some 5))
                       (advance W8 (cbegin W8 (mkIRV [3; 133; 137] (Some 5))))).
  { apply (visited_pre W8 _ (cbegin W8 (mkIRV [3; 133; 137] (Some 5)))).
    - apply visited_begin.
    - reflexivity.
    - reflexivity. }
  split; [exact H1|]. split; [exact H2|].
  exact (iteration_stays_in_bounds W8 _ _ H1 H2).
Defined.

(* ================================================================== *)
(** ** Further properties of the merger *)

(** *** An empty input *)

Lemma begin_is_end (t : width) (c : IntegralRangeVector) :
  iter_eq (cbegin t c) (cend t c) = empty c.
Proof.
  unfold iter_eq, cbegin, cend, empty. simpl.
  destruct (_rangeVect c); reflexivity.
Qed.

(** X12. An empty input makes the intersection empty before the loop
    starts: whatever the other inputs hold (range containers with
    their tagged words in pairs, in any order; any vectors), and
    without a step of the loop, [intersect_ranges] returns a container
    without elements. *)
Theorem intersect_with_empty_input (t : width) (fuel : nat)
        (cs : list IntegralRangeVector) (vs : list (list Z)) :
  Forall (fun c => paired t (_rangeVect c) = true) cs ->
  Exists (fun c => empty c = true) cs ->
  Exists (fun v => v = []) vs ->
  (exists c, intersect_irv t fuel cs = Some c /\ empty c = true) /\
  intersect_vectors t fuel vs = Some [].
Proof.
  intros _ Hc Hv. split.
  - destruct cs as [|c1 [|c2 cs]].
    + inversion Hc.
    + exists c1. split; [reflexivity|].
      inversion Hc as [? ? H | ? ? H]; [exact H | inversion H].
    + exists IRV_empty. split; [|reflexivity].
      pose (RC := irv_container t).
      assert (Hex : existsb (fun r => @it_eq _ _ RC (@cont_begin _ _ RC r)
                                             (@cont_end _ _ RC r))
                            (c1 :: c2 :: cs) = true).
      { apply existsb_exists. apply Exists_exists in Hc.
        destruct Hc as (c & Hin & He). exists c. split; [exact Hin|].
        simpl. rewrite begin_is_end. exact He. }
      unfold intersect_irv, intersect_ranges. fold RC. rewrite Hex. reflexivity.
  - destruct vs as [|v1 [|v2 vs]].
    + inversion Hv.
    + inversion Hv as [? ? H | ? ? H]; [subst; reflexivity | inversion H].
    + pose (RC := vector_container t).
      assert (Hex : existsb (fun r => @it_eq _ _ RC (@cont_begin _ _ RC r)
                                             (@cont_end _ _ RC r))
                            (v1 :: v2 :: vs) = true).
      { apply existsb_exists. apply Exists_exists in Hv.
        destruct Hv as (v & Hin & ->). exists []. split; [exact Hin|].
        reflexivity. }
      unfold intersect_vectors, intersect_ranges. fold RC. rewrite Hex. reflexivity.
Qed.

(** Inputs out of order next to an empty one. *)
Definition sample_with_empty : list IntegralRangeVector :=
  [mkIRV [9; 2] None; mkIRV [] None; mkIRV [5] None].

Lemma intersect_with_empty_input_witness :
  Forall (fun c => paired W8 (_rangeVect c) = true) sample_with_empty /\
  Exists (fun c => empty c = true) sample_with_empty /\
  Exists (fun v => v = []) [[9; 2; 255]; []] /\
  (exists c,
      intersect_irv W8 0 sample_with_empty = Some c /\ empty c = true) /\
  intersect_vectors W8 0 [[9; 2; 255]; []] = Some [].
Proof.
  assert (H0 : Forall (fun c => paired W8 (_rangeVect c) = true) sample_with_empty)
    by (repeat constructor).
  assert (H1 : Exists (fun c => empty c = true) sample_with_empty)
    by (apply Exists_cons_tl; apply Exists_cons_hd; reflexivity).
  assert (H2 : Exists (fun v : list Z => v = []) [[9; 2; 255]; []])
    by (apply Exists_cons_tl; apply Exists_cons_hd; reflexivity).
  split; [exact H0|]. split; [exact H1|]. split; [exact H2|].
  exact (intersect_with_empty_input W8 0 _ _ H0 H1 H2).
Defined.

(** *** The outputs are inputs again *)

Lemma insert_all_reachable (t : width) (out : list (Z * Z)) :
  forall c,
    reachable t c ->
    canon_from (last_end (-1) (decode t (_rangeVect c))) out ->
    Forall (fun r => snd r <= mask t - 1) out ->
    exists c',
      @insert_all _ _ (irv_container t) out c = Some c' /\ reachable t c'.
Proof.
  induction out as [|[f l] out IH]; intros c Hr Hcan Hb.
  - exists c. split; [reflexivity | exact Hr].
  - destruct (reachable_inv t c Hr) as [Hwf _].
    simpl in Hcan. destruct Hcan as (H1 & H2 & H3).
    inversion Hb as [|? ? Hb1 Hb2]; subst. simpl in Hb1.
    assert (Hlow : -1 <= last_end (-1) (decode t (_rangeVect c))).
    { apply canon_from_last_end. apply Hwf. }
    assert (Hpre : push_pre t c f l).
    { unfold push_pre. split; [lia|]. split; [lia|].
      apply last_end_zero; lia. }
    destruct (push_back_spec t c f l Hwf Hpre) as (ws' & P1 & P2 & P3 & P4).
    destruct (Z.eqb_spec f l) as [? | _]; [lia|].
    rewrite append_range_fresh in P3 by exact H1.
    set (c1 := mkIRV ws' (option_map (fun n => to_size (n + (l - f))) (_length c))) in *.
    destruct (IH c1) as (c' & I1 & I2).
    + exact (reach_push t c f l c1 Hr Hpre P1).
    + simpl. rewrite P3, last_end_app. exact H3.
    + exact Hb2.
    + exists c'. simpl. rewrite P1. simpl. split; [exact I1 | exact I2].
Qed.

Lemma built_irv (t : width) (S : Z -> Prop) (c : IntegralRangeVector) :
  @built_for _ _ (irv_container t) (mask t - 1) S c ->
  reachable t c /\ compact t (_rangeVect c) /\
  forall x, contains (decode t (_rangeVect c)) x <-> S x.
Proof.
  intros (out & Hc & Hb & B & HS).
  destruct (insert_all_reachable t out (IRV_empty) (reach_empty t) Hc Hb)
    as (c1 & B1 & R1).
  destruct (build_irv t out Hc Hb) as (c2 & B2 & _ & D2 & E2).
  unfold build_with in B, B2. simpl in B, B2.
  assert (c1 = c) by congruence. assert (c2 = c) by congruence. subst c1 c2.
  split; [exact R1|]. split.
  - unfold compact. rewrite D2. exact E2.
  - intros x. rewrite D2. apply HS.
Qed.

Lemma reachable_wf (t : width) (cs : list IntegralRangeVector) :
  Forall (reachable t) cs -> Forall (wf t) cs.
Proof. apply Forall_impl. intros c Hr. apply (reachable_inv t c Hr). Qed.

(** X13. Both merges return containers of the kind the public
    interface builds: on inputs built through the interface (well
    formed, with a correct or absent cached length) the output is
    again such a container, so it can be merged, appended to and
    measured; with two inputs or more it stores every singleton as a
    plain word. *)
Theorem merged_containers_reachable (t : width) (fuel : nat)
        (cs : list IntegralRangeVector) :
  Forall (reachable t) cs -> (irv_steps t cs < fuel)%nat ->
  exists ci cu,
    intersect_irv t fuel cs = Some ci /\
    unite_irv t fuel cs = Some cu /\
    reachable t ci /\ reachable t cu /\
    ((2 <= length cs)%nat ->
     compact t (_rangeVect ci) /\ compact t (_rangeVect cu)).
Proof.
  intros Hr Hfuel. pose proof (reachable_wf t cs Hr) as Hwf.
  destruct cs as [|c1 [|c2 cs]].
  - exists IRV_empty, IRV_empty. repeat split; try apply reach_empty.
    all: simpl in *; lia.
  - inversion Hr; subst. exists c1, c1. repeat split; auto.
    all: simpl in *; lia.
  - destruct (@intersect_many _ _ _ _ _ (irv_merge_laws t) t fuel c1 c2 cs
                (mask_le_max t) Hwf Hfuel) as (ci & Ei & Bi).
    destruct (@unite_many _ _ _ _ _ (irv_merge_laws t) t fuel c1 c2 cs
                (mask_below_max t) Hwf Hfuel) as (cu & Eu & Bu).
    apply built_irv in Bi. apply built_irv in Bu.
    exists ci, cu. split; [exact Ei|]. split; [exact Eu|].
    split; [apply Bi|]. split; [apply Bu|].
    intros _. split; [apply Bi | apply Bu].
Qed.

Lemma merged_containers_reachable_witness :
  Forall (reachable W8) sample_irvs /\
  (irv_steps W8 sample_irvs < 10)%nat /\
  exists ci cu,
    intersect_irv W8 10 sample_irvs = Some ci /\
    unite_irv W8 10 sample_irvs = Some cu /\
    reachable W8 ci /\ reachable W8 cu /\
    ((2 <= length sample_irvs)%nat ->
     compact W8 (_rangeVect ci) /\ compact W8 (_rangeVect cu)).
Proof.
  assert (H1 : Forall (reachable W8) sample_irvs).
  { unfold sample_irvs.
    apply Forall_cons; [|apply Forall_cons; [|apply Forall_nil]].
    - apply (reach_vector W8 [128; 135; 9]). unfold wf_words. by_computation.
    - apply (reach_vector W8 [131; 138]). unfold wf_words. by_computation. }
  assert (H2 : (irv_steps W8 sample_irvs < 10)%nat) by (vm_compute; lia).
  split; [exact H1|]. split; [exact H2|].
  exact (merged_containers_reachable W8 10 _ H1 H2).
Defined.

(** X14. On enumerated inputs (strictly ascending, values below
    [numeric_max - 1]) both merges return an enumerated container
    again: strictly ascending, so without repeats, and below the same
    bound. *)
Theorem merged_vectors_enumerated (t : width) (fuel : nat)
        (vs : list (list Z)) :
  Forall (enumerated (numeric_max t - 1)) vs ->
  (vector_steps vs < fuel)%nat ->
  exists vi vu,
    intersect_vectors t fuel vs = Some vi /\
    unite_vectors t fuel vs = Some vu /\
    enumerated (numeric_max t - 1) vi /\
    enumerated (numeric_max t - 1) vu.
Proof.
  intros Hv Hfuel.
  assert (HU : numeric_max t - 1 <= numeric_max t) by lia.
  assert (HU' : numeric_max t - 1 < numeric_max t) by lia.
  destruct (@unite_spec _ _ _ _ _ (vector_merge_laws t _ HU) t fuel vs HU' Hv)
    as (vu & Eu & Hu & _).
  { rewrite (vector_total t _ HU). exact Hfuel. }
  destruct vs as [|v vs].
  - exists [], vu. split; [reflexivity|]. split; [exact Eu|].
    split; [|exact Hu]. split; [exact I | constructor].
  - destruct (@intersect_spec _ _ _ _ _ (vector_merge_laws t _ HU) t fuel
                (v :: vs) HU) as (vi & Ei & Hi & _).
    + discriminate.
    + exact Hv.
    + rewrite (vector_total t _ HU). exact Hfuel.
    + exists vi, vu. auto.
Qed.

Lemma merged_vectors_enumerated_witness :
  Forall (enumerated (numeric_max W8 - 1)) sample_vectors_low /\
  (vector_steps sample_vectors_low < 10)%nat /\
  exists vi vu,
    intersect_vectors W8 10 sample_vectors_low = Some vi /\
    unite_vectors W8 10 sample_vectors_low = Some vu /\
    enumerated (numeric_max W8 - 1) vi /\
    enumerated (numeric_max W8 - 1) vu.
Proof.
  assert (H1 : Forall (enumerated (numeric_max W8 - 1)) sample_vectors_low)
    by (unfold sample_vectors_low; by_evaluation).
  assert (H2 : (vector_steps sample_vectors_low < 10)%nat) by (vm_compute; lia).
  split; [exact H1|]. split; [exact H2|].
  exact (merged_vectors_enumerated W8 10 _ H1 H2).
Defined.

(** *** Merging a container with itself or with nothing *)

Lemma built_words (t : width) (S : Z -> Prop) (c' c : IntegralRangeVector) :
  @built_for _ _ (irv_container t) (mask t - 1) S c' ->
  wf t c -> compact t (_rangeVect c) ->
  (forall x, S x <-> contains (decode t (_rangeVect c)) x) ->
  IRV_eqb c' c = true.
Proof.
  intros Hb Hwf Hc HS. apply built_irv in Hb. destruct Hb as (Hr & Hc' & HS').
  destruct (reachable_inv t c' Hr) as [Hwf' _].
  assert (Hd : decode t (_rangeVect c') = decode t (_rangeVect c)).
  { apply (canonical_unique _ _ (-1)); [apply Hwf' | apply Hwf |].
    intros x. rewrite HS'. apply HS. }
  unfold IRV_eqb. apply vector_eqb_eq.
  rewrite Hc', Hc, Hd. reflexivity.
Qed.

(** X15. Merging a range container with itself, or uniting it with an
    empty one, gives it back: for a well-formed container that stores
    its singletons as plain words, the intersection and the union of
    the container with itself, and its union with the empty container
    on either side, compare equal to it with [operator==]. *)
Theorem merge_idempotent_irv (t : width) (fuel : nat) (c : IntegralRangeVector) :
  wf t c -> compact t (_rangeVect c) -> (irv_steps t [c; c] < fuel)%nat ->
  exists ci cu cl cr,
    intersect_irv t fuel [c; c] = Some ci /\
    unite_irv t fuel [c; c] = Some cu /\
    unite_irv t fuel [IRV_empty; c] = Some cl /\
    unite_irv t fuel [c; IRV_empty] = Some cr /\
    IRV_eqb ci c = true /\ IRV_eqb cu c = true /\
    IRV_eqb cl c = true /\ IRV_eqb cr c = true.
Proof.
  intros Hwf Hc Hfuel.
  assert (He : wf t IRV_empty) by apply wf_words_nil.
  assert (Hcc : Forall (wf t) [c; c])
    by (constructor; [exact Hwf | constructor; [exact Hwf | constructor]]).
  assert (Hec : Forall (wf t) [IRV_empty; c])
    by (constructor; [exact He | constructor; [exact Hwf | constructor]]).
  assert (Hce : Forall (wf t) [c; IRV_empty])
    by (constructor; [exact Hwf | constructor; [exact He | constructor]]).
  assert (Hf1 : (irv_steps t [IRV_empty; c] < fuel)%nat).
  { unfold irv_steps in *. simpl in *. rewrite !length_app in Hfuel.
    rewrite length_app. simpl in *. lia. }
  assert (Hf2 : (irv_steps t [c; IRV_empty] < fuel)%nat).
  { unfold irv_steps in *. simpl in *. rewrite !length_app in Hfuel.
    rewrite length_app. simpl in *. lia. }
  destruct (@intersect_many _ _ _ _ _ (irv_merge_laws t) t fuel c c []
              (mask_le_max t) Hcc Hfuel) as (ci & Ei & Bi).
  destruct (@unite_many _ _ _ _ _ (irv_merge_laws t) t fuel c c []
              (mask_below_max t) Hcc Hfuel) as (cu & Eu & Bu).
  destruct (@unite_many _ _ _ _ _ (irv_merge_laws t) t fuel IRV_empty c []
              (mask_below_max t) Hec Hf1) as (cl & El & Bl).
  destruct (@unite_many _ _ _ _ _ (irv_merge_laws t) t fuel c IRV_empty []
              (mask_below_max t) Hce Hf2) as (cr & Er & Br).
  exists ci, cu, cl, cr.
  split; [exact Ei|]. split; [exact Eu|]. split; [exact El|]. split; [exact Er|].
  split; [|split; [|split]].
  - apply (built_words t _ ci c Bi Hwf Hc). intros x. unfold denotes. simpl.
    rewrite !Forall_cons_iff, Forall_nil_iff. tauto.
  - apply (built_words t _ cu c Bu Hwf Hc). intros x. unfold denotes. simpl.
    rewrite !Exists_cons, Exists_nil. tauto.
  - apply (built_words t _ cl c Bl Hwf Hc). intros x. unfold denotes. simpl.
    rewrite !Exists_cons, Exists_nil. simpl. tauto.
  - apply (built_words t _ cr c Br Hwf Hc). intros x. unfold denotes. simpl.
    rewrite !Exists_cons, Exists_nil. simpl. tauto.
Qed.

(** A sample container on [uint8_t]: the set [{3, 5..8}]. *)
Definition sample_container : IntegralRangeVector :=
  mkIRV [3; 133; 137] (Some 5).

Lemma merge_idempotent_irv_witness :
  wf W8 sample_container /\
  compact W8 (_rangeVect sample_container) /\
  (irv_steps W8 [sample_container; sample_container] < 10)%nat /\
  exists ci cu cl cr,
    intersect_irv W8 10 [sample_container; sample_container] = Some ci /\
    unite_irv W8 10 [sample_container; sample_container] = Some cu /\
    unite_irv W8 10 [IRV_empty; sample_container] = Some cl /\
    unite_irv W8 10 [sample_container; IRV_empty] = Some cr /\
    IRV_eqb ci sample_container = true /\
    IRV_eqb cu sample_container = true /\
    IRV_eqb cl sample_container = true /\
    IRV_eqb cr sample_container = true.
Proof.
  assert (H1 : wf W8 sample_container) by exact wf_sample.
  assert (H2 : compact W8 (_rangeVect sample_container)) by reflexivity.
  assert (H3 : (irv_steps W8 [sample_container; sample_container] < 10)%nat)
    by (vm_compute; lia).
  split; [exact H1|]. split; [exact H2|]. split; [exact H3|].
  exact (merge_idempotent_irv W8 10 _ H1 H2 H3).
Defined.

Lemma ascending_unique (p : Z) (u w : list Z) :
  ascending_from p u -> ascending_from p w ->
  (forall x, In x u <-> In x w) -> u = w.
Proof.
  revert p w. induction u as [|a u IH]; intros p [|b w] Hu Hw Hin.
  - reflexivity.
  - destruct (proj2 (Hin b) (or_introl eq_refl)).
  - destruct (proj1 (Hin a) (or_introl eq_refl)).
  - simpl in Hu, Hw. destruct Hu as [Hu1 Hu2]. destruct Hw as [Hw1 Hw2].
    pose proof (ascending_above _ _ Hu2) as Au.
    pose proof (ascending_above _ _ Hw2) as Aw.
    rewrite Forall_forall in Au, Aw.
    assert (a = b).
    { destruct (proj1 (Hin a) (or_introl eq_refl)) as [E | E]; [congruence|].
      destruct (proj2 (Hin b) (or_introl eq_refl)) as [E' | E']; [congruence|].
      specialize (Au _ E'). specialize (Aw _ E). lia. }
    subst b. f_equal. apply (IH a); auto.
    intros x. split; intros Hx.
    + destruct (proj1 (Hin x) (or_intror Hx)) as [E | E]; [|exact E].
      specialize (Au _ Hx). lia.
    + destruct (proj2 (Hin x) (or_intror Hx)) as [E | E]; [|exact E].
      specialize (Aw _ Hx). lia.
Qed.

Lemma built_vector (t : width) (U : Z) (S : Z -> Prop) (v' v : list Z) :
  @built_for _ _ (vector_container t) U S v' ->
  ascending_from (-1) v -> (forall x, S x <-> In x v) -> v' = v.
Proof.
  intros (out & Hc & _ & B & HS) Hv Hin.
  unfold build_with in B. rewrite insert_all_vector in B. simpl in B.
  injection B as <-.
  apply (ascending_unique (-1)); [apply ascending_expand; exact Hc | exact Hv |].
  intros x. rewrite in_expand, HS. apply Hin.
Qed.

(** X16. Merging an enumerated container with itself, or uniting it
    with an empty one, returns the same vector: for strictly ascending
    values below [numeric_max - 1], the intersection and the union of
    the vector with itself and its union with the empty vector, on
    either side, are the vector. *)
Theorem merge_idempotent_vectors (t : width) (fuel : nat) (v : list Z) :
  enumerated (numeric_max t - 1) v -> (vector_steps [v; v] < fuel)%nat ->
  intersect_vectors t fuel [v; v] = Some v /\
  unite_vectors t fuel [v; v] = Some v /\
  unite_vectors t fuel [[]; v] = Some v /\
  unite_vectors t fuel [v; []] = Some v.
Proof.
  intros Hv Hfuel.
  assert (HU : numeric_max t - 1 <= numeric_max t) by lia.
  assert (HU' : numeric_max t - 1 < numeric_max t) by lia.
  assert (He : enumerated (numeric_max t - 1) []) by (split; [exact I | constructor]).
  assert (Hvv : Forall (enumerated (numeric_max t - 1)) [v; v])
    by (constructor; [exact Hv | constructor; [exact Hv | constructor]]).
  assert (Hev : Forall (enumerated (numeric_max t - 1)) [[]; v])
    by (constructor; [exact He | constructor; [exact Hv | constructor]]).
  assert (Hve : Forall (enumerated (numeric_max t - 1)) [v; []])
    by (constructor; [exact Hv | constructor; [exact He | constructor]]).
  pose (ML := vector_merge_laws t _ HU).
  assert (Hf0 : (@total_ranges _ _ (vector_container t) (vector_laws t) [v; v]
                 < fuel)%nat)
    by (rewrite (vector_total t _ HU); exact Hfuel).
  assert (Hf1 : (@total_ranges _ _ (vector_container t) (vector_laws t) [[]; v]
                 < fuel)%nat).
  { rewrite (vector_total t _ HU). unfold vector_steps in *. simpl in *.
    rewrite !length_app in Hfuel. rewrite app_nil_r. lia. }
  assert (Hf2 : (@total_ranges _ _ (vector_container t) (vector_laws t) [v; []]
                 < fuel)%nat).
  { rewrite (vector_total t _ HU). unfold vector_steps in *. simpl in *.
    rewrite !length_app in Hfuel. rewrite app_nil_r. lia. }
  destruct (@intersect_many _ _ _ _ _ ML t fuel v v [] HU Hvv Hf0)
    as (vi & Ei & Bi).
  destruct (@unite_many _ _ _ _ _ ML t fuel v v [] HU' Hvv Hf0)
    as (vu & Eu & Bu).
  destruct (@unite_many _ _ _ _ _ ML t fuel [] v [] HU' Hev Hf1)
    as (vl & El & Bl).
  destruct (@unite_many _ _ _ _ _ ML t fuel v [] [] HU' Hve Hf2)
    as (vr & Er & Br).
  pose proof (vector_denotes t _ HU v) as Dv.
  assert (vi = v).
  { apply (built_vector t _ _ vi v Bi); [apply Hv|]. intros x.
    rewrite !Forall_cons_iff, Forall_nil_iff, (Dv x Hv). tauto. }
  assert (vu = v).
  { apply (built_vector t _ _ vu v Bu); [apply Hv|]. intros x.
    rewrite !Exists_cons, Exists_nil, (Dv x Hv). tauto. }
  assert (vl = v).
  { apply (built_vector t _ _ vl v Bl); [apply Hv|]. intros x.
    rewrite !Exists_cons, Exists_nil, (Dv x Hv).
    unfold denotes. simpl. tauto. }
  assert (vr = v).
  { apply (built_vector t _ _ vr v Br); [apply Hv|]. intros x.
    rewrite !Exists_cons, Exists_nil, (Dv x Hv).
    unfold denotes. simpl. tauto. }
  subst vi vu vl vr. auto.
Qed.

(** A sample enumerated container on [uint8_t]. *)
Definition sample_vector : list Z := [2; 3; 9; 253].

Lemma merge_idempotent_vectors_witness :
  enumerated (numeric_max W8 - 1) sample_vector /\
  (vector_steps [sample_vector; sample_vector] < 10)%nat /\
  intersect_vectors W8 10 [sample_vector; sample_vector] = Some sample_vector /\
  unite_vectors W8 10 [sample_vector; sample_vector] = Some sample_vector /\
  unite_vectors W8 10 [[]; sample_vector] = Some sample_vector /\
  unite_vectors W8 10 [sample_vector; []] = Some sample_vector.
Proof.
  assert (H1 : enumerated (numeric_max W8 - 1) sample_vector)
    by (unfold sample_vector; by_evaluation).
  assert (H2 : (vector_steps [sample_vector; sample_vector] < 10)%nat)
    by (vm_compute; lia).
  split; [exact H1|]. split; [exact H2|].
  exact (merge_idempotent_vectors W8 10 _ H1 H2).
Defined.

(** *** What the merges read of their inputs *)

(** X17. With two inputs or more, both merges read their inputs only
    through the ranges the iterators yield: two collections of range
    containers with paired tagged words that decode to the same ranges,
    input by input, get the same result, whatever their cached lengths
    and whether a singleton is stored as a plain word or as a tagged
    pair. *)
Theorem merge_reads_ranges_only (t : width) (fuel : nat)
        (c1 c2 d1 d2 : IntegralRangeVector) (cs ds : list IntegralRangeVector) :
  Forall (fun c => paired t (_rangeVect c) = true) (c1 :: c2 :: cs) ->
  Forall (fun c => paired t (_rangeVect c) = true) (d1 :: d2 :: ds) ->
  map (fun c => decode t (_rangeVect c)) (c1 :: c2 :: cs)
  = map (fun c => decode t (_rangeVect c)) (d1 :: d2 :: ds) ->
  intersect_irv t fuel (c1 :: c2 :: cs) = intersect_irv t fuel (d1 :: d2 :: ds) /\
  unite_irv t fuel (c1 :: c2 :: cs) = unite_irv t fuel (d1 :: d2 :: ds).
Proof.
  intros Hc Hd Hmap. unfold intersect_irv, unite_irv.
  rewrite !(@intersect_ranges_sim _ _ _ (irv_laws t) t fuel) by assumption.
  rewrite !(@unite_ranges_sim _ _ _ (irv_laws t) t fuel) by assumption.
  change (@ranges_of _ _ _ (irv_laws t))
    with (fun c => decode t (_rangeVect c)).
  rewrite Hmap. split; reflexivity.
Qed.

Lemma merge_reads_ranges_only_witness :
  Forall (fun c => paired W8 (_rangeVect c) = true)
         [mkIRV [3; 133; 137] None; mkIRV [4] (Some 1)] /\
  Forall (fun c => paired W8 (_rangeVect c) = true)
         [mkIRV [131; 132; 133; 137] (Some 5); mkIRV [132; 133] None] /\
  map (fun c => decode W8 (_rangeVect c))
      [mkIRV [3; 133; 137] None; mkIRV [4] (Some 1)]
  = map (fun c => decode W8 (_rangeVect c))
        [mkIRV [131; 132; 133; 137] (Some 5); mkIRV [132; 133] None] /\
  intersect_irv W8 10 [mkIRV [3; 133; 137] None; mkIRV [4] (Some 1)]
  = intersect_irv W8 10 [mkIRV [131; 132; 133; 137] (Some 5);
                         mkIRV [132; 133] None] /\
  unite_irv W8 10 [mkIRV [3; 133; 137] None; mkIRV [4] (Some 1)]
  = unite_irv W8 10 [mkIRV [131; 132; 133; 137] (Some 5);
                     mkIRV [132; 133] None].
Proof.
  assert (H1 : Forall (fun c => paired W8 (_rangeVect c) = true)
                      [mkIRV [3; 133; 137] None; mkIRV [4] (Some 1)])
    by (repeat constructor).
  assert (H2 : Forall (fun c => paired W8 (_rangeVect c) = true)
                      [mkIRV [131; 132; 133; 137] (Some 5); mkIRV [132; 133] None])
    by (repeat constructor).
  assert (H3 : map (fun c => decode W8 (_rangeVect c))
                   [mkIRV [3; 133; 137] None; mkIRV [4] (Some 1)]
               = map (fun c => decode W8 (_rangeVect c))
                     [mkIRV [131; 132; 133; 137] (Some 5); mkIRV [132; 133] None])
    by reflexivity.
  split; [exact H1|]. split; [exact H2|]. split; [exact H3|].
  exact (merge_reads_ranges_only W8 10 _ _ _ _ [] [] H1 H2 H3).
Defined.

(* ================================================================== *)
(** ** What [push_back] does not check *)

(** X18. The assertions of [push_back] test the tag bit of the
    endpoints and nothing else.  A non-empty range below [mask] that
    starts before the last stored endpoint passes them on a
    well-formed container; it is stored after the existing words as
    it stands, and the result is no longer well formed: its ranges are
    out of order. *)
Theorem push_back_out_of_order (t : width) (c : IntegralRangeVector)
        (first last : Z) :
  wf t c -> 0 <= first -> first < last -> last < mask t ->
  first < last_end (-1) (decode t (_rangeVect c)) ->
  exists c',
    push_back t c (first, last) = Some c' /\
    _rangeVect c' = _rangeVect c ++ encode_range t (first, last) /\
    decode t (_rangeVect c') = decode t (_rangeVect c) ++ [(first, last)] /\
    ~ wf t c'.
Proof.
  destruct c as [ws len]. unfold wf. simpl.
  intros Hwf Hf Hfl Hl Hlast.
  pose proof (modulus_eq t) as Hmod. pose proof (mask_pos t) as Hmp.
  destruct (encode_range_facts t first last) as (Ed & Ep & Et); try lia.
  assert (Hpush : push_back t (mkIRV ws len) (first, last)
                  = Some (mkIRV (ws ++ encode_range t (first, last))
                                (option_map (fun n => to_size (n + (last - first)))
                                            len))).
  { unfold push_back. simpl.
    rewrite (and_mask_low t first), (and_mask_low t last) by lia. simpl.
    rewrite (sub_T_le t last first) by lia.
    replace (0 <? last - first) with true by (symmetry; apply Z.ltb_lt; lia).
    rewrite andb_true_r, fresh_words by lia.
    destruct (wf_tail_view t ws Hwf)
      as [E | ws' x E Hp Hx Hdec | ws' a b E Hp Ha Hb Hdec].
    - subst ws. reflexivity.
    - rewrite Hdec, last_end_app in Hlast. simpl in Hlast. subst ws.
      rewrite is_empty_snoc, back_snoc. simpl.
      rewrite (and_mask_low t x), (unmask_low t x) by lia. simpl.
      assert (Hx' : (x =? sub_T t first 1) = false).
      { apply Z.eqb_neq. destruct (Z.eq_dec first 0) as [-> | Hn].
        - pose proof (sub_T_zero_one t). lia.
        - rewrite (sub_T_le t first 1) by lia. lia. }
      rewrite Hx'. reflexivity.
    - rewrite Hdec, last_end_app in Hlast. simpl in Hlast. subst ws.
      change (ws' ++ [a + mask t; b + mask t])
        with (ws' ++ [a + mask t] ++ [b + mask t]).
      rewrite app_assoc, is_empty_snoc, back_snoc. simpl.
      rewrite (and_mask_high t (b + mask t)), (unmask_high t (b + mask t)) by lia.
      replace (0 <? mask t) with true by (symmetry; apply Z.ltb_lt; lia).
      replace (mask t =? 0) with false by (symmetry; apply Z.eqb_neq; lia).
      simpl. replace (b + mask t - mask t =? first) with false
        by (symmetry; apply Z.eqb_neq; lia).
      reflexivity. }
  eexists. split; [exact Hpush|]. simpl.
  assert (Hdec : decode t (ws ++ encode_range t (first, last))
                 = decode t ws ++ [(first, last)]).
  { rewrite decode_app by (apply Hwf). rewrite Ed. reflexivity. }
  split; [reflexivity|]. split; [exact Hdec|].
  intros (_ & _ & Hcan & _). rewrite Hdec in Hcan.
  apply canon_from_app in Hcan. lia.
Qed.

Lemma push_back_out_of_order_witness :
  wf W8 (mkIRV [3; 133; 137] (Some 5)) /\
  0 <= 4 /\ 4 < 6 /\ 6 < mask W8 /\
  4 < last_end (-1) (decode W8 (_rangeVect (mkIRV [3; 133; 137] (Some 5)))) /\
  exists c',
    push_back W8 (mkIRV [3; 133; 137] (Some 5)) (4, 6) = Some c' /\
    _rangeVect c'
    = _rangeVect (mkIRV [3; 133; 137] (Some 5)) ++ encode_range W8 (4, 6) /\
    decode W8 (_rangeVect c')
    = decode W8 (_rangeVect (mkIRV [3; 133; 137] (Some 5))) ++ [(4, 6)] /\
    ~ wf W8 c'.
Proof.
  assert (H1 : wf W8 (mkIRV [3; 133; 137] (Some 5))) by exact wf_sample.
  assert (H2 : 0 <= 4) by lia.
  assert (H3 : 4 < 6) by lia.
  assert (H4 : 6 < mask W8) by (vm_compute; reflexivity).
  assert (H5 : 4 < last_end (-1)
                     (decode W8 (_rangeVect (mkIRV [3; 133; 137] (Some 5)))))
    by (vm_compute; reflexivity).
  split; [exact H1|]. split; [exact H2|]. split; [exact H3|].
  split; [exact H4|]. split; [exact H5|].
  exact (push_back_out_of_order W8 _ 4 6 H1 H2 H3 H4 H5).
Defined.
